(** * SPARK for SMS / wave-encoded SENSE (sparkFigure4.ipynb): a shallow embedding

    The notebook is a numerical pipeline over numpy arrays.  The embedding keeps
    its structure:

    - [NumPy]    : the array primitives the notebook relies on (indexing with
                   Python's negative indices, basic slices, slice assignment,
                   [np.roll], ravel / reshape);
    - [Acs]      : the ACS replacement of cells 28 and 49;
    - [Wave]     : [resize] and [crop] of cell 36;
    - [Shift]    : [performshift] of cell 10;
    - [Cplx]     : complex numbers over the rationals;
    - [Sense]    : [senseForward], [senseAdjoint] and the normal operator of
                   cells 14 and 16, in exact complex arithmetic;
    - [Iterative]: the conjugate-gradient solver the notebook calls;
    - [Ieee]     : IEEE 754 floating-point arithmetic ([SpecFloat]);
    - [Spark]    : [reformattingKspaceForSpark] and [applySparkCorrection] of
                   cells 22 and 24, over a store of array buffers;
    - [ShiftFacts], [Readout] : the shift amounts of cell 10, more on
                   [performshift], and the concatenation of the slices along
                   the readout axis;
    - [Sampling], [AcsFacts]  : the undersampling mask of cell 12 and the ACS
                   regions of cell 20;
    - [WaveOps]  : the wave-encoded operators of cells 36 and 40;
    - [SparkFacts]: what [reformattingKspaceForSpark] returns;
    - [Training] : the dictionaries of [trainingSparkNetwork] (cell 23) and
                   the correction loop of cell 28;
    - [Runs]     : the general lemmas of [Sense] and [Acs] on small inputs.

    Arrays are nested lists in numpy's axis order.  Where a statement depends
    on how the machine computes, the numbers are the machine's: the int64
    product of [performshift] wraps, and the shift amounts of cell 10 and
    [applySparkCorrection] compute in IEEE floating point ([Ieee]).  The
    operators of [Sense] and [WaveOps] and [reformattingKspaceForSpark] are in
    exact arithmetic: there a float is a rational ([Qc]), for
    [reformattingKspaceForSpark] a rational or one of the IEEE special
    values, and the statements about them are relations between the
    operators, shapes, errors and special values, not rounded values. *)

From Stdlib Require Import ZArith QArith Qcanon Lia SpecFloat.
From stdpp Require Import base option list gmap pretty.

Open Scope Z_scope.

(** ** numpy primitives *)
Module NumPy.

Abbreviation arr2 A := (list (list A)).
Abbreviation arr3 A := (list (list (list A))).
Abbreviation arr4 A := (list (list (list (list A)))).

(** [a[i]] for a Python integer [i]: a negative index counts from the end, and an
    index outside [-len, len) raises IndexError ([None]). *)
Definition getitem {A} (l : list A) (i : Z) : option A :=
  let n := Z.of_nat (length l) in
  if (0 <=? i) && (i <? n) then l !! Z.to_nat i
  else if (- n <=? i) && (i <? 0) then l !! Z.to_nat (n + i)
  else None.

(** The bound of a basic slice [a[s:e]] on an axis of length [len]: negative
    bounds count from the end, and the result is clipped to [0, len]. *)
Definition slice_bound (len : nat) (i : Z) : nat :=
  let n := Z.of_nat len in
  if i <? 0 then Z.to_nat (Z.max 0 (n + i)) else Z.to_nat (Z.min i n).

(** [a[s:e]] along the leading axis. *)
Definition slice {A} (s e : Z) (l : list A) : list A :=
  let s' := slice_bound (length l) s in
  let e' := slice_bound (length l) e in
  take (e' - s') (drop s' l).

(** The number of entries of [a[s:e]] on an axis of length [len], and whether
    the index [i] is one of them. *)
Definition slice_len (len : nat) (s e : Z) : nat :=
  (slice_bound len e - slice_bound len s)%nat.
Definition in_slice (len : nat) (s e : Z) (i : nat) : bool :=
  bool_decide (slice_bound len s ≤ i < slice_bound len e)%nat.

(** [dst[s:e] = src] along the leading axis, [upd] assigning one entry of [src]
    into the matching entry of [dst].  numpy raises ValueError ([None]) when
    [src] has not the extent of the selected window (an axis of length one is
    broadcast by numpy; the notebook never assigns one, and the model raises). *)
Definition slice_assign {A B} (upd : A → B → option A) (s e : Z)
    (dst : list A) (src : list B) : option (list A) :=
  let s' := slice_bound (length dst) s in
  let e' := slice_bound (length dst) e in
  if decide (length src = (e' - s')%nat) then
    mid ← mapM (λ p, upd p.1 p.2) (zip (take (e' - s') (drop s' dst)) src);
    Some (take s' dst ++ mid ++ drop (s' + (e' - s')) dst)
  else None.

(** [dst[:] = src] along the leading axis (every index of it). *)
Definition full_assign {A B} (upd : A → B → option A)
    (dst : list A) (src : list B) : option (list A) :=
  if decide (length src = length dst) then mapM (λ p, upd p.1 p.2) (zip dst src)
  else None.

(** [np.roll(a, k)] on a flat array: the entry at [i] moves to [(i + k) mod n]. *)
Definition roll {A} (k : Z) (l : list A) : list A :=
  let n := length l in
  if decide (n = 0%nat) then l
  else
    let r := Z.to_nat (k `mod` Z.of_nat n) in
    drop (n - r) l ++ take (n - r) l.

(** A flat array cut into rows of the lengths of [tmpl]'s rows: reshape to the
    shape of [tmpl]. *)
Fixpoint unflatten {A B} (tmpl : list (list B)) (flat : list A) : list (list A) :=
  match tmpl with
  | [] => []
  | t :: ts => take (length t) flat :: unflatten ts (drop (length t) flat)
  end.

(** [a.ravel()] and [flat.reshape(tmpl.shape)] for three axes, row-major. *)
Definition ravel3 {A} (x : arr3 A) : list A := concat (concat x).
Definition reshape_like3 {A B} (tmpl : arr3 B) (flat : list A) : arr3 A :=
  unflatten tmpl (unflatten (concat tmpl) flat).

(** [np.roll(a, k)] without an axis, on a 3-d array: the array is flattened,
    rolled, and given its shape back. *)
Definition roll3 {A} (k : Z) (x : arr3 A) : arr3 A :=
  reshape_like3 x (roll k (ravel3 x)).

(** Rectangular arrays of given extents. *)
Definition has_shape2 {A} (m n : nat) (x : arr2 A) : Prop :=
  length x = m ∧ Forall (λ r, length r = n) x.
Definition has_shape3 {A} (a m n : nat) (x : arr3 A) : Prop :=
  length x = a ∧ Forall (has_shape2 m n) x.
Definition has_shape4 {A} (a s m n : nat) (x : arr4 A) : Prop :=
  length x = a ∧ Forall (has_shape3 s m n) x.

(** A numpy [int64] holds an integer of [-2^63, 2^63).  An operation on int64
    values whose result leaves that range wraps around: numpy warns and goes
    on with the result modulo [2^64]. *)
Definition int64 (z : Z) : Prop := - 2 ^ 63 ≤ z < 2 ^ 63.
Definition wrap64 (z : Z) : Z := (z + 2 ^ 63) `mod` 2 ^ 64 - 2 ^ 63.

Lemma wrap64_int64 (z : Z) : int64 (wrap64 z).
Proof.
  unfold int64, wrap64.
  pose proof (Z.mod_pos_bound (z + 2 ^ 63) (2 ^ 64) ltac:(lia)). lia.
Qed.

Lemma wrap64_id (z : Z) : int64 z → wrap64 z = z.
Proof.
  unfold int64, wrap64. intros Hz. rewrite Z.mod_small by lia. lia.
Qed.

Lemma lookup_map {A B} (f : A → B) (l : list A) (i : nat) :
  map f l !! i = f <$> (l !! i).
Proof. exact (list_lookup_fmap f l i). Qed.

Section Facts.
Context {A : Type}.
Implicit Types l : list A.

Lemma length_roll k l : length (roll k l) = length l.
Proof.
  unfold roll. case_decide; [done|].
  rewrite length_app, length_drop, length_take. lia.
Qed.

Lemma roll_as_drop_take k l (r : nat) :
  length l ≠ 0%nat → Z.of_nat r = k `mod` Z.of_nat (length l) →
  roll k l = drop (length l - r) l ++ take (length l - r) l.
Proof.
  intros Hn Hr. unfold roll. case_decide; [done|].
  by replace (Z.to_nat (k `mod` Z.of_nat (length l))) with r by lia.
Qed.

(** Rolling back by the opposite shift undoes a roll. *)
Lemma roll_opp_roll k l : roll (- k) (roll k l) = l.
Proof.
  destruct (decide (length l = 0%nat)) as [Hn|Hn].
  { unfold roll at 2. rewrite decide_True by done.
    unfold roll. by rewrite decide_True by done. }
  pose proof (length_roll k l) as Hlen.
  assert (Hr : 0 ≤ k `mod` Z.of_nat (length l) < Z.of_nat (length l))
    by (apply Z.mod_pos_bound; lia).
  set (r := Z.to_nat (k `mod` Z.of_nat (length l))).
  assert (Hroll : roll k l = drop (length l - r) l ++ take (length l - r) l)
    by (apply roll_as_drop_take; lia).
  destruct (decide (r = 0%nat)) as [Hr0|Hr0].
  - assert (Hl : roll k l = l).
    { rewrite Hroll, Hr0, Nat.sub_0_r, drop_all, take_ge by done. done. }
    rewrite Hl.
    rewrite (roll_as_drop_take (- k) l 0%nat); [|done|].
    + rewrite Nat.sub_0_r, drop_all, take_ge by done. done.
    + rewrite Z.mod_opp_l_z; lia.
  - rewrite (roll_as_drop_take (- k) (roll k l) (length l - r)%nat).
    + rewrite Hlen, Hroll.
      replace (length l - (length l - r))%nat with (length (drop (length l - r) l))
        by (rewrite length_drop; lia).
      rewrite drop_app_length, take_app_length. apply take_drop.
    + lia.
    + rewrite Hlen, Z.mod_opp_l_nz by lia. lia.
Qed.

Lemma getitem_0 x l : getitem (x :: l) 0 = Some x.
Proof.
  unfold getitem. cbn [length].
  destruct (Z.ltb_spec 0 (Z.of_nat (S (length l)))); [done|lia].
Qed.

Lemma slice_bound_le len i : (slice_bound len i ≤ len)%nat.
Proof. unfold slice_bound. destruct (Z.ltb_spec i 0); lia. Qed.

Lemma length_slice s e l : length (slice s e l) = slice_len (length l) s e.
Proof.
  unfold slice, slice_len. rewrite length_take, length_drop.
  pose proof (slice_bound_le (length l) e). lia.
Qed.

Lemma slice_len_le len s e : (slice_len len s e ≤ len)%nat.
Proof. unfold slice_len. pose proof (slice_bound_le len e). lia. Qed.

Lemma lookup_slice s e l k :
  (k < slice_len (length l) s e)%nat →
  slice s e l !! k = l !! (slice_bound (length l) s + k)%nat.
Proof.
  intros Hk. unfold slice, slice_len in *.
  rewrite lookup_take_lt by done. by rewrite lookup_drop.
Qed.

(** A slice never reaches the index of its end. *)
Lemma in_slice_end len s e : 0 ≤ e → in_slice len s e (Z.to_nat e) = false.
Proof.
  intros He. unfold in_slice. apply bool_decide_eq_false.
  unfold slice_bound at 2. destruct (Z.ltb_spec e 0); lia.
Qed.

Lemma mapM_zip_imap {B} (upd : A → B → option A) (f : nat → A → A) off l src :
  length src = length l →
  (∀ k d b, l !! k = Some d → src !! k = Some b → upd d b = Some (f (off + k)%nat d)) →
  mapM (λ p, upd p.1 p.2) (zip l src) = Some (imap (λ k d, f (off + k)%nat d) l).
Proof.
  revert off src. induction l as [|d l IH]; intros off [|b src] Hl Hupd;
    try done.
  cbn. rewrite (Hupd 0%nat d b) by done. cbn.
  rewrite (IH (S off) src).
  - cbn. rewrite Nat.add_0_r. do 2 f_equal. apply imap_ext.
    intros k x _. cbn. f_equal. lia.
  - cbn in Hl. lia.
  - intros k x y Hx Hy. rewrite (Hupd (S k) x y) by done. do 2 f_equal. lia.
Qed.

(** A slice assignment writes the entries of the slice and no other. *)
Lemma slice_assign_imap {B} (upd : A → B → option A) (f : nat → A → A) s e dst src :
  length src = slice_len (length dst) s e →
  (∀ k d b, (k < slice_len (length dst) s e)%nat →
     dst !! (slice_bound (length dst) s + k)%nat = Some d → src !! k = Some b →
     upd d b = Some (f (slice_bound (length dst) s + k)%nat d)) →
  slice_assign upd s e dst src
  = Some (imap (λ i d, if in_slice (length dst) s e i then f i d else d) dst).
Proof.
  unfold slice_assign, slice_len, in_slice.
  set (s' := slice_bound (length dst) s). set (e' := slice_bound (length dst) e).
  pose proof (slice_bound_le (length dst) s) as Hs. fold s' in Hs.
  pose proof (slice_bound_le (length dst) e) as He. fold e' in He.
  intros Hl Hupd. rewrite decide_True by done.
  rewrite (mapM_zip_imap upd f s').
  2:{ rewrite length_take, length_drop. lia. }
  2:{ intros k d b Hd Hb.
      assert (k < e' - s')%nat.
      { apply lookup_lt_Some in Hd. rewrite length_take in Hd. lia. }
      apply Hupd; [done| |done].
      rewrite lookup_take_lt, lookup_drop in Hd; done. }
  cbn. f_equal. apply list_eq. intros i.
  rewrite list_lookup_imap.
  destruct (decide (i < s')%nat) as [Hi|Hi].
  { rewrite lookup_app_l by (rewrite length_take; lia).
    rewrite lookup_take_lt by done.
    rewrite bool_decide_eq_false_2 by lia. by destruct (dst !! i). }
  rewrite lookup_app_r by (rewrite length_take; lia).
  rewrite length_take, Nat.min_l by lia.
  destruct (decide (i < e')%nat) as [Hie|Hie].
  - rewrite lookup_app_l by (rewrite length_imap, length_take, length_drop; lia).
    rewrite list_lookup_imap, lookup_take_lt, lookup_drop by lia.
    rewrite bool_decide_eq_true_2 by lia.
    replace (s' + (i - s'))%nat with i by lia. done.
  - rewrite lookup_app_r by (rewrite length_imap, length_take, length_drop; lia).
    rewrite length_imap, length_take, length_drop, lookup_drop.
    rewrite bool_decide_eq_false_2 by lia.
    replace (s' + (e' - s') + (i - s' - (e' - s') `min` (length dst - s')))%nat
      with i by lia.
    by destruct (dst !! i).
Qed.

Lemma unflatten_concat (x : list (list A)) : unflatten x (concat x) = x.
Proof.
  induction x as [|r x IH]; [done|]. cbn.
  by rewrite take_app_length, drop_app_length, IH.
Qed.

Lemma concat_unflatten {B} (tmpl : list (list B)) l :
  length l = length (concat tmpl) → concat (unflatten tmpl l) = l.
Proof.
  revert l. induction tmpl as [|t ts IH]; intros l Hl; cbn in *.
  - by destruct l.
  - rewrite length_app in Hl.
    rewrite IH by (rewrite length_drop; lia). apply take_drop.
Qed.

Lemma map_length_unflatten {B} (tmpl : list (list B)) l :
  length l = length (concat tmpl) →
  map length (unflatten tmpl l) = map length tmpl.
Proof.
  revert l. induction tmpl as [|t ts IH]; intros l Hl; cbn in *; [done|].
  rewrite length_app in Hl. f_equal.
  - rewrite length_take. lia.
  - apply IH. rewrite length_drop. lia.
Qed.

Lemma unflatten_shape {B C} (t : list (list B)) (t' : list (list C)) l :
  map length t = map length t' → unflatten t l = unflatten t' l.
Proof.
  revert t' l. induction t as [|r t IH]; intros [|r' t'] l Hs; cbn in *;
    try done.
  injection Hs as Hr Hs. rewrite Hr. f_equal. by apply IH.
Qed.

Lemma length_concat_shape {B C} (t : list (list B)) (t' : list (list C)) :
  map length t = map length t' → length (concat t) = length (concat t').
Proof.
  revert t'. induction t as [|r t IH]; intros [|r' t'] Hs; cbn in *; try done.
  injection Hs as Hr Hs. rewrite !length_app. rewrite Hr. f_equal. by apply IH.
Qed.

End Facts.

Section Facts3.
Context {A : Type}.

(** Two nested arrays of the same extents along every axis. *)
Definition same_shape3 {B C} (x : arr3 B) (y : arr3 C) : Prop :=
  map length x = map length y ∧ map length (concat x) = map length (concat y).

Lemma reshape_like3_ravel3 (x : arr3 A) : reshape_like3 x (ravel3 x) = x.
Proof. unfold reshape_like3, ravel3. by rewrite !unflatten_concat. Qed.

Lemma ravel3_reshape_like3 {B} (t : arr3 B) (l : list A) :
  length l = length (ravel3 t) → ravel3 (reshape_like3 t l) = l.
Proof.
  intros Hl. unfold ravel3, reshape_like3 in *.
  rewrite concat_unflatten.
  - by apply concat_unflatten.
  - rewrite <- (length_map length (unflatten _ _)), map_length_unflatten by done.
    by rewrite length_map.
Qed.

Lemma same_shape3_reshape_like3 {B} (t : arr3 B) (l : list A) :
  length l = length (ravel3 t) → same_shape3 (reshape_like3 t l) t.
Proof.
  intros Hl. unfold ravel3, reshape_like3, same_shape3 in *.
  assert (Hrows : length (unflatten (concat t) l) = length (concat t)).
  { rewrite <- (length_map length (unflatten _ _)), map_length_unflatten by done.
    by rewrite length_map. }
  split.
  - by apply map_length_unflatten.
  - rewrite concat_unflatten by done. by apply map_length_unflatten.
Qed.

Lemma reshape_like3_shape {B C} (t : arr3 B) (t' : arr3 C) (l : list A) :
  same_shape3 t t' → reshape_like3 t l = reshape_like3 t' l.
Proof.
  intros [H1 H2]. unfold reshape_like3.
  rewrite (unflatten_shape (concat t) (concat t')) by done.
  by apply unflatten_shape.
Qed.

Lemma same_shape3_roll3 k (x : arr3 A) : same_shape3 (roll3 k x) x.
Proof. apply same_shape3_reshape_like3, length_roll. Qed.

Lemma ravel3_roll3 k (x : arr3 A) : ravel3 (roll3 k x) = roll k (ravel3 x).
Proof. apply ravel3_reshape_like3, length_roll. Qed.

(** Rolling a 3-d array back by the opposite shift gives the array back. *)
Lemma roll3_opp_roll3 k (x : arr3 A) : roll3 (- k) (roll3 k x) = x.
Proof.
  unfold roll3 at 1. rewrite ravel3_roll3, roll_opp_roll.
  rewrite (reshape_like3_shape _ x) by apply same_shape3_roll3.
  apply reshape_like3_ravel3.
Qed.

Lemma length_roll3 k (x : arr3 A) : length (roll3 k x) = length x.
Proof.
  destruct (same_shape3_roll3 k x) as [H _].
  by rewrite <- (length_map length (roll3 k x)), H, length_map.
Qed.

End Facts3.

End NumPy.

(** ** ACS replacement (cells 28 and 49) *)
Module Acs.
Import NumPy.

Section Replace.
Context {A : Type}.

(** The last statement of cells 28 and 49, the same text on the cartesian and on
    the wave arrays:
<<
    kspaceCorrectedReplaced = np.copy(kspaceCorrected)
    kspaceCorrectedReplaced[:,acsregionX[0]:acsregionX[acsx-1],acsregionY[0]:acsregionY[acsy-1]] = \
        kspaceAcs[0,:,acsregionX[0]:acsregionX[acsx-1],acsregionY[0]:acsregionY[acsy-1]]
>>
    The slices end at [acsregionX[acsx-1]] and [acsregionY[acsy-1]]. *)
Definition kspaceCorrectedReplaced (kspaceCorrected : arr3 A) (kspaceAcs : arr4 A)
    (acsregionX acsregionY : list Z) (acsx acsy : Z) : option (arr3 A) :=
  x0 ← getitem acsregionX 0;
  x1 ← getitem acsregionX (acsx - 1);
  y0 ← getitem acsregionY 0;
  y1 ← getitem acsregionY (acsy - 1);
  acs0 ← getitem kspaceAcs 0;
  let rhs := map (λ ch, map (slice y0 y1) (slice x0 x1 ch)) acs0 in
  full_assign
    (slice_assign (slice_assign (λ _ v, Some v) y0 y1) x0 x1)
    kspaceCorrected rhs.

(** The window the ACS crop of [reformattingKspaceForSpark] reads, which ends at
    [acsregionX[acsx-1]+1]: the replacement the pipeline describes. *)
Definition in_acs_window (acsregionX acsregionY : list Z) (acsx acsy : Z)
    (i j : nat) : bool :=
  match getitem acsregionX 0, getitem acsregionX (acsx - 1),
        getitem acsregionY 0, getitem acsregionY (acsy - 1) with
  | Some x0, Some x1, Some y0, Some y1 =>
      (x0 <=? Z.of_nat i) && (Z.of_nat i <=? x1) &&
      (y0 <=? Z.of_nat j) && (Z.of_nat j <=? y1)
  | _, _, _, _ => false
  end.

End Replace.

Section ReplaceFacts.
Context {A : Type}.

(** The corrected k-space with the measured values written over the entries
    [inx i && iny j] of every channel. *)
Definition replace_window (inx iny : nat → bool) (corrected acs0 : arr3 A) : arr3 A :=
  zip_with
    (λ dpl spl,
       imap (λ i drow,
               imap (λ j d,
                       if inx i && iny j
                       then default d (default [] (spl !! i) !! j)
                       else d)
                    drow)
            dpl)
    corrected acs0.

Lemma row_assign (y0 y1 : Z) (drow srow : list A) :
  length srow = length drow →
  slice_assign (λ _ v, Some v) y0 y1 drow (slice y0 y1 srow)
  = Some (imap (λ j d, if in_slice (length drow) y0 y1 j
                       then default d (srow !! j) else d) drow).
Proof.
  intros Hl. apply (slice_assign_imap _ (λ j d, default d (srow !! j))).
  - by rewrite length_slice, Hl.
  - intros k d b Hk Hd Hb. rewrite lookup_slice in Hb by by rewrite Hl.
    rewrite Hl in Hb. by rewrite Hb.
Qed.

Lemma plane_assign (x0 x1 y0 y1 : Z) m n (dpl spl : arr2 A) :
  has_shape2 m n dpl → has_shape2 m n spl →
  slice_assign (slice_assign (λ _ v, Some v) y0 y1) x0 x1 dpl
    (map (slice y0 y1) (slice x0 x1 spl))
  = Some (imap (λ i drow,
                  imap (λ j d, if in_slice m x0 x1 i && in_slice n y0 y1 j
                               then default d (default [] (spl !! i) !! j)
                               else d) drow) dpl).
Proof.
  intros [Hdl Hdr] [Hsl Hsr].
  rewrite (slice_assign_imap _
             (λ i drow, imap (λ j d, if in_slice n y0 y1 j
                                     then default d (default [] (spl !! i) !! j)
                                     else d) drow)).
  - f_equal. apply imap_ext. intros i drow Hi. cbn. rewrite Hdl.
    destruct (in_slice m x0 x1 i); cbn; [done|].
    symmetry. apply list_eq. intros j. rewrite list_lookup_imap.
    by destruct (drow !! j).
  - by rewrite length_map, length_slice, Hsl, Hdl.
  - intros k drow b Hk Hd Hb.
    rewrite lookup_map, lookup_slice in Hb by by rewrite Hsl, <- Hdl.
    rewrite Hsl, <- Hdl in Hb.
    destruct (spl !! (slice_bound (length dpl) x0 + k)%nat) as [srow|] eqn:Hsrow;
      [|done].
    cbn in Hb. injection Hb as <-. cbn.
    pose proof (proj1 (Forall_lookup _ _) Hdr _ _ Hd) as Hnd.
    pose proof (proj1 (Forall_lookup _ _) Hsr _ _ Hsrow) as Hns.
    cbn in Hnd, Hns.
    rewrite row_assign by congruence. by rewrite Hnd.
Qed.

(** X25: What the replacement of cells 28 and 49 writes: on rectangular arrays it
    returns the corrected k-space with the measured values in the half-open
    window [acsregionX[0], acsregionX[acsx-1]) x [acsregionY[0],
    acsregionY[acsy-1]), and the corrected values everywhere else. *)
Lemma acs_replacement_window (c m n : nat) (kspaceCorrected acs0 : arr3 A)
    (rest : arr4 A) (acsregionX acsregionY : list Z) (acsx acsy x0 x1 y0 y1 : Z) :
  has_shape3 c m n kspaceCorrected → has_shape3 c m n acs0 →
  getitem acsregionX 0 = Some x0 → getitem acsregionX (acsx - 1) = Some x1 →
  getitem acsregionY 0 = Some y0 → getitem acsregionY (acsy - 1) = Some y1 →
  kspaceCorrectedReplaced kspaceCorrected (acs0 :: rest) acsregionX acsregionY acsx acsy
  = Some (replace_window (in_slice m x0 x1) (in_slice n y0 y1) kspaceCorrected acs0).
Proof.
  intros [Hcl Hc] [Hal Ha] Hx0 Hx1 Hy0 Hy1.
  unfold kspaceCorrectedReplaced. rewrite Hx0, Hx1, Hy0, Hy1, getitem_0.
  cbn [mbind option_bind]. unfold full_assign. rewrite decide_True by (rewrite length_map; congruence).
  unfold replace_window. clear Hcl Hal.
  revert acs0 Ha. induction Hc as [|dpl ds Hdpl _ IH]; intros acs0 Ha.
  { by destruct acs0. }
  destruct Ha as [|spl ss Hspl Ha]; [done|].
  cbn [map zip zip_with mapM fst snd].
  rewrite (plane_assign x0 x1 y0 y1 m n) by done.
  cbn [mbind option_bind]. specialize (IH ss Ha).
  change (zip ds (map (λ ch, map (slice y0 y1) (slice x0 x1 ch)) ss))
    with (zip_with pair ds (map (λ ch, map (slice y0 y1) (slice x0 x1 ch)) ss)) in IH.
  rewrite IH. done.
Qed.

(** The readout row [acsregionX[acsx-1]] (and the column
    [acsregionY[acsy-1]]) is outside the window that is written. *)
Lemma acs_replacement_excludes_last (len : nat) (x0 x1 : Z) :
  0 ≤ x1 → in_slice len x0 x1 (Z.to_nat x1) = false.
Proof. apply in_slice_end. Qed.

End ReplaceFacts.

(** A 4 x 4 single-channel k-space, corrected values 0, measured ACS values 1,
    ACS rows and columns 1..2. *)
Definition corrected44 : arr3 Z := [replicate 4 (replicate 4 0)].
Definition acs44 : arr4 Z := [[replicate 4 (replicate 4 1)]].

(** C1 (code at the failing input): with [acsregionX = acsregionY = [1;2]] the
    replacement writes the single entry (1,1); the entries (1,2), (2,1) and
    (2,2) of the ACS window keep the corrected value. *)
Lemma acs_replacement_misses_last_index :
  kspaceCorrectedReplaced corrected44 acs44 [1; 2] [1; 2] 2 2
  = Some [[ [0; 0; 0; 0]; [0; 1; 0; 0]; [0; 0; 0; 0]; [0; 0; 0; 0] ]]
  ∧ in_acs_window [1; 2] [1; 2] 2 2 2 2 = true.
Proof. split; reflexivity. Qed.

End Acs.

(** ** Wave encoding: readout oversampling (cell 36) *)
Module Wave.
Import NumPy.

(** [resize] looks at [inpdims] to choose the pad widths; the array it is given
    has three or four axes. *)
Inductive ndarray (A : Type) : Type :=
| Nd3 (a : arr3 A)
| Nd4 (a : arr4 A).
Arguments Nd3 {A} a.
Arguments Nd4 {A} a.

(** What a Python call does: return a value, fall off the end of the function
    (return [None]), or raise. *)
Inductive outcome (X : Type) : Type :=
| Returns (x : X)
| ReturnsNone
| Raises.
Arguments Returns {X} x.
Arguments ReturnsNone {X}.
Arguments Raises {X}.

Section Resize.
Context {A : Type} (zero : A).

(** [np.pad(rows, ((p,p),(0,0)), mode='constant', constant_values=0)] on the
    readout x phase-encode planes: [p] zero rows before and after.  A negative
    pad width raises ValueError. *)
Definition pad_readout (p : Z) (rows : arr2 A) : option (arr2 A) :=
  if p <? 0 then None
  else
    let zrow := replicate (length (default [] (head rows))) zero in
    Some (replicate (Z.to_nat p) zrow ++ rows ++ replicate (Z.to_nat p) zrow).

(**
<<
    def resize(x,padreadout,inpdims):
        if(inpdims == 3):
            return xp.pad(x,((0,0),(padreadout,padreadout),(0,0)),mode = 'constant',constant_values = 0)
        elif(inpdims == 4):
            return xp.pad(x,((0,0),(0,0),(padreadout,padreadout),(0,0)),mode = 'constant',constant_values = 0)
>>
    [np.pad] raises when the number of pad widths is not the number of axes. *)
Definition resize (x : ndarray A) (padreadout : Z) (inpdims : Z) : outcome (ndarray A) :=
  if inpdims =? 3 then
    match x with
    | Nd3 a =>
        match mapM (pad_readout padreadout) a with
        | Some r => Returns (Nd3 r)
        | None => Raises
        end
    | Nd4 _ => Raises
    end
  else if inpdims =? 4 then
    match x with
    | Nd4 a =>
        match mapM (mapM (pad_readout padreadout)) a with
        | Some r => Returns (Nd4 r)
        | None => Raises
        end
    | Nd3 _ => Raises
    end
  else ReturnsNone.

(** [crop = lambda x: x[:,:,Nro//2 - M//2:Nro//2 + M//2,:]], with the globals
    [Nro] and [M] as parameters. *)
Definition crop (Nro M : Z) (x : arr4 A) : arr4 A :=
  map (map (slice (Nro / 2 - M / 2) (Nro / 2 + M / 2))) x.

(** [padreadout = (Nro - M)//2] *)
Definition padreadout (Nro M : Z) : Z := (Nro - M) / 2.

(** The readout axis (axis -2) of [x] has length [M]. *)
Definition readout_length (M : Z) (x : arr4 A) : Prop :=
  Forall (Forall (λ rows : arr2 A, Z.of_nat (length rows) = M)) x.

End Resize.

Section ResizeFacts.
Context {A : Type} (zero : A).

Lemma slice_bound_nonneg len i :
  0 ≤ i → slice_bound len i = Z.to_nat (Z.min i (Z.of_nat len)).
Proof.
  intros Hi. unfold slice_bound.
  destruct (Z.ltb_spec i 0); [lia | done].
Qed.

Lemma slice_padded (p : nat) (z : list A) (rows : arr2 A) :
  slice (Z.of_nat p) (Z.of_nat p + Z.of_nat (length rows))
        (replicate p z ++ rows ++ replicate p z) = rows.
Proof.
  unfold slice. rewrite !slice_bound_nonneg by lia.
  rewrite !length_app, !length_replicate.
  replace (Z.to_nat (Z.min (Z.of_nat p) _)) with p by lia.
  replace (Z.to_nat (Z.min (Z.of_nat p + Z.of_nat (length rows)) _) - p)%nat
    with (length rows) by lia.
  rewrite drop_app_length'; [|by rewrite length_replicate].
  by rewrite take_app_length.
Qed.

Lemma even_half_sub Nro M : Z.even M = true → (Nro - M) / 2 = Nro / 2 - M / 2.
Proof.
  intros [k ->]%Z.even_spec.
  replace (Nro - 2 * k) with (Nro + (- k) * 2) by lia.
  rewrite Z.div_add by lia.
  replace (2 * k) with (k * 2) by lia. rewrite Z.div_mul by lia. lia.
Qed.

Lemma crop_pad_readout Nro M (rows r : arr2 A) :
  Z.even M = true → M ≤ Nro → Z.of_nat (length rows) = M →
  pad_readout zero (padreadout Nro M) rows = Some r →
  slice (Nro / 2 - M / 2) (Nro / 2 + M / 2) r = rows.
Proof.
  intros Hev Hle Hlen. unfold pad_readout, padreadout.
  pose proof (even_half_sub Nro M Hev) as Hhalf.
  assert (Hk : M = 2 * (M / 2)).
  { apply Z.even_spec in Hev as [k ->]. f_equal.
    replace (2 * k) with (k * 2) by lia. by rewrite Z.div_mul by lia. }
  assert (0 ≤ (Nro - M) / 2) by (apply Z.div_pos; lia).
  destruct (Z.ltb_spec ((Nro - M) / 2) 0); [lia|].
  intros [= <-].
  set (p := Z.to_nat ((Nro - M) / 2)).
  replace (Nro / 2 - M / 2) with (Z.of_nat p) by lia.
  replace (Nro / 2 + M / 2) with (Z.of_nat p + Z.of_nat (length rows)) by lia.
  apply slice_padded.
Qed.

Lemma pad_readout_nonneg p (rows : arr2 A) :
  0 ≤ p → is_Some (pad_readout zero p rows).
Proof.
  intros Hp. unfold pad_readout. destruct (Z.ltb_spec p 0); [lia | eauto].
Qed.

(** C5 (amended): for an even native length [M] and every oversampled length
    [Nro >= M], [resize] with [padreadout = (Nro - M)//2] returns an array that
    [crop] maps back to [x]. *)
Theorem crop_resize_even_roundtrip Nro M (x : arr4 A) :
  Z.even M = true → M ≤ Nro → readout_length M x →
  ∃ y, resize zero (Nd4 x) (padreadout Nro M) 4 = Returns (Nd4 y) ∧ crop Nro M y = x.
Proof.
  intros Hev Hle Hx.
  assert (Hpad : 0 ≤ padreadout Nro M) by (apply Z.div_pos; lia).
  assert (Hsome : ∃ y, mapM (mapM (pad_readout zero (padreadout Nro M))) x = Some y
                       ∧ crop Nro M y = x).
  { induction Hx as [|xa x Hxa _ IH]; [by exists []|].
    destruct IH as (y & Hy & Hc).
    assert (∃ ya, mapM (pad_readout zero (padreadout Nro M)) xa = Some ya
                  ∧ map (slice (Nro / 2 - M / 2) (Nro / 2 + M / 2)) ya = xa)
      as (ya & Hya & Hca).
    { clear -Hxa Hev Hle Hpad.
      induction Hxa as [|rows xa Hrows _ IH]; [by exists []|].
      destruct IH as (ya & Hya & Hca).
      destruct (pad_readout_nonneg (padreadout Nro M) rows Hpad) as [r Hr].
      exists (r :: ya). split.
      - cbn. by rewrite Hr, Hya.
      - cbn. f_equal; [|done]. by eapply crop_pad_readout. }
    exists (ya :: y). split.
    - cbn. by rewrite Hya, Hy.
    - unfold crop in *. cbn. by rewrite Hca, Hc. }
  destruct Hsome as (y & Hy & Hc). exists y.
  unfold resize. change (4 =? 3) with false. change (4 =? 4) with true.
  cbv iota. by rewrite Hy.
Qed.

End ResizeFacts.

(** C5 (witness): native length 2, oversampled length 6. *)
Lemma crop_resize_even_roundtrip_witness :
  ∃ y, resize 0 (Nd4 [[ [[1; 2]; [3; 4]] ]]) (padreadout 6 2) 4 = Returns (Nd4 y)
       ∧ crop 6 2 y = [[ [[1; 2]; [3; 4]] ]].
Proof.
  apply (crop_resize_even_roundtrip 0 6 2 [[ [[1; 2]; [3; 4]] ]]).
  - reflexivity.
  - lia.
  - repeat constructor.
Defined.

(** C5 (counterexample): for the odd native length [M = 3] and [Nro = 9] the
    window [Nro//2 - M//2 : Nro//2 + M//2] has two entries, so the last readout
    row is lost. *)
Lemma crop_resize_odd_counterexample :
  resize 0 (Nd4 [[ [[1]; [2]; [3]] ]]) (padreadout 9 3) 4
    = Returns (Nd4 [[ [[0]; [0]; [0]; [1]; [2]; [3]; [0]; [0]; [0]] ]])
  ∧ crop 9 3 [[ [[0]; [0]; [0]; [1]; [2]; [3]; [0]; [0]; [0]] ]] = [[ [[1]; [2]] ]]
  ∧ crop 9 3 [[ [[0]; [0]; [0]; [1]; [2]; [3]; [0]; [0]; [0]] ]] ≠ [[ [[1]; [2]; [3]] ]].
Proof. split; [reflexivity|]. split; [reflexivity|]. discriminate. Qed.

End Wave.

(** ** Slice shifting (cell 10) *)
Module Shift.
Import NumPy.

(** A counted loop [for i in idx: s = body(i, s)] whose body may raise. *)
Fixpoint for_each {St} (body : nat → St → option St) (idx : list nat) (s : St)
    : option St :=
  match idx with
  | [] => Some s
  | i :: rest => s' ← body i s; for_each body rest s'
  end.

Section Performshift.
Context {A : Type} (zero : A).

(** [x[:,ss,:,:]] *)
Definition plane (ss : nat) (x : arr4 A) : option (arr3 A) :=
  mapM (λ xa, xa !! ss) x.

(** [out[:,ss,:,:] = v] *)
Definition set_plane (ss : nat) (out : arr4 A) (v : arr3 A) : option (arr4 A) :=
  full_assign
    (λ oa va, if decide (ss < length oa)%nat then Some (<[ss := va]> oa) else None)
    out v.

(** [np.zeros(x.shape, dtype=complex)] *)
Definition zeros_like (x : arr4 A) : arr4 A := map (map (map (map (λ _, zero)))) x.

(**
<<
    def performshift(x,shift,direction = 1):
        out = np.zeros(x.shape,dtype=complex)
        for ss in range(0,out.shape[-3]):
            out[:,ss,:,:] = np.roll(x[:,ss,:,:],direction*shift[ss])
        return out
>>
    [shift[ss]] raises IndexError when [shift] has no entry [ss].  [shift] is
    a numpy int64 array (cell 10 builds it with [astype(int)]) and [direction]
    a Python integer of the int64 range (1 or -1 in the notebook), so
    [direction*shift[ss]] is an int64 product, which wraps. *)
Definition performshift (x : arr4 A) (shift : list Z) (direction : Z)
    : option (arr4 A) :=
  let out := zeros_like x in
  let nslices := length (default [] (head out)) in
  for_each
    (λ ss out,
       s ← shift !! ss;
       xs ← plane ss x;
       set_plane ss out (roll3 (wrap64 (direction * s)) xs))
    (seq 0 nslices) out.

End Performshift.

Section PerformshiftFacts.
Context {A : Type} (zero : A).

(** Every [x[a]] has [s] slices. *)
Definition slices (s : nat) (x : arr4 A) : Prop := Forall (λ xa, length xa = s) x.

Lemma plane_is_Some ss s (x : arr4 A) :
  slices s x → (ss < s)%nat → ∃ p, plane ss x = Some p.
Proof.
  intros Hx Hss. apply mapM_is_Some.
  eapply Forall_impl; [exact Hx|]. cbn. intros xa Hxa.
  apply lookup_lt_is_Some. lia.
Qed.

Lemma plane_lookup ss (x : arr4 A) p a :
  plane ss x = Some p → p !! a = x !! a ≫= (.!! ss).
Proof.
  intros H%mapM_Some. revert a.
  induction H as [|xa pa x p Hpa _ IH]; intros [|a]; cbn; try done.
Qed.

Lemma length_plane ss (x : arr4 A) p : plane ss x = Some p → length p = length x.
Proof. intros H. by rewrite (length_mapM _ _ _ H). Qed.

Lemma set_plane_spec ss s (out : arr4 A) v :
  slices s out → (ss < s)%nat → length v = length out →
  ∃ out', set_plane ss out v = Some out'
          ∧ slices s out'
          ∧ length out' = length out
          ∧ plane ss out' = Some v
          ∧ ∀ ss', ss' ≠ ss → plane ss' out' = plane ss' out.
Proof.
  intros Hout Hss. unfold set_plane, full_assign. intros Hv.
  rewrite decide_True by done. revert v Hv.
  induction Hout as [|oa out Hoa Hout IH]; intros [|va v] Hv; try done.
  - exists []. cbn. repeat split; done || constructor.
  - cbn in Hv. destruct (IH v) as (out' & Hset & Hs & Hl & Hp & Hne); [lia|].
    exists (<[ss := va]> oa :: out'). cbn.
    rewrite decide_True by lia. cbn. rewrite Hset. cbn.
    split; [done|]. split; [|split; [|split]].
    + constructor; [by rewrite length_insert | done].
    + by rewrite Hl.
    + unfold plane in *. cbn. rewrite list_lookup_insert_eq by lia. cbn.
      by rewrite Hp.
    + intros ss' Hss'. unfold plane in *. cbn.
      rewrite list_lookup_insert_ne by done. by rewrite (Hne ss' Hss').
Qed.

(** Two arrays with the same planes along axis 1 are equal. *)
Lemma planes_ext s (x y : arr4 A) :
  slices s x → slices s y → length x = length y →
  (∀ ss, (ss < s)%nat → plane ss x = plane ss y) → x = y.
Proof.
  intros Hx Hy Hl Hp. apply list_eq_same_length with (length x); [done..|].
  intros a xa ya _ Hxa Hya.
  pose proof (proj1 (Forall_lookup _ _) Hx a xa Hxa) as Hlx.
  pose proof (proj1 (Forall_lookup _ _) Hy a ya Hya) as Hly.
  cbn in Hlx, Hly.
  apply list_eq_same_length with s; [done..|].
  intros ss u v Hss Hu Hv.
  destruct (plane_is_Some ss s x Hx Hss) as [p Hpx].
  pose proof Hpx as Hpy. rewrite (Hp ss Hss) in Hpy.
  pose proof (plane_lookup ss x p a Hpx) as H1.
  pose proof (plane_lookup ss y p a Hpy) as H2.
  rewrite Hxa in H1. rewrite Hya in H2. cbn in H1, H2. congruence.
Qed.

Lemma slices_zeros_like s (x : arr4 A) : slices s x → slices s (zeros_like zero x).
Proof.
  unfold slices, zeros_like. intros H. apply Forall_map.
  eapply Forall_impl; [exact H|]. cbn. intros xa. by rewrite length_map.
Qed.

(** The loop of [performshift] from slice [k] on: it sets the planes
    [k .. k+n-1] and leaves the planes below [k] as they are. *)
Lemma performshift_loop (x : arr4 A) shift d s n k (out : arr4 A) :
  slices s x → slices s out → length out = length x →
  (k + n ≤ s)%nat → (s ≤ length shift)%nat →
  ∃ out', for_each
            (λ ss out, sh ← shift !! ss; xs ← plane ss x;
                       set_plane ss out (roll3 (wrap64 (d * sh)) xs))
            (seq k n) out = Some out'
          ∧ slices s out' ∧ length out' = length x
          ∧ (∀ ss, (ss < k)%nat → plane ss out' = plane ss out)
          ∧ (∀ ss sh xs, (k ≤ ss < k + n)%nat → shift !! ss = Some sh →
               plane ss x = Some xs →
               plane ss out' = Some (roll3 (wrap64 (d * sh)) xs)).
Proof.
  intros Hx. revert k out. induction n as [|n IH]; intros k out Hout Hl Hk Hsh.
  - exists out. cbn. repeat split; try done. intros; lia.
  - cbn.
    destruct (lookup_lt_is_Some_2 shift k) as [sh Hshk]; [lia|].
    destruct (plane_is_Some k s x Hx) as [xs Hxs]; [lia|].
    rewrite Hshk, Hxs. cbn.
    destruct (set_plane_spec k s out (roll3 (wrap64 (d * sh)) xs) Hout)
      as (out1 & Hset & Hs1 & Hl1 & Hp1 & Hne1); [lia| |].
    { rewrite length_roll3, (length_plane _ _ _ Hxs). lia. }
    rewrite Hset. cbn.
    destruct (IH (S k) out1) as (out' & Hfor & Hs' & Hl' & Hlow & Hhigh);
      [done|lia|lia|done|].
    exists out'. split; [done|]. split; [done|]. split; [done|]. split.
    + intros ss Hss. rewrite Hlow by lia. apply Hne1. lia.
    + intros ss sh' xs' Hss Hsh' Hxs'.
      destruct (decide (ss = k)) as [->|Hne].
      * rewrite Hlow by lia. congruence.
      * apply Hhigh; [lia|done..].
Qed.

Lemma performshift_spec (x : arr4 A) shift d s :
  slices s x → (x = [] → s = 0%nat) → (s ≤ length shift)%nat →
  ∃ y, performshift zero x shift d = Some y
       ∧ slices s y ∧ length y = length x
       ∧ ∀ ss sh xs, (ss < s)%nat → shift !! ss = Some sh →
           plane ss x = Some xs → plane ss y = Some (roll3 (wrap64 (d * sh)) xs).
Proof.
  intros Hx Hnil Hsh. unfold performshift.
  assert (Hn : length (default [] (head (zeros_like zero x))) = s).
  { destruct Hx as [|xa x Hxa _]; cbn; [by rewrite Hnil|].
    by rewrite length_map. }
  rewrite Hn.
  destruct (performshift_loop x shift d s s 0 (zeros_like zero x))
    as (y & Hy & Hs & Hl & _ & Hp);
    [done|by apply slices_zeros_like|by unfold zeros_like; rewrite length_map
    |lia|done|].
  exists y. split; [done|]. split; [done|]. split; [done|].
  intros ss sh xs Hss. apply Hp. lia.
Qed.

(** C6 (amended): shifting every slice by [+shift[ss]] and then by
    [-shift[ss]] gives the array back, for a rectangular [x] and one int64
    shift per slice, none of them [-2^63] (whose negation is not an int64). *)
Theorem performshift_unshift (x : arr4 A) (shift : list Z) a s m n :
  has_shape4 a s m n x → length shift = s →
  Forall (λ sh, - 2 ^ 63 < sh < 2 ^ 63) shift →
  ∃ y, performshift zero x shift 1 = Some y
       ∧ performshift zero y shift (-1) = Some x.
Proof.
  intros [Ha Hx] Hshift Hrange.
  destruct (decide (x = [])) as [->|Hne]; [by exists []|].
  assert (Hnil : a = 0%nat → s = 0%nat).
  { intros ->. by destruct x. }
  assert (Hsl : slices s x).
  { eapply Forall_impl; [exact Hx|]. by intros xa [? _]. }
  destruct (performshift_spec x shift 1 s) as (y & Hy & Hsy & Hly & Hpy);
    [done| |lia|].
  { intros ->. cbn in Ha. apply Hnil. lia. }
  exists y. split; [done|].
  destruct (performshift_spec y shift (-1) s) as (z & Hz & Hsz & Hlz & Hpz);
    [done| |lia|].
  { intros ->. cbn in Hly. apply Hnil. lia. }
  rewrite Hz. f_equal.
  apply (planes_ext s); [done|done|congruence|].
  intros ss Hss.
  destruct (lookup_lt_is_Some_2 shift ss) as [sh Hsh]; [lia|].
  destruct (plane_is_Some ss s x Hsl Hss) as [xs Hxs].
  rewrite (Hpz ss sh (roll3 (wrap64 (1 * sh)) xs) Hss Hsh (Hpy ss sh xs Hss Hsh Hxs)).
  rewrite Hxs. f_equal.
  pose proof (proj1 (Forall_lookup _ _) Hrange ss sh Hsh) as Hr. cbn in Hr.
  rewrite !wrap64_id by (unfold int64; lia).
  replace (-1 * sh) with (- (1 * sh)) by lia. apply roll3_opp_roll3.
Qed.

End PerformshiftFacts.

(** C6 (witness): two slices of 2 x 2 entries, shifted by 1 and by -3. *)
Lemma performshift_unshift_witness :
  ∃ y, performshift 0 [[ [[1; 2]; [3; 4]]; [[5; 6]; [7; 8]] ]] [1; -3] 1 = Some y
       ∧ performshift 0 y [1; -3] (-1)
         = Some [[ [[1; 2]; [3; 4]]; [[5; 6]; [7; 8]] ]].
Proof.
  apply (performshift_unshift 0 [[ [[1; 2]; [3; 4]]; [[5; 6]; [7; 8]] ]]
           [1; -3] 1 2 2 2).
  - repeat (split || constructor).
  - reflexivity.
  - repeat constructor; lia.
Defined.

(** C6 (counterexample): one slice of three entries and the int64 shift
    [-2^63].  The product [-1 * shift[0]] wraps to [-2^63] again, so both calls
    roll by [-2^63], which is 1 modulo 3, and the round trip returns
    [2; 3; 1]. *)
Lemma performshift_unshift_int64_min_counterexample :
  performshift 0 [[ [[1; 2; 3]] ]] [- 2 ^ 63] 1 = Some [[ [[3; 1; 2]] ]]
  ∧ performshift 0 [[ [[3; 1; 2]] ]] [- 2 ^ 63] (-1) = Some [[ [[2; 3; 1]] ]]
  ∧ performshift 0 [[ [[3; 1; 2]] ]] [- 2 ^ 63] (-1) ≠ Some [[ [[1; 2; 3]] ]].
Proof. split; [reflexivity|]. split; [reflexivity|]. discriminate. Qed.

Example performshift_example :
  performshift 0 [[ [[1; 2]; [3; 4]]; [[5; 6]; [7; 8]] ]] [1; -3] 1
  = Some [[ [[4; 1]; [2; 3]]; [[8; 5]; [6; 7]] ]].
Proof. reflexivity. Qed.

End Shift.

(** ** Complex numbers in exact arithmetic *)
Module Cplx.

Record C : Type := mkC { re : Qc; im : Qc }.

Definition czero : C := mkC 0%Qc 0%Qc.
Definition cone : C := mkC 1%Qc 0%Qc.
Definition ci : C := mkC 0%Qc 1%Qc.
Definition of_real (r : Qc) : C := mkC r 0%Qc.
Definition cadd (a b : C) : C := mkC (re a + re b)%Qc (im a + im b)%Qc.
Definition copp (a : C) : C := mkC (- re a)%Qc (- im a)%Qc.
Definition csub (a b : C) : C := mkC (re a - re b)%Qc (im a - im b)%Qc.
Definition cmul (a b : C) : C :=
  mkC (re a * re b - im a * im b)%Qc (re a * im b + im a * re b)%Qc.
Definition conj (a : C) : C := mkC (re a) (- im a)%Qc.
(** The inverse, with [1/0 = 0] as in [Qc]: only used away from zero. *)
Definition cinv (a : C) : C :=
  let d := (re a * re a + im a * im a)%Qc in
  mkC (re a / d)%Qc (- im a / d)%Qc.
Definition cdiv (a b : C) : C := cmul a (cinv b).
Definition is_zero (a : C) : bool :=
  bool_decide (re a = 0%Qc) && bool_decide (im a = 0%Qc).

(** Sum of the entries of a list. *)
Fixpoint csum (l : list C) : C :=
  match l with
  | [] => czero
  | a :: l' => cadd a (csum l')
  end.

Fixpoint cpow (a : C) (n : nat) : C :=
  match n with
  | O => cone
  | S n' => cmul a (cpow a n')
  end.

Declare Scope C_scope.
Delimit Scope C_scope with C.
Bind Scope C_scope with C.
Infix "+" := cadd : C_scope.
Infix "-" := csub : C_scope.
Infix "*" := cmul : C_scope.
Notation "- x" := (copp x) : C_scope.

Lemma C_ext (a b : C) : re a = re b → im a = im b → a = b.
Proof. destruct a, b. cbn. by intros -> ->. Qed.

(** Two closed complex numbers differ when their components differ as
    fractions. *)
Lemma C_neq_closed (a b : C) :
  Qeq_bool (re a) (re b) && Qeq_bool (im a) (im b) = false → a ≠ b.
Proof.
  intros H ->. rewrite !Qeq_bool_refl in H. done.
Qed.

Ltac csimp := apply C_ext; cbn [re im cadd copp csub cmul conj czero cone of_real ci]; ring.

Lemma C_ring_theory : ring_theory czero cone cadd cmul csub copp (@eq C).
Proof.
  constructor; intros; try solve [csimp].
Qed.

Add Ring C_ring : C_ring_theory.

Lemma conj_add a b : conj (a + b)%C = (conj a + conj b)%C.
Proof. csimp. Qed.
Lemma conj_mul a b : conj (a * b)%C = (conj a * conj b)%C.
Proof. csimp. Qed.
Lemma conj_conj a : conj (conj a) = a.
Proof. csimp. Qed.
Lemma conj_of_real r : conj (of_real r) = of_real r.
Proof. csimp. Qed.
Lemma conj_zero : conj czero = czero.
Proof. csimp. Qed.

Lemma of_real_cancel r a b : r ≠ 0%Qc → (of_real r * a)%C = (of_real r * b)%C → a = b.
Proof.
  intros Hr H.
  assert (Hre : (r * re a = r * re b)%Qc).
  { apply (f_equal re) in H. cbn in H. ring_simplify in H. done. }
  assert (Him : (r * im a = r * im b)%Qc).
  { apply (f_equal im) in H. cbn in H. ring_simplify in H. done. }
  assert (Hcancel : ∀ u v : Qc, (r * u = r * v)%Qc → u = v).
  { intros u v Huv.
    assert (H0 : (r * (u - v) = 0)%Qc).
    { replace (r * (u - v))%Qc with (r * u - r * v)%Qc by ring.
      rewrite Huv. ring. }
    destruct (Qcmult_integral _ _ H0) as [?|Hd]; [done|].
    replace u with (u - v + v)%Qc by ring. rewrite Hd. ring. }
  apply C_ext; by apply Hcancel.
Qed.

End Cplx.

(** ** SENSE operators (cells 14 and 16) *)
Module Sense.
Import NumPy Cplx.

(** The [mask] argument is an array over (channel, readout, phase-encode), or
    the scalar [1] of cell 20.  Its entries are real. *)
Inductive maskarg : Type :=
| MaskScalar (s : Qc)
| MaskArray (m : arr3 Qc).

(** Elementwise operations on images (readout x phase-encode). *)
Definition mul2 (a b : arr2 C) : arr2 C := zip_with (zip_with cmul) a b.
Definition add2 (a b : arr2 C) : arr2 C := zip_with (zip_with cadd) a b.
Definition conj2 (a : arr2 C) : arr2 C := map (map conj) a.
Definition scale2 (m : arr2 Qc) (a : arr2 C) : arr2 C :=
  zip_with (zip_with (λ r z, cmul (of_real r) z)) m a.
Definition smul2 (s : Qc) (a : arr2 C) : arr2 C := map (map (cmul (of_real s))) a.

(** [mask * k] for k-space [k] over (channel, readout, phase-encode). *)
Definition mask_mul (mask : maskarg) (k : arr3 C) : arr3 C :=
  match mask with
  | MaskScalar s => map (smul2 s) k
  | MaskArray m => zip_with scale2 m k
  end.

(** [xp.sum(k, -3)]: the sum over the channel axis. *)
Fixpoint sum_axis0 (k : arr3 C) : arr2 C :=
  match k with
  | [] => []
  | [p] => p
  | p :: ps => add2 p (sum_axis0 ps)
  end.

(** Inner products [<a, b> = sum conj(a) * b] of vectors, images and k-spaces. *)
Definition isum {X Y} (f : X → Y → C) (a : list X) (b : list Y) : C :=
  csum (zip_with f a b).
Definition inner1 : list C → list C → C := isum (λ u v, cmul (conj u) v).
Definition inner2 : arr2 C → arr2 C → C := isum inner1.
Definition inner3 : arr3 C → arr3 C → C := isum inner2.

Section Operators.
(** [sig.fft2c] and [sig.ifft2c] (utils/signalprocessing.py) act on the last two
    axes; they are parameters of the operators. *)
Variables fft2c ifft2c : arr2 C → arr2 C.

(**
<<
    def senseForward(x,maps,mask):
        return mask * (sig.fft2c(maps*x))
>>
    [maps*x] broadcasts the image [x] over the channels of [maps]. *)
Definition senseForward (x : arr2 C) (maps : arr3 C) (mask : maskarg) : arr3 C :=
  mask_mul mask (map fft2c (map (λ s, mul2 s x) maps)).

(**
<<
    def senseAdjoint(x,maps,mask):
        xp = cp.get_array_module(x)
        return xp.sum(xp.conj(maps)*(sig.ifft2c(x)),-3)
>>
*)
Definition senseAdjoint (x : arr3 C) (maps : arr3 C) (mask : maskarg) : arr2 C :=
  sum_axis0 (zip_with mul2 (map conj2 maps) (map ifft2c x)).

(** The operator inside [normal] of cell 16, on images:
    [senseAdjoint(senseForward(x,coils,mask),coils,mask)]. *)
Definition normal_image (coils : arr3 C) (mask : maskarg) (x : arr2 C) : arr2 C :=
  senseAdjoint (senseForward x coils mask) coils mask.

(** [x.reshape(rows, cols)], which raises ValueError on another size. *)
Definition reshape2 (rows cols : nat) (x : list C) : option (arr2 C) :=
  if decide (length x = (rows * cols)%nat)
  then Some (unflatten (replicate rows (replicate cols ())) x)
  else None.

(**
<<
    normal = lambda x: senseAdjoint(senseForward(x.reshape(M*numslices,N),coils,mask),\
                                    coils,mask).ravel()
>>
*)
Definition normal (rows cols : nat) (coils : arr3 C) (mask : maskarg) (x : list C)
    : option (list C) :=
  img ← reshape2 rows cols x;
  Some (concat (normal_image coils mask img)).

End Operators.

(** A mask with entries 0 and 1 only. *)
Definition mask01 (mask : maskarg) : Prop :=
  match mask with
  | MaskScalar s => s = 0%Qc ∨ s = 1%Qc
  | MaskArray m => Forall (Forall (Forall (λ r, r = 0%Qc ∨ r = 1%Qc))) m
  end.

(** The mask fits a k-space of [c] channels of [m] x [n] samples. *)
Definition mask_shape (c m n : nat) (mask : maskarg) : Prop :=
  match mask with
  | MaskScalar _ => True
  | MaskArray a => has_shape3 c m n a
  end.

(** Modelled from the spec: [sig.fft2c], the centered 2-D discrete Fourier
    transform of utils/signalprocessing.py, which is not part of the sources.
    For roots of unity [w1] (of order the number of rows) and [w2] (of order
    the number of columns) and a scale [c],
    [F[k1][k2] = c * sum a[n1][n2] * w1^((k1-h1)(n1-h1)) * w2^((k2-h2)(n2-h2))]
    with [h = N//2] the centre of each axis, which is
    fftshift(fft2(ifftshift(a))) up to the scale. *)
Definition centered_exponent (len k n : nat) : nat :=
  Z.to_nat (((Z.of_nat k - Z.of_nat (len / 2)) * (Z.of_nat n - Z.of_nat (len / 2)))
            `mod` Z.of_nat len).

Definition dft2c (w1 w2 c : C) (a : arr2 C) : arr2 C :=
  let rows := length a in
  let cols := length (default [] (head a)) in
  map (λ k1,
    map (λ k2,
      cmul c (csum (imap (λ n1 row,
        csum (imap (λ n2 z,
          cmul z (cmul (cpow w1 (centered_exponent rows k1 n1))
                       (cpow w2 (centered_exponent cols k2 n2)))) row)) a)))
      (seq 0 cols))
    (seq 0 rows).

Add Ring C_ring_sense : C_ring_theory.

Section InnerFacts.

Ltac lsimp := cbn [csum app map zip_with].

Lemma csum_app l k : csum (l ++ k) = (csum l + csum k)%C.
Proof. induction l as [|a l IH]; lsimp; [ring | rewrite IH; ring]. Qed.

Lemma conj_csum l : conj (csum l) = csum (map conj l).
Proof. induction l as [|a l IH]; lsimp; [csimp | by rewrite conj_add, IH]. Qed.

Lemma csum_scale r l : (of_real r * csum l)%C = csum (map (cmul (of_real r)) l).
Proof. induction l as [|a l IH]; lsimp; [ring | rewrite <- IH; ring]. Qed.

Context {X Y : Type}.

Lemma isum_nil_r (f : X → Y → C) a : isum f a [] = czero.
Proof. unfold isum. by destruct a. Qed.

(** Moving an elementwise factor from one side of a sum of products to the
    other. *)
Lemma isum_swap {S W Y'} (f : W → Y → C) (f' : X → Y' → C)
    (g : S → X → W) (g' : S → Y → Y') s a b :
  (∀ u x y, f (g u x) y = f' x (g' u y)) →
  isum f (zip_with g s a) b = isum f' a (zip_with g' s b).
Proof.
  intros H. unfold isum. revert a b.
  induction s as [|u s IH]; intros [|x a] [|y b]; lsimp; try done.
  by rewrite H, IH.
Qed.

Lemma isum_map_swap {W Y'} (f : W → Y → C) (f' : X → Y' → C)
    (g : X → W) (g' : Y → Y') a b :
  (∀ x y, f (g x) y = f' x (g' y)) →
  isum f (map g a) b = isum f' a (map g' b).
Proof.
  intros H. unfold isum. revert b.
  induction a as [|x a IH]; intros [|y b]; lsimp; try done.
  by rewrite H, IH.
Qed.

Lemma isum_conj (f : X → Y → C) (g : Y → X → C) a b :
  (∀ x y, conj (f x y) = g y x) → conj (isum f a b) = isum g b a.
Proof.
  intros H. unfold isum. revert b.
  induction a as [|x a IH]; intros [|y b]; lsimp; try apply conj_zero.
  by rewrite conj_add, H, IH.
Qed.

Lemma isum_add_r {Z'} (R : Z' → Z' → Prop) (f : X → Z' → C)
    (h : Z' → Z' → Z') y a b :
  (∀ x u v, R u v → f x (h u v) = (f x u + f x v)%C) →
  Forall2 R a b →
  isum f y (zip_with h a b) = (isum f y a + isum f y b)%C.
Proof.
  intros H Hab. unfold isum. revert y.
  induction Hab as [|u v a b Huv _ IH]; intros [|x y]; lsimp; try ring.
  rewrite H, IH by done. ring.
Qed.

End InnerFacts.

Section ShapeFacts.
Context {X : Type}.

Lemma has_shape2_zip_with {Y W} (f : X → Y → W) m n (a : arr2 X) (b : arr2 Y) :
  has_shape2 m n a → has_shape2 m n b →
  has_shape2 m n (zip_with (zip_with f) a b).
Proof.
  intros [Ha Hra] [Hb Hrb]. split.
  - rewrite length_zip_with. lia.
  - clear Ha Hb. revert b Hrb.
    induction Hra as [|r a Hr _ IH]; intros b Hrb; [constructor|].
    destruct Hrb as [|r' b Hr' Hrb]; [constructor|].
    cbn. constructor; [|by apply IH].
    rewrite length_zip_with. lia.
Qed.

Lemma has_shape2_map {Y} (f : X → Y) m n (a : arr2 X) :
  has_shape2 m n a → has_shape2 m n (map (map f) a).
Proof.
  intros [Ha Hra]. split; [by rewrite length_map|].
  apply Forall_map. eapply Forall_impl; [exact Hra|].
  cbn. intros r. by rewrite length_map.
Qed.

Lemma has_shape2_Forall2 m n (a b : arr2 X) :
  has_shape2 m n a → has_shape2 m n b →
  Forall2 (λ r r', length r = length r') a b.
Proof.
  intros [Ha Hra] [Hb Hrb].
  apply Forall2_same_length_lookup_2; [congruence|].
  intros i r r' Hr Hr'.
  rewrite (proj1 (Forall_lookup _ _) Hra i r Hr).
  by rewrite (proj1 (Forall_lookup _ _) Hrb i r' Hr').
Qed.

End ShapeFacts.

Section AdjointFacts.

Lemma conj_inner1 a b : conj (inner1 a b) = inner1 b a.
Proof. apply isum_conj. intros x y. csimp. Qed.

Lemma conj_inner2 a b : conj (inner2 a b) = inner2 b a.
Proof. apply isum_conj. intros x y. apply conj_inner1. Qed.

(** Coil weighting: [<conj(s) * w, y> = <w, s * y>]. *)
Lemma inner2_coil s w y : inner2 (mul2 (conj2 s) w) y = inner2 w (mul2 s y).
Proof.
  unfold inner2, mul2, conj2.
  rewrite zip_with_fmap_l.
  apply (isum_swap inner1 inner1 (λ u x, zip_with cmul (map conj u) x)
           (zip_with cmul)).
  intros u x y'. unfold inner1. rewrite zip_with_fmap_l.
  apply (isum_swap _ _ (λ c z, cmul (conj c) z) cmul).
  intros c z z'. csimp.
Qed.

(** A real mask moves across the inner product. *)
Lemma inner2_scale2 mk a b : inner2 (scale2 mk a) b = inner2 a (scale2 mk b).
Proof.
  unfold inner2, scale2. apply isum_swap.
  intros u x y. unfold inner1. apply isum_swap. intros c z z'. csimp.
Qed.

Lemma inner2_smul2 r a b : inner2 (smul2 r a) b = inner2 a (smul2 r b).
Proof.
  unfold inner2, smul2. apply isum_map_swap.
  intros x y. unfold inner1. apply isum_map_swap. intros z z'. csimp.
Qed.

Lemma inner2_add2_r m n y a b :
  has_shape2 m n a → has_shape2 m n b →
  inner2 y (add2 a b) = (inner2 y a + inner2 y b)%C.
Proof.
  intros Ha Hb. unfold inner2, add2.
  apply (isum_add_r (λ r r', length r = length r')).
  - intros x u v Huv. unfold inner1.
    apply (isum_add_r (λ _ _, True)).
    + intros. csimp.
    + by apply Forall2_true.
  - by eapply has_shape2_Forall2.
Qed.

Lemma has_shape2_sum_axis0 m n ws :
  ws ≠ [] → Forall (has_shape2 m n) ws → has_shape2 m n (sum_axis0 ws).
Proof.
  intros Hne H. induction H as [|w ws Hw Hws IH]; [done|].
  destruct ws as [|w' ws]; [done|].
  change (has_shape2 m n (add2 w (sum_axis0 (w' :: ws)))).
  apply has_shape2_zip_with; [done|]. by apply IH.
Qed.

Lemma inner2_sum_axis0_r m n y ws :
  Forall (has_shape2 m n) ws →
  inner2 y (sum_axis0 ws) = csum (map (inner2 y) ws).
Proof.
  induction 1 as [|w ws Hw Hws IH].
  - apply isum_nil_r.
  - destruct ws as [|w' ws]; [cbn [sum_axis0 map csum]; ring|].
    change (inner2 y (add2 w (sum_axis0 (w' :: ws)))
            = (inner2 y w + csum (map (inner2 y) (w' :: ws)))%C).
    rewrite (inner2_add2_r m n), IH; [done|done|].
    by apply has_shape2_sum_axis0.
Qed.

Lemma inner2_sum_axis0_l m n y ws :
  Forall (has_shape2 m n) ws →
  inner2 (sum_axis0 ws) y = csum (map (λ w, inner2 w y) ws).
Proof.
  intros H. rewrite <- conj_inner2, (inner2_sum_axis0_r m n) by done.
  rewrite conj_csum, map_map. f_equal. apply map_ext. intros w.
  apply conj_inner2.
Qed.

End AdjointFacts.

Section NormalFacts.
Variables fft2c ifft2c : arr2 C → arr2 C.
Variables (m n : nat) (kappa : Qc).

(** What the theorems below ask of the Fourier pair on [m] x [n] images: both
    keep the shape, and [ifft2c] is the adjoint of [fft2c] up to the real
    constant [kappa] fixed by the normalisation ([kappa = 1] for the
    orthonormal convention, [kappa = m * n] for numpy's default). *)
Definition fourier_pair : Prop :=
  (∀ a, has_shape2 m n a → has_shape2 m n (fft2c a)) ∧
  (∀ a, has_shape2 m n a → has_shape2 m n (ifft2c a)) ∧
  (∀ a b, has_shape2 m n a → has_shape2 m n b →
     inner2 (fft2c a) b = (of_real kappa * inner2 a (ifft2c b))%C) ∧
  kappa ≠ 0%Qc.

(** One channel of the normal operator: weight by the coil map, transform,
    apply the mask [mu], transform back, weight by the conjugate map. *)
Definition chan_term (ch : (arr2 C → arr2 C) * arr2 C) (x : arr2 C) : arr2 C :=
  mul2 (conj2 ch.2) (ifft2c (ch.1 (fft2c (mul2 ch.2 x)))).

(** The per-channel mask actions and coil maps [mask] and [coils] stand for. *)
Definition channels (mask : maskarg) (coils : arr3 C)
    : list ((arr2 C → arr2 C) * arr2 C) :=
  match mask with
  | MaskScalar s => map (λ c, (smul2 s, c)) coils
  | MaskArray mk => zip_with (λ mc c, (scale2 mc, c)) mk coils
  end.

Definition good_channel (ch : (arr2 C → arr2 C) * arr2 C) : Prop :=
  has_shape2 m n ch.2 ∧
  (∀ a, has_shape2 m n a → has_shape2 m n (ch.1 a)) ∧
  (∀ a b, inner2 (ch.1 a) b = inner2 a (ch.1 b)).

Lemma normal_image_channels coils mask x :
  normal_image fft2c ifft2c coils mask x
  = sum_axis0 (map (λ ch, chan_term ch x) (channels mask coils)).
Proof.
  unfold normal_image, senseAdjoint, senseForward, chan_term. f_equal.
  destruct mask as [s|mk]; cbn [mask_mul channels].
  - by rewrite !map_map, zip_with_fmap_l, zip_with_fmap_r, zip_with_diag.
  - rewrite !map_map, zip_with_fmap_l, zip_with_fmap_r.
    revert mk. induction coils as [|c coils IH]; intros [|mc mk]; cbn; try done.
    by rewrite IH.
Qed.

Lemma good_channels c coils mask :
  has_shape3 c m n coils → mask_shape c m n mask →
  Forall good_channel (channels mask coils).
Proof.
  intros [_ Hcoils] Hmask. destruct mask as [s|mk]; cbn [channels].
  - apply Forall_map. eapply Forall_impl; [exact Hcoils|].
    intros ch Hch. split; [done|]. split.
    + intros a Ha. by apply has_shape2_map.
    + apply inner2_smul2.
  - destruct Hmask as [_ Hmk]. revert mk Hmk.
    induction Hcoils as [|ch coils Hch _ IH]; intros mk Hmk.
    { by rewrite zip_with_nil_r. }
    destruct Hmk as [|mc mk Hmc Hmk]; [constructor|].
    cbn. constructor; [|by apply IH].
    split; [done|]. split.
    + intros a Ha. by apply has_shape2_zip_with.
    + apply inner2_scale2.
Qed.

Lemma has_shape2_chan_term ch x :
  fourier_pair → good_channel ch → has_shape2 m n x →
  has_shape2 m n (chan_term ch x).
Proof.
  intros (HF & HFi & _ & _) (Hs & Hmu & _) Hx. unfold chan_term.
  apply has_shape2_zip_with; [by apply has_shape2_map|].
  apply HFi, Hmu, HF. by apply has_shape2_zip_with.
Qed.

(** Each channel of the normal operator is self-adjoint. *)
Lemma chan_term_self_adjoint ch x y :
  fourier_pair → good_channel ch → has_shape2 m n x → has_shape2 m n y →
  inner2 (chan_term ch x) y = inner2 x (chan_term ch y).
Proof.
  intros (HF & HFi & Hadj & Hk) (Hs & Hmu & Hmua) Hx Hy.
  destruct ch as [mu s]. unfold chan_term. cbn [fst snd] in *.
  set (u := mul2 s x). set (v := mul2 s y).
  assert (Hu : has_shape2 m n u) by by apply has_shape2_zip_with.
  assert (Hv : has_shape2 m n v) by by apply has_shape2_zip_with.
  apply (of_real_cancel kappa); [done|].
  (* left: kappa <Fi (mu (F u)), v> = <mu (F u), F v> *)
  rewrite inner2_coil. fold v.
  rewrite <- (conj_inner2 v), <- (conj_of_real kappa), <- conj_mul.
  rewrite <- Hadj by auto. rewrite conj_inner2.
  (* right: kappa <u, Fi (mu (F v))> = <F u, mu (F v)> *)
  rewrite <- (conj_inner2 _ x), inner2_coil, conj_inner2. fold u.
  rewrite <- Hadj by auto.
  apply Hmua.
Qed.

(** The normal operator is self-adjoint for every real mask. *)
Lemma normal_image_self_adjoint_real_mask c coils mask x y :
  fourier_pair → has_shape3 c m n coils → mask_shape c m n mask →
  has_shape2 m n x → has_shape2 m n y →
  inner2 (normal_image fft2c ifft2c coils mask x) y
  = inner2 x (normal_image fft2c ifft2c coils mask y).
Proof.
  intros HF Hcoils Hmask Hx Hy.
  rewrite !normal_image_channels.
  pose proof (good_channels c coils mask Hcoils Hmask) as Hgood.
  rewrite (inner2_sum_axis0_l m n), (inner2_sum_axis0_r m n).
  - rewrite !map_map. f_equal. apply Forall_fmap_ext_1.
    eapply Forall_impl; [exact Hgood|]. cbn. intros ch Hch.
    by apply chan_term_self_adjoint.
  - apply Forall_map. eapply Forall_impl; [exact Hgood|]. cbn.
    intros ch Hch. by apply has_shape2_chan_term.
  - apply Forall_map. eapply Forall_impl; [exact Hgood|]. cbn.
    intros ch Hch. by apply has_shape2_chan_term.
Qed.

End NormalFacts.

Section AdjointOnSupport.
Variables fft2c ifft2c : arr2 C → arr2 C.
Variables (m n : nat) (kappa : Qc).

Lemma inner2_coil_l s x w : inner2 (mul2 s x) w = inner2 x (mul2 (conj2 s) w).
Proof. by rewrite <- (conj_inner2 w), <- inner2_coil, conj_inner2. Qed.

Lemma inner3_mask_mul mask k y :
  inner3 (mask_mul mask k) y = inner3 k (mask_mul mask y).
Proof.
  destruct mask as [s|mk]; cbn [mask_mul]; unfold inner3.
  - apply isum_map_swap. intros a b. apply inner2_smul2.
  - apply isum_swap. intros u a b. apply inner2_scale2.
Qed.


End AdjointOnSupport.

(** C8: [senseAdjoint] never reads its [mask] argument, so two calls that differ
    in the mask alone return the same image. *)
Theorem senseAdjoint_ignores_mask (ifft2c : arr2 C → arr2 C) (x maps : arr3 C)
    (m1 m2 : maskarg) :
  senseAdjoint ifft2c x maps m1 = senseAdjoint ifft2c x maps m2.
Proof. reflexivity. Qed.


Section NormalFlat.
Variables fft2c ifft2c : arr2 C → arr2 C.

Lemma inner1_app a a' b b' :
  length a = length b → inner1 (a ++ a') (b ++ b') = (inner1 a b + inner1 a' b')%C.
Proof.
  intros Hl. unfold inner1, isum. by rewrite zip_with_app, csum_app.
Qed.

Lemma inner1_concat m n (a b : arr2 C) :
  has_shape2 m n a → has_shape2 m n b → inner1 (concat a) (concat b) = inner2 a b.
Proof.
  intros Ha Hb. pose proof (has_shape2_Forall2 m n a b Ha Hb) as H.
  clear Ha Hb. induction H as [|r r' a b Hr _ IH]; [done|].
  cbn [concat]. rewrite inner1_app by done. by rewrite IH.
Qed.

Lemma reshape2_Some rows cols (x : list C) :
  length x = (rows * cols)%nat →
  ∃ img, reshape2 rows cols x = Some img ∧ has_shape2 rows cols img ∧ concat img = x.
Proof.
  intros Hl. unfold reshape2. rewrite decide_True by done.
  set (tmpl := replicate rows (replicate cols ())).
  assert (Hc : length (concat tmpl) = (rows * cols)%nat).
  { unfold tmpl. clear. induction rows as [|k IH]; cbn; [done|].
    by rewrite length_app, IH, length_replicate. }
  assert (Hm : map length (unflatten tmpl x) = replicate rows cols).
  { rewrite map_length_unflatten by congruence.
    unfold tmpl. clear. induction rows as [|k IH]; cbn; [done|].
    by rewrite IH, length_replicate. }
  eexists. split; [done|]. split; [split|].
  - by rewrite <- (length_map length), Hm, length_replicate.
  - apply Forall_lookup. intros i r Hr.
    assert (Hi : map length (unflatten tmpl x) !! i = Some (length r))
      by by rewrite lookup_map, Hr.
    rewrite Hm in Hi. by apply lookup_replicate in Hi as [-> _].
  - apply concat_unflatten. congruence.
Qed.


End NormalFlat.

(** The centered orthonormal transform of 2 x 2 images: both roots of unity are
    [-1] and the scale is [1/2]; it is its own inverse. *)
Definition half : C := of_real (/ (1 + 1))%Qc.
Definition fft2c_2x2 : arr2 C → arr2 C := dft2c (copp cone) (copp cone) half.

Lemma has_shape2_2x2 {X} (a : arr2 X) :
  has_shape2 2 2 a → ∃ a00 a01 a10 a11, a = [[a00; a01]; [a10; a11]].
Proof.
  intros [Hl Hr].
  destruct a as [|[|a00 [|a01 [|? ?]]] [|[|a10 [|a11 [|? ?]]] [|? ?]]];
    try done;
    repeat match goal with
           | H : Forall _ (_ :: _) |- _ => apply Forall_cons in H as [? H]
           end; try done.
  by exists a00, a01, a10, a11.
Qed.

Lemma fft2c_2x2_eq a00 a01 a10 a11 :
  fft2c_2x2 [[a00; a01]; [a10; a11]]
  = [[ (half * (a00 - a01 - a10 + a11))%C; (half * (a10 + a11 - a00 - a01))%C ];
     [ (half * (a01 + a11 - a00 - a10))%C; (half * (a00 + a01 + a10 + a11))%C ]].
Proof.
  cbv -[cmul cadd copp csub cone czero half].
  repeat (apply (f_equal2 cons)); try reflexivity; ring.
Qed.

Lemma fft2c_2x2_fourier_pair : fourier_pair fft2c_2x2 fft2c_2x2 2 2 1%Qc.
Proof.
  assert (Hshape : ∀ a, has_shape2 2 2 a → has_shape2 2 2 (fft2c_2x2 a)).
  { intros a (a00 & a01 & a10 & a11 & ->)%has_shape2_2x2.
    rewrite fft2c_2x2_eq. repeat (split || constructor). }
  split; [done|]. split; [done|]. split; [|done].
  intros a b (a00 & a01 & a10 & a11 & ->)%has_shape2_2x2
             (b00 & b01 & b10 & b11 & ->)%has_shape2_2x2.
  rewrite !fft2c_2x2_eq.
  apply C_ext;
    cbn [inner2 inner1 isum zip_with csum re im cadd cmul csub conj copp cone
         czero of_real half];
    ring.
Qed.

(** The 2 x 2 transform is its own inverse, as the centered orthonormal
    transform of an even length is. *)
Lemma fft2c_2x2_involutive a00 a01 a10 a11 :
  fft2c_2x2 (fft2c_2x2 [[a00; a01]; [a10; a11]]) = [[a00; a01]; [a10; a11]].
Proof.
  rewrite !fft2c_2x2_eq.
  repeat (apply (f_equal2 cons)); try reflexivity;
    apply C_ext;
    cbn [re im cadd cmul csub conj copp cone czero of_real half];
    field; discriminate.
Qed.

(** One coil with sensitivities [1, i; 1, 1], the mask that keeps every second
    phase-encode column, and two images. *)
Definition coils_w : arr3 C := [[ [cone; ci]; [cone; cone] ]].
Definition mask_w : maskarg := MaskArray [[ [1; 0]; [1; 0] ]]%Qc.
Definition image_x : arr2 C := [ [cone; czero]; [czero; czero] ].
Definition image_y : arr2 C := [ [ci; cone]; [czero; cone] ].


(** The inner products of the adjoint identity for one coil of unit
    sensitivity, the mask of every second column, the image with a single
    sample at (0,0), and a k-space [y] whose only sample lies in the
    masked-out column: whatever the scale [c] of the transform,
    [<senseForward(x), y>] is 0 and [<x, senseAdjoint(y)>] is [-c]. *)
Definition maps_one : arr3 C := [[ [cone; cone]; [cone; cone] ]].
Definition kspace_off_mask : arr3 C := [[ [czero; cone]; [czero; czero] ]].

Lemma sense_adjoint_inner_products (c : C) :
  let F := dft2c (copp cone) (copp cone) c in
  inner3 (senseForward F image_x maps_one mask_w) kspace_off_mask = czero
  ∧ inner2 image_x (senseAdjoint F kspace_off_mask maps_one mask_w) = copp c.
Proof.
  split;
    cbv -[cmul cadd copp csub cone czero conj of_real Q2Qc Qcplus Qcmult Qcopp
          Qcminus];
    apply C_ext; cbn [re im cadd cmul csub conj copp cone czero of_real]; ring.
Qed.

(** C3 (code at the failing input): with the 2 x 2 orthonormal transform,
    [<senseForward(x), y> = 0] and [<x, senseAdjoint(y)> = -1/2] for the [y]
    outside the support of the mask, so the adjoint identity fails. *)
Theorem sense_adjoint_identity_fails :
  inner3 (senseForward fft2c_2x2 image_x maps_one mask_w) kspace_off_mask = czero
  ∧ inner2 image_x (senseAdjoint fft2c_2x2 kspace_off_mask maps_one mask_w)
    = copp half
  ∧ inner3 (senseForward fft2c_2x2 image_x maps_one mask_w) kspace_off_mask
    ≠ inner2 image_x (senseAdjoint fft2c_2x2 kspace_off_mask maps_one mask_w).
Proof.
  destruct (sense_adjoint_inner_products half) as [H1 H2].
  split; [done|]. split; [done|].
  unfold fft2c_2x2. rewrite H1, H2. apply C_neq_closed. reflexivity.
Qed.

End Sense.

(** ** Conjugate gradient (utils/iterative.py, called in cells 16 and 40) *)
Module Iterative.
Import Cplx.

Abbreviation vec := (list C).

Definition vadd (a b : vec) : vec := zip_with cadd a b.
Definition vsub (a b : vec) : vec := zip_with csub a b.
Definition vscale (k : C) (a : vec) : vec := map (cmul k) a.
(** The inner product of complex vectors, conjugating the first argument. *)
Definition vdot (a b : vec) : C := csum (zip_with (λ u v, cmul (conj u) v) a b).

Record cg_state : Type := CgState { cg_x : vec; cg_r : vec; cg_p : vec }.

Section ConjGrad.
Variable A : vec → vec.

(** Modelled from the spec: the solver [iterative.conjgrad], whose file is not
    part of the sources.  "residual [r0 = b - A(x0)], search direction
    [p0 = r0]". *)
Definition cg_init (b x0 : vec) : cg_state :=
  let r0 := vsub b (A x0) in CgState x0 r0 r0.

(** Modelled from the spec: one step, "[alpha = (r.r)/(p.A(p))], [x += alpha p],
    [r_new = r - alpha A(p)], [beta = (r_new.r_new)/(r.r)],
    [p = r_new + beta p]". *)
Definition cg_update (st : cg_state) : cg_state :=
  let Ap := A (cg_p st) in
  let alpha := cdiv (vdot (cg_r st) (cg_r st)) (vdot (cg_p st) Ap) in
  let x' := vadd (cg_x st) (vscale alpha (cg_p st)) in
  let r' := vsub (cg_r st) (vscale alpha Ap) in
  let beta := cdiv (vdot r' r') (vdot (cg_r st) (cg_r st)) in
  CgState x' r' (vadd r' (vscale beta (cg_p st))).

(** Modelled from the spec: "if [p.A(p)] is zero, the step is undefined". *)
Definition cg_step (st : cg_state) : option cg_state :=
  if is_zero (vdot (cg_p st) (A (cg_p st))) then None else Some (cg_update st).

(** Modelled from the spec: "runs for exactly [iterations] steps (fixed
    iteration count, no convergence-based early exit) and returns the final
    [x]". *)
Fixpoint cg_loop (iterations : nat) (st : cg_state) : option cg_state :=
  match iterations with
  | O => Some st
  | S n => st' ← cg_step st; cg_loop n st'
  end.

Definition conjgrad (b x0 : vec) (iterations : nat) : option vec :=
  st ← cg_loop iterations (cg_init b x0); Some (cg_x st).

(** The state after [k] steps of the recurrence. *)
Definition cg_iterate (k : nat) (st : cg_state) : cg_state := Nat.iter k cg_update st.

(** The precondition: [p.A(p)] is not zero at each of the first [n] steps. *)
Definition nondegenerate (b x0 : vec) (n : nat) : bool :=
  forallb
    (λ k, let p := cg_p (cg_iterate k (cg_init b x0)) in negb (is_zero (vdot p (A p))))
    (seq 0 n).

Lemma cg_iterate_S k st : cg_iterate (S k) st = cg_iterate k (cg_update st).
Proof. unfold cg_iterate. by rewrite Nat.iter_succ_r. Qed.

Lemma cg_loop_iterate n st :
  forallb (λ k, let p := cg_p (cg_iterate k st) in negb (is_zero (vdot p (A p))))
          (seq 0 n) = true →
  cg_loop n st = Some (cg_iterate n st).
Proof.
  revert st. induction n as [|n IH]; intros st Hnd; [done|].
  cbn [seq forallb] in Hnd. apply andb_prop in Hnd as [H0 Hnd].
  cbn [cg_loop]. unfold cg_step. cbn in H0.
  destruct (is_zero (vdot (cg_p st) (A (cg_p st)))); [done|].
  cbn [mbind option_bind]. rewrite cg_iterate_S. apply IH.
  apply forallb_forall. intros k Hk%in_seq.
  rewrite forallb_forall in Hnd. specialize (Hnd (S k)).
  rewrite cg_iterate_S in Hnd. apply Hnd, in_seq. lia.
Qed.


Lemma vsub_vsub (b u w : vec) : vsub (vsub b u) w = vsub b (vadd u w).
Proof.
  revert u w. induction b as [|x b IH]; intros [|y u] [|z w]; cbn; try done.
  rewrite IH. f_equal. apply C_ext; cbn; ring.
Qed.

(** For a linear [A] on vectors of [n] entries, the [r] of every state is the
    residual [b - A(x)] of its [x]: the recurrence [r_new = r - alpha A(p)]
    tracks the true residual. *)
Lemma cg_residual_invariant (n : nat) (b x0 : vec) (k : nat) :
  (∀ u, length u = n → length (A u) = n) →
  (∀ u v, length u = n → length v = n → A (vadd u v) = vadd (A u) (A v)) →
  (∀ c u, A (vscale c u) = vscale c (A u)) →
  length b = n → length x0 = n →
  let st := cg_iterate k (cg_init b x0) in
  cg_r st = vsub b (A (cg_x st))
  ∧ length (cg_x st) = n ∧ length (cg_r st) = n ∧ length (cg_p st) = n.
Proof.
  intros Hlen Hadd Hscale Hb Hx0. cbv zeta.
  induction k as [|k (Hr & Lx & Lr & Lp)].
  - cbn. unfold vsub. rewrite !length_zip_with, Hlen by done. split; [done|]. lia.
  - unfold cg_iterate in *. rewrite Nat.iter_succ.
    set (st := Nat.iter k cg_update (cg_init b x0)) in *.
    unfold cg_update. cbn [cg_x cg_r cg_p].
    assert (LAp : length (A (cg_p st)) = n) by by apply Hlen.
    split; [|unfold vadd, vsub, vscale;
             repeat rewrite ?length_zip_with, ?length_map; lia].
    rewrite Hadd by (done || by unfold vscale; rewrite length_map).
    by rewrite Hscale, Hr, vsub_vsub.
Qed.

End ConjGrad.

(** The symmetric positive-definite system [[4 1; 1 3] x = [1; 2]], started at
    [x0 = [2; 1]]. *)
Definition q (z : Z) : C := of_real (Q2Qc (inject_Z z)).
Definition spd2 (v : vec) : vec :=
  match v with
  | [a; b] => [ (q 4 * a + b)%C; (a + q 3 * b)%C ]
  | _ => []
  end.


(** In exact arithmetic the two steps reach the solution [[1/11; 7/11]]. *)
Example conjgrad_spd2_solution :
  match conjgrad spd2 [q 1; q 2] [q 2; q 1] 2 with
  | Some [a; b] =>
      Qeq_bool (re a) (1 # 11) && Qeq_bool (im a) 0 &&
      Qeq_bool (re b) (7 # 11) && Qeq_bool (im b) 0
  | _ => false
  end = true.
Proof. vm_compute. reflexivity. Qed.

End Iterative.

(** ** IEEE 754 arithmetic *)
Module Ieee.

(** Floating-point numbers as the Standard Library specifies them
    ([SpecFloat]): signed zeros, infinities, one NaN and the finite numbers
    [m * 2^e]; every operation rounds to nearest, ties to even.  numpy's
    float32 and float64 are the formats [binary32] and [binary64]. *)
Record format : Type := Format { prec : Z; emax : Z }.
Definition binary32 : format := Format 24 128.
Definition binary64 : format := Format 53 1024.

Abbreviation float := spec_float.
Abbreviation cplx := (float * float)%type.

(** The conversion of a float to the format [f]; it rounds when the format is
    narrower, and is exact when it is wider. *)
Definition cast (f : format) (x : float) : float :=
  match x with
  | S754_finite s m e => binary_round (prec f) (emax f) s m e
  | _ => x
  end.

(** The float of the format nearest to an integer. *)
Definition of_Z (f : format) (z : Z) : float :=
  binary_normalize (prec f) (emax f) z 0 false.

(** The operations of the format, on operands converted to it. *)
Definition fadd (f : format) (a b : float) : float :=
  SFadd (prec f) (emax f) (cast f a) (cast f b).
Definition fsub (f : format) (a b : float) : float :=
  SFsub (prec f) (emax f) (cast f a) (cast f b).
Definition fmul (f : format) (a b : float) : float :=
  SFmul (prec f) (emax f) (cast f a) (cast f b).
Definition fdiv (f : format) (a b : float) : float :=
  SFdiv (prec f) (emax f) (cast f a) (cast f b).
(** [a <= b] and [a == b]; both are false when an operand is NaN. *)
Definition fleb (f : format) (a b : float) : bool := SFleb (cast f a) (cast f b).
Definition feqb (f : format) (a b : float) : bool := SFeqb (cast f a) (cast f b).

Definition fzero : float := S754_zero false.
Definition fone (f : format) : float := of_Z f 1.

(** *** Complex numbers, as numpy's loops compute with them *)

(** A real operand of a complex operation is converted to [x + 0j]. *)
Definition of_real (a : float) : cplx := (a, fzero).
Definition imag_unit (f : format) : cplx := (fzero, fone f).

Definition cadd (f : format) (a b : cplx) : cplx :=
  (fadd f a.1 b.1, fadd f a.2 b.2).

Definition cmul (f : format) (a b : cplx) : cplx :=
  (fsub f (fmul f a.1 b.1) (fmul f a.2 b.2),
   fadd f (fmul f a.1 b.2) (fmul f a.2 b.1)).

(** numpy's loop for the complex quotient [a / b] (Smith's method):
<<
    in2r_abs = fabs(in2r); in2i_abs = fabs(in2i)
    if (in2r_abs >= in2i_abs) {
        if (in2r_abs == 0 && in2i_abs == 0) {
            out = (in1r/in2r_abs, in1i/in2r_abs)
        } else {
            rat = in2i/in2r; scl = 1.0/(in2r + in2i*rat)
            out = ((in1r + in1i*rat)*scl, (in1i - in1r*rat)*scl)
        }
    } else {
        rat = in2r/in2i; scl = 1.0/(in2i + in2r*rat)
        out = ((in1r*rat + in1i)*scl, (in1i*rat - in1r)*scl)
    }
>>
*)
Definition cdiv (f : format) (a b : cplx) : cplx :=
  let in1r := a.1 in
  let in1i := a.2 in
  let in2r := b.1 in
  let in2i := b.2 in
  let in2r_abs := SFabs in2r in
  let in2i_abs := SFabs in2i in
  if fleb f in2i_abs in2r_abs then
    if feqb f in2r_abs fzero && feqb f in2i_abs fzero then
      (fdiv f in1r in2r_abs, fdiv f in1i in2r_abs)
    else
      let rat := fdiv f in2i in2r in
      let scl := fdiv f (fone f) (fadd f in2r (fmul f in2i rat)) in
      (fmul f (fadd f in1r (fmul f in1i rat)) scl,
       fmul f (fsub f in1i (fmul f in1r rat)) scl)
  else
    let rat := fdiv f in2r in2i in
    let scl := fdiv f (fone f) (fadd f in2i (fmul f in2r rat)) in
    (fmul f (fadd f (fmul f in1r rat) in1i) scl,
     fmul f (fsub f (fmul f in1i rat) in1r) scl).

(** [1/10] is not a float: the double nearest to it, and what float64
    arithmetic makes of [3 * (1/10) / (1/10)]. *)
Example tenth_binary64 :
  fdiv binary64 (of_Z binary64 1) (of_Z binary64 10)
  = S754_finite false 7205759403792794 (-56).
Proof. vm_compute. reflexivity. Qed.

Example scale_descale_binary64 :
  let s := fdiv binary64 (of_Z binary64 1) (of_Z binary64 10) in
  fdiv binary64 (fmul binary64 (of_Z binary64 3) s) s
  = S754_finite false 6755399441055745 (-51)
  ∧ of_Z binary64 3 = S754_finite false 6755399441055744 (-51).
Proof. vm_compute. split; reflexivity. Qed.

End Ieee.

(** ** SPARK helper functions (cells 22 and 24) *)
Module Spark.
Import NumPy.

(** *** Floats with the IEEE special values

    A float is a rational or one of [inf], [-inf], [nan].  Finite results are
    exact; the sign of zero is not modelled ([np.abs] never returns [-0.0], so
    [1/np.amax(np.abs(..))] divides by [+0.0] or by a positive number). *)
Inductive npfloat : Type :=
| Fin (q : Qc)
| PInf
| NInf
| NaN.

Definition fneg (a : npfloat) : npfloat :=
  match a with
  | Fin q => Fin (- q)%Qc
  | PInf => NInf
  | NInf => PInf
  | NaN => NaN
  end.

Definition fabs (a : npfloat) : npfloat :=
  match a with
  | Fin q => Fin (if Qclt_le_dec q 0 then - q else q)%Qc
  | PInf | NInf => PInf
  | NaN => NaN
  end.

Definition fadd (a b : npfloat) : npfloat :=
  match a, b with
  | NaN, _ | _, NaN => NaN
  | Fin x, Fin y => Fin (x + y)%Qc
  | PInf, NInf | NInf, PInf => NaN
  | PInf, _ | _, PInf => PInf
  | NInf, _ | _, NInf => NInf
  end.

Definition fsub (a b : npfloat) : npfloat := fadd a (fneg b).

(** The infinity of the sign of [q], and [nan] for [q = 0]. *)
Definition signed_inf (q : Qc) (pos : npfloat) : npfloat :=
  match (q ?= 0)%Qc with
  | Eq => NaN
  | Gt => pos
  | Lt => fneg pos
  end.

Definition fmul (a b : npfloat) : npfloat :=
  match a, b with
  | NaN, _ | _, NaN => NaN
  | Fin x, Fin y => Fin (x * y)%Qc
  | Fin x, PInf | PInf, Fin x => signed_inf x PInf
  | Fin x, NInf | NInf, Fin x => signed_inf x NInf
  | PInf, PInf | NInf, NInf => PInf
  | PInf, NInf | NInf, PInf => NInf
  end.

(** Division of numpy floats: [x/0] is an infinity (or [nan] for [0/0]) and a
    RuntimeWarning, never an exception. *)
Definition fdiv (a b : npfloat) : npfloat :=
  match a, b with
  | NaN, _ | _, NaN => NaN
  | Fin x, Fin y =>
      if decide (y = 0%Qc) then signed_inf x PInf else Fin (x / y)%Qc
  | Fin _, (PInf | NInf) => Fin 0%Qc
  | PInf, Fin y => if Qclt_le_dec y 0 then NInf else PInf
  | NInf, Fin y => if Qclt_le_dec y 0 then PInf else NInf
  | (PInf | NInf), (PInf | NInf) => NaN
  end.

(** The maximum of two floats as [np.amax] takes it: [nan] propagates. *)
Definition fmax (a b : npfloat) : npfloat :=
  match a, b with
  | NaN, _ | _, NaN => NaN
  | PInf, _ | _, PInf => PInf
  | NInf, x | x, NInf => x
  | Fin x, Fin y => Fin (if Qclt_le_dec x y then y else x)
  end.

(** [np.amax] of a flattened array; ValueError on an empty one. *)
Definition amax (l : list npfloat) : option npfloat :=
  match l with
  | [] => None
  | a :: l' => Some (foldl fmax a l')
  end.

(** Complex numbers as pairs (real part, imaginary part). *)
Abbreviation cplx := (npfloat * npfloat)%type.
Definition csub (a b : cplx) : cplx := (fsub a.1 b.1, fsub a.2 b.2).

(** Elementwise operation on two arrays of the same extent along the leading
    axis; numpy raises ValueError otherwise (it would broadcast an axis of
    length one, which these functions never meet). *)
Definition ew {A B D} (f : A → B → option D) (a : list A) (b : list B)
    : option (list D) :=
  if decide (length a = length b) then mapM (λ p, f p.1 p.2) (zip a b) else None.

(** *** applySparkCorrection (cell 24) *)

(** A trained network ([models.SPARK_Netv2]): from the batched split k-space
    to the pair (correction over the full k-space, its ACS crop), two float32
    arrays. *)
Abbreviation model := (arr4 npfloat → arr4 Ieee.float * arr4 Ieee.float).

(** [a[0,0,:,:]] *)
Definition item00 {A} (a : arr4 A) : option (arr2 A) :=
  b ← getitem a 0; getitem b 0.

(**
<<
    def applySparkCorrection(kspaceToCorrect,kspaceGrappaSplit,real_model,imag_model,
                             chanScaleFactorReal,chanScaleFactorImag):
        correctionr = real_model(torch.unsqueeze(kspaceGrappaSplit,axis=0))[0].cpu().detach().numpy()
        correctioni = imag_model(torch.unsqueeze(kspaceGrappaSplit,axis=0))[0].cpu().detach().numpy()
        corrected = correctionr[0,0,:,:]/chanScaleFactorReal + 1j * correctioni[0,0,:,:] / chanScaleFactorImag + kspaceToCorrect
        return corrected
>>
    The arithmetic is floating point.  The corrections are float32 arrays, the
    scale factors float64 scalars and [kspaceToCorrect] a complex128 array.
    [1j * correctioni] is a complex64 product.  The two quotients and their
    sum are computed in the format [promoted] that numpy's promotion gives an
    operation on a float32 array and a float64 scalar: [binary64] with the
    rules of numpy 2, [binary32] with the value-based rules of numpy 1, which
    convert the scalar.  The last sum is a complex128 sum. *)
Definition applySparkCorrection (promoted : Ieee.format)
    (kspaceToCorrect : arr2 Ieee.cplx)
    (kspaceGrappaSplit : arr3 npfloat) (real_model imag_model : model)
    (chanScaleFactorReal chanScaleFactorImag : Ieee.float)
    : option (arr2 Ieee.cplx) :=
  let correctionr := (real_model [kspaceGrappaSplit]).1 in
  let correctioni := (imag_model [kspaceGrappaSplit]).1 in
  cr ← item00 correctionr;
  let real_term := map (map (λ x, Ieee.fdiv promoted x chanScaleFactorReal)) cr in
  ci ← item00 correctioni;
  let imag_term :=
    map (map (λ x,
      Ieee.cdiv promoted
        (Ieee.cmul Ieee.binary32 (Ieee.imag_unit Ieee.binary32) (Ieee.of_real x))
        (Ieee.of_real chanScaleFactorImag))) ci in
  correction ←
    ew (ew (λ a b, Some (Ieee.cadd promoted (Ieee.of_real a) b))) real_term imag_term;
  ew (ew (λ a b, Some (Ieee.cadd Ieee.binary64 a b))) correction kspaceToCorrect.

(** *** The store of array buffers

    numpy arrays are mutable objects, and [np.real], [np.imag] and basic slices
    return views that share the buffer of their base.  A buffer lives at a
    location of the store; a real array is a real buffer or the real or
    imaginary part of a complex buffer. *)
Abbreviation loc := nat.

Inductive buffer : Type :=
| BufC (d : arr4 cplx)      (* complex128, four axes *)
| BufR (d : arr4 npfloat)   (* float64, four axes *)
| BufT (d : arr2 npfloat).  (* float64, two axes *)

Inductive part : Type := PSelf | PReal | PImag.

(** A real-valued ndarray object: its base buffer and what it shows of it. *)
Record rref : Type := RRef { rbase : loc; rpart : part }.

Inductive exn : Type := IndexError | ValueError | TypeError.

(** Computations on the store that may raise; the store is kept when they do. *)
Definition M (A : Type) : Type := gmap loc buffer → gmap loc buffer * (exn + A).

Definition ret {A} (a : A) : M A := λ h, (h, inr a).
Definition raise {A} (e : exn) : M A := λ h, (h, inl e).
Definition bind {A B} (m : M A) (f : A → M B) : M B :=
  λ h, match m h with
       | (h', inr a) => f a h'
       | (h', inl e) => (h', inl e)
       end.

Declare Scope heap_scope.
Delimit Scope heap_scope with M.
Notation "x <- m ;; k" := (bind m (λ x, k))
  (at level 100, m at next level, right associativity) : heap_scope.
Notation "m ;;; k" := (bind m (λ _, k))
  (at level 100, right associativity) : heap_scope.
Open Scope heap_scope.

(** An option as a computation, raising [e] on [None]. *)
Definition lift {A} (e : exn) (o : option A) : M A :=
  match o with
  | Some a => ret a
  | None => raise e
  end.

(** A new array: the buffer is put at a location the store does not use. *)
Definition alloc (b : buffer) : M loc :=
  λ h, let l := fresh (dom h) in (<[l := b]> h, inr l).

Definition load (l : loc) : M buffer :=
  λ h, match h !! l with
       | Some b => (h, inr b)
       | None => (h, inl TypeError)
       end.

Definition store (l : loc) (b : buffer) : M unit := λ h, (<[l := b]> h, inr ()).

(** [for i in idx: body(i)] *)
Fixpoint for_ (idx : list nat) (body : nat → M unit) : M unit :=
  match idx with
  | [] => ret ()
  | i :: rest => body i ;;; for_ rest body
  end.

Definition load_complex (l : loc) : M (arr4 cplx) :=
  b <- load l ;;
  match b with
  | BufC d => ret d
  | _ => raise TypeError
  end.

Definition load_table (l : loc) : M (arr2 npfloat) :=
  b <- load l ;;
  match b with
  | BufT d => ret d
  | _ => raise TypeError
  end.

(** Reading a real array through its view. *)
Definition view_real (p : part) (b : buffer) : option (arr4 npfloat) :=
  match p, b with
  | PSelf, BufR d => Some d
  | PReal, BufC d => Some (map (map (map (map fst))) d)
  | PImag, BufC d => Some (map (map (map (map snd))) d)
  | _, _ => None
  end.

Definition load_real (r : rref) : M (arr4 npfloat) :=
  b <- load (rbase r) ;; lift TypeError (view_real (rpart r) b).

(** [np.real(a)] and [np.imag(a)] of a complex array: views, no new buffer. *)
Definition np_real (l : loc) : rref := RRef l PReal.
Definition np_imag (l : loc) : rref := RRef l PImag.

(** Scaling, through a view, the entries of the base buffer it shows. *)
Definition scale_entry (p : part) (s : npfloat) (b : buffer)
    (upd : ∀ A, (A → A) → arr4 A → option (arr4 A)) : option buffer :=
  match p, b with
  | PSelf, BufR d => BufR <$> upd npfloat (λ x, fmul x s) d
  | PReal, BufC d => BufC <$> upd cplx (λ z, (fmul z.1 s, z.2)) d
  | PImag, BufC d => BufC <$> upd cplx (λ z, (z.1, fmul z.2 s)) d
  | _, _ => None
  end.

(** The entries [a[e,:,:,:]] and [a[e,c,:,:]] mapped by [f]; IndexError
    outside the array. *)
Definition at_e (e : nat) (A : Type) (f : A → A) (d : arr4 A) : option (arr4 A) :=
  row ← d !! e; Some (<[e := map (map (map f)) row]> d).
Definition at_ec (e c : nat) (A : Type) (f : A → A) (d : arr4 A) : option (arr4 A) :=
  row ← d !! e; pl ← row !! c; Some (<[e := <[c := map (map f) pl]> row]> d).

(** [r[e,:,:,:] *= s] and [r[e,c,:,:] *= s] *)
Definition imul_e (r : rref) (e : nat) (s : npfloat) : M unit :=
  b <- load (rbase r) ;;
  b' <- lift IndexError (scale_entry (rpart r) s b (at_e e)) ;;
  store (rbase r) b'.
Definition imul_ec (r : rref) (e c : nat) (s : npfloat) : M unit :=
  b <- load (rbase r) ;;
  b' <- lift IndexError (scale_entry (rpart r) s b (at_ec e c)) ;;
  store (rbase r) b'.

(** [t[e,c] = v] on a table. *)
Definition setitem_table (l : loc) (e c : nat) (v : npfloat) : M unit :=
  t <- load_table l ;;
  row <- lift IndexError (t !! e) ;;
  (if decide (c < length row)%nat then ret () else raise IndexError) ;;;
  store l (BufT (<[e := <[c := v]> row]> t)).

(** [np.amax(np.abs(r[e,:,:,:]))] and [np.amax(np.abs(r[e,c,:,:]))]. *)
Definition amax_abs_e (r : rref) (e : nat) : M npfloat :=
  d <- load_real r ;;
  row <- lift IndexError (d !! e) ;;
  lift ValueError (amax (map fabs (concat (concat row)))).
Definition amax_abs_ec (r : rref) (e c : nat) : M npfloat :=
  d <- load_real r ;;
  row <- lift IndexError (d !! e) ;;
  pl <- lift IndexError (row !! c) ;;
  lift ValueError (amax (map fabs (concat pl))).

(** *** reformattingKspaceForSpark (cell 22) *)

(** [a[:,:,x0:x1,y0:y1]] *)
Definition window {A} (x0 x1 y0 y1 : Z) (a : arr4 A) : arr4 A :=
  map (map (λ pl, map (slice y0 y1) (slice x0 x1 pl))) a.

(** What the function returns: the split input, the two targets with their two
    added axes, and the two tables of scale factors. *)
Record spark_data : Type := SparkData {
  kspace_grappa_split : arr4 npfloat;
  acs_difference_real : list (list (arr4 npfloat));
  acs_difference_imag : list (list (arr4 npfloat));
  chan_scale_factors_real : arr2 npfloat;
  chan_scale_factors_imag : arr2 npfloat
}.

(** [np.expand_dims(np.expand_dims(a, axis=2), axis=2)] *)
Definition expand_dims22 {A} (a : arr4 A) : list (list (arr4 A)) :=
  map (map (λ pl, [[pl]])) a.

(** The body of the loop over the channels [c] of contrast [e]:
<<
        for c in range(C):
            if(normalizationflag):
                scale_factor_real = 1/np.amax(np.abs(acs_difference_real[e,c,:,:]))
                scale_factor_imag = 1/np.amax(np.abs(acs_difference_imag[e,c,:,:]))
            else:
                scale_factor_real = 1
                scale_factor_imag = 1
            chan_scale_factors_real[e,c] = scale_factor_real
            chan_scale_factors_imag[e,c] = scale_factor_imag
            acs_difference_real[e,c,:,:] *= scale_factor_real
            acs_difference_imag[e,c,:,:] *= scale_factor_imag
>>
*)
Definition channel_body (normalizationflag : bool)
    (acs_difference_real acs_difference_imag : rref)
    (chan_scale_factors_real chan_scale_factors_imag : loc) (e c : nat) : M unit :=
  factors <-
    (if normalizationflag then
       mr <- amax_abs_ec acs_difference_real e c ;;
       mi <- amax_abs_ec acs_difference_imag e c ;;
       ret (fdiv (Fin 1%Qc) mr, fdiv (Fin 1%Qc) mi)
     else ret (Fin 1%Qc, Fin 1%Qc)) ;;
  let scale_factor_real := factors.1 in
  let scale_factor_imag := factors.2 in
  setitem_table chan_scale_factors_real e c scale_factor_real ;;;
  setitem_table chan_scale_factors_imag e c scale_factor_imag ;;;
  imul_ec acs_difference_real e c scale_factor_real ;;;
  imul_ec acs_difference_imag e c scale_factor_imag.

(** The body of the loop over the contrasts [e]:
<<
    for e in range(E):
        if(normalizationflag):
            scale_factor_input = 1/np.amax(np.abs(kspace_grappa_split[e,:,:,:]))
            kspace_grappa_split[e,:,:,:] *= scale_factor_input
        for c in range(C):
            ...
>>
*)
Definition contrast_body (normalizationflag : bool) (nchannels : nat)
    (kspace_grappa_split acs_difference_real acs_difference_imag : rref)
    (chan_scale_factors_real chan_scale_factors_imag : loc) (e : nat) : M unit :=
  (if normalizationflag then
     mx <- amax_abs_e kspace_grappa_split e ;;
     imul_e kspace_grappa_split e (fdiv (Fin 1%Qc) mx)
   else ret ()) ;;;
  for_ (seq 0 nchannels)
    (channel_body normalizationflag acs_difference_real acs_difference_imag
       chan_scale_factors_real chan_scale_factors_imag e).

(** The function of cell 22:
<<
    def reformattingKspaceForSpark(inputKspace,kspaceOriginal,acsregionX,acsregionY,acsx,acsy,normalizationflag):
        [E,C,_,_] = inputKspace.shape
        kspaceAcsCrop     = kspaceOriginal[:,:,acsregionX[0]:acsregionX[acsx-1]+1,acsregionY[0]:acsregionY[acsy-1]+1]
        kspaceAcsGrappa   = inputKspace[:,:,acsregionX[0]:acsregionX[acsx-1]+1,acsregionY[0]:acsregionY[acsy-1]+1]
        kspaceAcsDifference = kspaceAcsCrop - kspaceAcsGrappa
        acs_difference_real = np.real(kspaceAcsDifference)
        acs_difference_imag = np.imag(kspaceAcsDifference)
        kspace_grappa = np.copy(inputKspace)
        kspace_grappa_real  = np.real(kspace_grappa)
        kspace_grappa_imag  = np.imag(kspace_grappa)
        kspace_grappa_split = np.concatenate((kspace_grappa_real, kspace_grappa_imag), axis=1)
        chan_scale_factors_real = np.zeros((E,C),dtype = 'float')
        chan_scale_factors_imag = np.zeros((E,C),dtype = 'float')
        for e in range(E):
            ...
        acs_difference_real = np.expand_dims(acs_difference_real, axis=2)   # twice, and for imag
        kspace_grappa_split = torch.from_numpy(kspace_grappa_split).to(device, dtype=torch.float)
        ...
        return kspace_grappa_split, acs_difference_real, acs_difference_imag, chan_scale_factors_real, chan_scale_factors_imag
>>
    [inputKspace] and [kspaceOriginal] are the caller's complex arrays, given
    by the locations of their buffers.  The two crops are views that are only
    read; the difference, the copy of the input, the concatenation and the two
    tables are new arrays; [np.real] and [np.imag] of the difference are views
    of it, scaled in place.  The conversions to torch tensors at the end copy
    the values out.  The arithmetic is exact here: the rounding of the
    operations and of the conversion to single precision is not modelled, and
    the statements about this function are about the arrays it reads and
    writes, the errors it raises, the shapes it returns and the special
    values of the factors, none of which a rounding changes. *)
Definition reformattingKspaceForSpark (inputKspace kspaceOriginal : loc)
    (acsregionX acsregionY : list Z) (acsx acsy : Z) (normalizationflag : bool)
    : M spark_data :=
  inp <- load_complex inputKspace ;;
  let nE := length inp in
  let nC := length (default [] (head inp)) in
  orig <- load_complex kspaceOriginal ;;
  x0 <- lift IndexError (getitem acsregionX 0) ;;
  x1 <- lift IndexError (getitem acsregionX (acsx - 1)) ;;
  y0 <- lift IndexError (getitem acsregionY 0) ;;
  y1 <- lift IndexError (getitem acsregionY (acsy - 1)) ;;
  let kspaceAcsCrop := window x0 (x1 + 1) y0 (y1 + 1) orig in
  let kspaceAcsGrappa := window x0 (x1 + 1) y0 (y1 + 1) inp in
  diff <- lift ValueError
            (ew (ew (ew (ew (λ a b, Some (csub a b))))) kspaceAcsCrop kspaceAcsGrappa) ;;
  kspaceAcsDifference <- alloc (BufC diff) ;;
  let acs_difference_real := np_real kspaceAcsDifference in
  let acs_difference_imag := np_imag kspaceAcsDifference in
  kspace_grappa <- alloc (BufC inp) ;;
  kspace_grappa_real <- load_real (np_real kspace_grappa) ;;
  kspace_grappa_imag <- load_real (np_imag kspace_grappa) ;;
  kspace_grappa_split <-
    alloc (BufR (zip_with app kspace_grappa_real kspace_grappa_imag)) ;;
  chan_scale_factors_real <- alloc (BufT (replicate nE (replicate nC (Fin 0%Qc)))) ;;
  chan_scale_factors_imag <- alloc (BufT (replicate nE (replicate nC (Fin 0%Qc)))) ;;
  for_ (seq 0 nE)
    (contrast_body normalizationflag nC (RRef kspace_grappa_split PSelf)
       acs_difference_real acs_difference_imag
       chan_scale_factors_real chan_scale_factors_imag) ;;;
  split_out <- load_real (RRef kspace_grappa_split PSelf) ;;
  real_out <- load_real acs_difference_real ;;
  imag_out <- load_real acs_difference_imag ;;
  table_real <- load_table chan_scale_factors_real ;;
  table_imag <- load_table chan_scale_factors_imag ;;
  ret (SparkData split_out (expand_dims22 real_out) (expand_dims22 imag_out)
         table_real table_imag).

(** *** Facts: applySparkCorrection *)

(** Three arrays combined entry by entry. *)
Fixpoint zip3_with {A B D R} (g : A → B → D → R) (a : list A) (b : list B)
    (d : list D) : list R :=
  match a, b, d with
  | x :: a', y :: b', z :: d' => g x y z :: zip3_with g a' b' d'
  | _, _, _ => []
  end.

Section EwFacts.
Context {A B D : Type}.

Lemma ew_nil (f : A → B → option D) : ew f [] [] = Some [].
Proof. done. Qed.

Lemma ew_cons (f : A → B → option D) x a y b :
  ew f (x :: a) (y :: b) = d ← f x y; ds ← ew f a b; Some (d :: ds).
Proof.
  unfold ew. cbn [length zip zip_with].
  destruct (decide (length a = length b)) as [Hl|Hl].
  - rewrite decide_True by (by rewrite Hl). done.
  - rewrite decide_False by (intros [= ?]; done).
    cbn. by destruct (f x y).
Qed.

Lemma ew_zip_with (f : A → B → option D) (g : A → B → D) a b :
  Forall2 (λ x y, f x y = Some (g x y)) a b → ew f a b = Some (zip_with g a b).
Proof.
  induction 1 as [|x y a b Hxy _ IH]; [done|].
  rewrite ew_cons, Hxy, IH. done.
Qed.

End EwFacts.

Lemma shape2_Forall2 {A B} m n (a : arr2 A) (b : arr2 B) :
  has_shape2 m n a → has_shape2 m n b →
  Forall2 (λ r r', length r = length r') a b.
Proof.
  intros [Ha Hra] [Hb Hrb].
  apply Forall2_same_length_lookup_2; [congruence|].
  intros i r r' Hr Hr'.
  rewrite (proj1 (Forall_lookup _ _) Hra i r Hr).
  by rewrite (proj1 (Forall_lookup _ _) Hrb i r' Hr').
Qed.

Lemma Forall2_same_length_all {A B} (R : A → B → Prop) (a : list A) (b : list B) :
  (∀ x y, R x y) → length a = length b → Forall2 R a b.
Proof. intros HR H. apply Forall2_same_length_lookup_2; [done|]. intros; apply HR. Qed.

Lemma zip3_with_rows {X Y K U V W} (g : X → Y → K → W) (u : X → U) (v : Y → V)
    (G : U → V → W) (H : W → K → W) a b k :
  (∀ x y z, H (G (u x) (v y)) z = g x y z) →
  zip_with H (zip_with G (map u a) (map v b)) k = zip3_with g a b k.
Proof.
  intros Hg. revert b k.
  induction a as [|x a IH]; intros [|y b] [|z k]; cbn; try done.
  by rewrite Hg, IH.
Qed.

Lemma zip3_with_planes {X Y K U V W} (g : X → Y → K → W) (u : X → U) (v : Y → V)
    (G : U → V → W) (H : W → K → W) (a : arr2 X) (b : arr2 Y) (k : arr2 K) :
  (∀ x y z, H (G (u x) (v y)) z = g x y z) →
  zip_with (zip_with H)
    (zip_with (zip_with G) (map (map u) a) (map (map v) b)) k
  = zip3_with (zip3_with g) a b k.
Proof.
  intros Hg. revert b k.
  induction a as [|x a IH]; intros [|y b] [|z k]; cbn; try done.
  by rewrite (zip3_with_rows g), IH.
Qed.


(** *** Facts: what a computation may write

    [only_stores L m]: whatever the store [h], running [m] keeps every buffer
    of a store [h0 ⊆ h] that has nothing at the locations [L]; so [m] writes
    to locations of [L] or to locations it allocates, and to no other. *)
Definition only_stores (L : gset loc) {A} (m : M A) : Prop :=
  ∀ h0 h : gmap loc buffer,
    (∀ l, l ∈ L → h0 !! l = None) → h0 ⊆ h → h0 ⊆ (m h).1.

Section OnlyStores.
Context (L : gset loc).

Lemma os_ret {A} (a : A) : only_stores L (ret a).
Proof. by intros h0 h _ Hsub. Qed.

Lemma os_raise {A} e : only_stores L (@raise A e).
Proof. by intros h0 h _ Hsub. Qed.

Lemma os_lift {A} e (o : option A) : only_stores L (lift e o).
Proof. destruct o; [apply os_ret | apply os_raise]. Qed.

Lemma os_load l : only_stores L (load l).
Proof. intros h0 h _ Hsub. unfold load. by destruct (h !! l). Qed.

Lemma os_store l b : l ∈ L → only_stores L (store l b).
Proof.
  intros Hl h0 h HL Hsub. unfold store. cbn.
  apply insert_subseteq_r; [by apply HL | done].
Qed.

Lemma os_bind {A B} (m : M A) (f : A → M B) :
  only_stores L m → (∀ a, only_stores L (f a)) → only_stores L (bind m f).
Proof.
  intros Hm Hf h0 h HL Hsub. unfold bind.
  pose proof (Hm h0 h HL Hsub) as Hm'.
  destruct (m h) as [h' [e|a]]; [done|].
  by apply Hf.
Qed.

Lemma os_for idx (body : nat → M unit) :
  (∀ i, only_stores L (body i)) → only_stores L (for_ idx body).
Proof.
  intros Hbody. induction idx as [|i idx IH]; cbn [for_].
  - apply os_ret.
  - apply os_bind; [apply Hbody | by intros _].
Qed.

End OnlyStores.

(** A new array may be written afterwards: its location was not in use. *)
Lemma os_bind_alloc (L : gset loc) {B} b (f : loc → M B) :
  (∀ l, only_stores (L ∪ {[l]}) (f l)) → only_stores L (bind (alloc b) f).
Proof.
  intros Hf h0 h HL Hsub. unfold bind, alloc.
  set (l := fresh (dom h)).
  assert (Hl : h !! l = None) by apply not_elem_of_dom, is_fresh.
  assert (Hl0 : h0 !! l = None) by by eapply lookup_weaken_None.
  apply Hf.
  - intros l' [Hl'| ->%elem_of_singleton]%elem_of_union; [by apply HL | done].
  - by apply insert_subseteq_r.
Qed.

Ltac os_step :=
  lazymatch goal with
  | |- only_stores _ (bind (alloc _) _) => apply os_bind_alloc; intros ?
  | |- only_stores _ (bind _ _) => apply os_bind; [|intros ?]
  | |- only_stores _ (ret _) => apply os_ret
  | |- only_stores _ (raise _) => apply os_raise
  | |- only_stores _ (lift _ _) => apply os_lift
  | |- only_stores _ (load _) => apply os_load
  | |- only_stores _ (store _ _) => apply os_store; set_solver
  | |- only_stores _ (for_ _ _) => apply os_for; intros ?
  | |- only_stores _ (match ?x with _ => _ end) => destruct x
  end.

Ltac os_solve :=
  repeat (progress
    (unfold load_complex, load_table, load_real, imul_e, imul_ec, setitem_table,
       amax_abs_e, amax_abs_ec;
     cbv zeta; repeat os_step)).

Lemma os_channel_body L flag dr di lr li e c :
  rbase dr ∈ L → rbase di ∈ L → lr ∈ L → li ∈ L →
  only_stores L (channel_body flag dr di lr li e c).
Proof. intros. unfold channel_body. os_solve. Qed.

Lemma os_contrast_body L flag nC sp dr di lr li e :
  rbase sp ∈ L → rbase dr ∈ L → rbase di ∈ L → lr ∈ L → li ∈ L →
  only_stores L (contrast_body flag nC sp dr di lr li e).
Proof.
  intros. unfold contrast_body. os_solve. by apply os_channel_body.
Qed.

(** [reformattingKspaceForSpark] writes to the arrays it creates only. *)
Lemma os_reformattingKspaceForSpark inputKspace kspaceOriginal aX aY acsx acsy flag :
  only_stores ∅
    (reformattingKspaceForSpark inputKspace kspaceOriginal aX aY acsx acsy flag).
Proof.
  unfold reformattingKspaceForSpark. os_solve.
  all: try (apply os_contrast_body; cbn [rbase np_real np_imag]; set_solver).
Qed.

(** Every buffer of the caller's store is in the store after the call, with the
    value it had. *)
Lemma reformatting_extends_store h inputKspace kspaceOriginal aX aY acsx acsy flag :
  h ⊆ (reformattingKspaceForSpark inputKspace kspaceOriginal aX aY acsx acsy flag h).1.
Proof. by apply os_reformattingKspaceForSpark. Qed.

(** C10: after the call, returning or raising, the arrays given as
    [inputKspace] and [kspaceOriginal] hold the values they held before, for
    every ACS region and both settings of the normalization flag. *)
Theorem reformatting_keeps_arguments (h : gmap loc buffer)
    (inputKspace kspaceOriginal : loc) (input original : buffer)
    (acsregionX acsregionY : list Z) (acsx acsy : Z) (normalizationflag : bool) :
  h !! inputKspace = Some input → h !! kspaceOriginal = Some original →
  let h' := (reformattingKspaceForSpark inputKspace kspaceOriginal
               acsregionX acsregionY acsx acsy normalizationflag h).1 in
  h' !! inputKspace = Some input ∧ h' !! kspaceOriginal = Some original.
Proof.
  intros Hi Ho h'.
  pose proof (reformatting_extends_store h inputKspace kspaceOriginal
                acsregionX acsregionY acsx acsy normalizationflag) as Hsub.
  split; by eapply lookup_weaken.
Qed.

(** *** Facts: running the array operations *)

Lemma bind_run {A B} (m : M A) (f : A → M B) h h' a :
  m h = (h', inr a) → bind m f h = f a h'.
Proof. intros H. unfold bind. by rewrite H. Qed.

Lemma run_load h l b : h !! l = Some b → load l h = (h, inr b).
Proof. intros H. unfold load. by rewrite H. Qed.

Lemma run_load_complex h l d : h !! l = Some (BufC d) → load_complex l h = (h, inr d).
Proof. intros H. unfold load_complex. by rewrite (bind_run _ _ _ _ _ (run_load _ _ _ H)). Qed.

Lemma run_load_table h l t : h !! l = Some (BufT t) → load_table l h = (h, inr t).
Proof. intros H. unfold load_table. by rewrite (bind_run _ _ _ _ _ (run_load _ _ _ H)). Qed.

Lemma run_load_real h r b d :
  h !! rbase r = Some b → view_real (rpart r) b = Some d →
  load_real r h = (h, inr d).
Proof.
  intros H Hv. unfold load_real.
  rewrite (bind_run _ _ _ _ _ (run_load _ _ _ H)). by rewrite Hv.
Qed.

Lemma run_lift {A} e (o : option A) a h : o = Some a → lift e o h = (h, inr a).
Proof. by intros ->. Qed.

(** The component of a complex entry a view shows, and its scaling. *)
Definition comp (im : bool) (z : cplx) : npfloat := if im then z.2 else z.1.
Definition scale_comp (im : bool) (s : npfloat) (z : cplx) : cplx :=
  if im then (z.1, fmul z.2 s) else (fmul z.1 s, z.2).
Definition np_part (im : bool) (l : loc) : rref := if im then np_imag l else np_real l.

Lemma run_amax_abs_ec h im l d e c row pl v :
  h !! l = Some (BufC d) → d !! e = Some row → row !! c = Some pl →
  amax (map fabs (concat (map (map (comp im)) pl))) = Some v →
  amax_abs_ec (np_part im l) e c h = (h, inr v).
Proof.
  intros Hl He Hc Hv. unfold amax_abs_ec.
  rewrite (bind_run _ _ h h (map (map (map (map (comp im)))) d)).
  2:{ apply (run_load_real _ _ (BufC d)); destruct im; done. }
  rewrite (bind_run _ _ h h (map (map (map (comp im))) row)).
  2:{ apply run_lift. by rewrite lookup_map, He. }
  rewrite (bind_run _ _ h h (map (map (comp im)) pl)).
  2:{ apply run_lift. by rewrite lookup_map, Hc. }
  by apply run_lift.
Qed.

Lemma run_imul_ec h im l d e c row pl s :
  h !! l = Some (BufC d) → d !! e = Some row → row !! c = Some pl →
  imul_ec (np_part im l) e c s h
  = (<[l := BufC (<[e := <[c := map (map (scale_comp im s)) pl]> row]> d)]> h, inr ()).
Proof.
  intros Hl He Hc. unfold imul_ec.
  assert (Hb : rbase (np_part im l) = l) by by destruct im.
  rewrite Hb. rewrite (bind_run _ _ _ _ _ (run_load _ _ _ Hl)).
  erewrite bind_run; [done|].
  apply run_lift. destruct im; cbn; unfold at_ec; by rewrite He; cbn; rewrite Hc.
Qed.

Lemma run_amax_abs_e h l d e row v :
  h !! l = Some (BufR d) → d !! e = Some row →
  amax (map fabs (concat (concat row))) = Some v →
  amax_abs_e (RRef l PSelf) e h = (h, inr v).
Proof.
  intros Hl He Hv. unfold amax_abs_e.
  rewrite (bind_run _ _ h h d) by by apply (run_load_real _ _ (BufR d)).
  rewrite (bind_run _ _ h h row) by by apply run_lift.
  by apply run_lift.
Qed.

Lemma run_imul_e h l d e row s :
  h !! l = Some (BufR d) → d !! e = Some row →
  imul_e (RRef l PSelf) e s h
  = (<[l := BufR (<[e := map (map (map (λ x, fmul x s))) row]> d)]> h, inr ()).
Proof.
  intros Hl He. unfold imul_e. cbn [rbase rpart].
  rewrite (bind_run _ _ _ _ _ (run_load _ _ _ Hl)).
  erewrite bind_run; [done|].
  apply run_lift. cbn. unfold at_e. by rewrite He.
Qed.

Lemma run_setitem_table h l t e c row v :
  h !! l = Some (BufT t) → t !! e = Some row → (c < length row)%nat →
  setitem_table l e c v h = (<[l := BufT (<[e := <[c := v]> row]> t)]> h, inr ()).
Proof.
  intros Hl He Hc. unfold setitem_table.
  rewrite (bind_run _ _ _ _ _ (run_load_table _ _ _ Hl)).
  rewrite (bind_run _ _ h h row) by by apply run_lift.
  rewrite decide_True by done. done.
Qed.

Lemma run_for_seq (I : nat → gmap loc buffer → Prop) (body : nat → M unit) k n h :
  I k h →
  (∀ i h, (k ≤ i < k + n)%nat → I i h → ∃ h', body i h = (h', inr ()) ∧ I (S i) h') →
  ∃ h', for_ (seq k n) body h = (h', inr ()) ∧ I (k + n)%nat h'.
Proof.
  revert k h. induction n as [|n IH]; intros k h HI Hbody.
  - exists h. by rewrite Nat.add_0_r.
  - destruct (Hbody k h) as (h1 & Hrun & HI1); [lia|done|].
    destruct (IH (S k) h1) as (h' & Hfor & HI'); [done| |].
    { intros i h2 Hi. apply Hbody. lia. }
    exists h'. cbn [seq for_]. rewrite (bind_run _ _ _ _ _ Hrun).
    split; [done|]. by replace (k + S n)%nat with (S k + n)%nat by lia.
Qed.

(** *** Facts: shapes, entries and maxima *)

(** The entry [t[e][c]] of a nested array. *)
Definition entry {A} (t : list (list A)) (e c : nat) : option A :=
  row ← t !! e; row !! c.

Section ShapeLookup.
Context {A : Type}.

Lemma has_shape2_row m n (x : arr2 A) i r :
  has_shape2 m n x → x !! i = Some r → length r = n.
Proof. intros [_ H] Hi. exact (proj1 (Forall_lookup _ _) H i r Hi). Qed.

Lemma has_shape2_lookup m n (x : arr2 A) i :
  has_shape2 m n x → (i < m)%nat → ∃ r, x !! i = Some r ∧ length r = n.
Proof.
  intros Hx Hi. destruct (lookup_lt_is_Some_2 x i) as [r Hr].
  { destruct Hx as [-> _]. done. }
  exists r. split; [done|]. by eapply has_shape2_row.
Qed.

Lemma has_shape3_lookup a m n (x : arr3 A) i :
  has_shape3 a m n x → (i < a)%nat → ∃ p, x !! i = Some p ∧ has_shape2 m n p.
Proof.
  intros [Ha H] Hi. destruct (lookup_lt_is_Some_2 x i) as [p Hp]; [lia|].
  exists p. split; [done|]. exact (proj1 (Forall_lookup _ _) H i p Hp).
Qed.

Lemma has_shape4_lookup a s m n (x : arr4 A) i :
  has_shape4 a s m n x → (i < a)%nat → ∃ p, x !! i = Some p ∧ has_shape3 s m n p.
Proof.
  intros [Ha H] Hi. destruct (lookup_lt_is_Some_2 x i) as [p Hp]; [lia|].
  exists p. split; [done|]. exact (proj1 (Forall_lookup _ _) H i p Hp).
Qed.

Lemma has_shape2_insert m n (x : arr2 A) i r :
  has_shape2 m n x → length r = n → has_shape2 m n (<[i := r]> x).
Proof.
  intros [Hl H] Hr. split; [by rewrite length_insert|].
  by apply Forall_insert.
Qed.

Lemma has_shape3_insert a m n (x : arr3 A) i p :
  has_shape3 a m n x → has_shape2 m n p → has_shape3 a m n (<[i := p]> x).
Proof.
  intros [Hl H] Hp. split; [by rewrite length_insert|].
  by apply Forall_insert.
Qed.

Lemma has_shape4_insert a s m n (x : arr4 A) i p :
  has_shape4 a s m n x → has_shape3 s m n p → has_shape4 a s m n (<[i := p]> x).
Proof.
  intros [Hl H] Hp. split; [by rewrite length_insert|].
  by apply Forall_insert.
Qed.

Lemma has_shape2_fmap {B} (f : A → B) m n (x : arr2 A) :
  has_shape2 m n x → has_shape2 m n (map (map f) x).
Proof.
  intros [Hl H]. split; [by rewrite length_map|].
  apply Forall_map. eapply Forall_impl; [exact H|].
  cbn. intros r. by rewrite length_map.
Qed.

Lemma has_shape3_fmap {B} (f : A → B) a m n (x : arr3 A) :
  has_shape3 a m n x → has_shape3 a m n (map (map (map f)) x).
Proof.
  intros [Hl H]. split; [by rewrite length_map|].
  apply Forall_map. eapply Forall_impl; [exact H|].
  intros p. apply has_shape2_fmap.
Qed.

Lemma has_shape2_concat_nonempty m n (x : arr2 A) :
  has_shape2 m n x → (0 < m)%nat → (0 < n)%nat → concat x ≠ [].
Proof.
  intros [Hl H] Hm Hn. destruct x as [|r x]; [cbn in Hl; lia|].
  apply Forall_cons in H as [Hr _]. destruct r; [cbn in Hr; lia|done].
Qed.

Lemma has_shape3_concat_nonempty a m n (x : arr3 A) :
  has_shape3 a m n x → (0 < a)%nat → (0 < m)%nat → (0 < n)%nat →
  concat (concat x) ≠ [].
Proof.
  intros [Hl H] Ha Hm Hn. destruct x as [|p x]; [cbn in Hl; lia|].
  apply Forall_cons in H as [Hp _]. cbn. rewrite concat_app.
  pose proof (has_shape2_concat_nonempty m n p Hp Hm Hn).
  by destruct (concat p).
Qed.

(** Entries of a nested array after [t[e][c] = x]. *)
Lemma entry_insert_eq (t : list (list A)) e c row x :
  t !! e = Some row → (c < length row)%nat →
  entry (<[e := <[c := x]> row]> t) e c = Some x.
Proof.
  intros He Hc. unfold entry.
  rewrite list_lookup_insert_eq by by eapply lookup_lt_Some.
  cbn. by rewrite list_lookup_insert_eq.
Qed.

Lemma entry_insert_ne (t : list (list A)) e c e' c' row x :
  t !! e = Some row → (e', c') ≠ (e, c) →
  entry (<[e := <[c := x]> row]> t) e' c' = entry t e' c'.
Proof.
  intros He Hne. unfold entry.
  destruct (decide (e' = e)) as [->|Hee].
  - rewrite list_lookup_insert_eq by by eapply lookup_lt_Some.
    rewrite He. cbn. rewrite list_lookup_insert_ne; [done|]. congruence.
  - by rewrite list_lookup_insert_ne.
Qed.

End ShapeLookup.

Lemma amax_is_Some l : l ≠ [] → ∃ v, amax l = Some v.
Proof. destruct l; [done|]. eauto. Qed.

Lemma fabs_zero : fabs (Fin 0%Qc) = Fin 0%Qc.
Proof. unfold fabs. by destruct (Qclt_le_dec 0 0). Qed.

Lemma fmax_zero : fmax (Fin 0%Qc) (Fin 0%Qc) = Fin 0%Qc.
Proof. unfold fmax. by destruct (Qclt_le_dec 0 0). Qed.

(** The maximal magnitude of an array of zeros is zero. *)
Lemma amax_abs_zeros l :
  l ≠ [] → Forall (λ x, x = Fin 0%Qc) l → amax (map fabs l) = Some (Fin 0%Qc).
Proof.
  intros Hne Hl. destruct Hl as [|x l -> Hl]; [done|].
  cbn [amax map]. rewrite fabs_zero. f_equal. clear Hne.
  induction Hl as [|y l -> _ IH]; [done|].
  cbn [map foldl]. by rewrite fabs_zero, fmax_zero.
Qed.

(** [1/0.0] is [inf]. *)
Lemma one_over_zero : fdiv (Fin 1%Qc) (Fin 0%Qc) = PInf.
Proof. unfold fdiv. rewrite decide_True by done. reflexivity. Qed.

(** *** Facts: the normalization loops *)

Lemma Forall_concat_comp im (pl : arr2 cplx) :
  Forall (Forall (λ z, comp im z = Fin 0%Qc)) pl →
  Forall (λ x, x = Fin 0%Qc) (concat (map (map (comp im)) pl)).
Proof.
  intros H. apply Forall_concat, Forall_map.
  eapply Forall_impl; [exact H|]. cbn. intros r Hr. by apply Forall_map.
Qed.

Lemma map_nonempty {A B} (f : A → B) l : l ≠ [] → map f l ≠ [].
Proof. by destruct l. Qed.

Section Normalization.
(** The locations of the difference, of the split input and of the two tables,
    their extents, and the entry [(es, cs)] whose component [im] is zero. *)
Variables (ld ls lr li : loc).
Hypothesis Hdist : ld ≠ ls ∧ ld ≠ lr ∧ ld ≠ li ∧ ls ≠ lr ∧ ls ≠ li ∧ lr ≠ li.
Variables (nE nC wx wy nS sx sy : nat).
Hypotheses (Hwx : (0 < wx)%nat) (Hwy : (0 < wy)%nat).
Hypotheses (HnS : (0 < nS)%nat) (Hsx : (0 < sx)%nat) (Hsy : (0 < sy)%nat).
Variables (im : bool) (es cs : nat).

(** The iteration [(es, cs)] comes before the iteration [(e, c)]. *)
Definition processed (e c : nat) : Prop := (es < e)%nat ∨ (es = e ∧ (cs < c)%nat).

(** The invariant of the two loops at iteration [(e, c)]: the four arrays are in
    the store with their shapes; the table entry of [(es, cs)] is [inf] once
    its iteration is done, and before it the difference there is still zero. *)
Definition loop_inv (e c : nat) (h : gmap loc buffer) : Prop :=
  ∃ D S Tr Ti,
    h !! ld = Some (BufC D) ∧ h !! ls = Some (BufR S) ∧
    h !! lr = Some (BufT Tr) ∧ h !! li = Some (BufT Ti) ∧
    has_shape4 nE nC wx wy D ∧ has_shape4 nE nS sx sy S ∧
    has_shape2 nE nC Tr ∧ has_shape2 nE nC Ti ∧
    (processed e c → entry (if im then Ti else Tr) es cs = Some PInf) ∧
    (¬ processed e c →
       ∃ pl, entry D es cs = Some pl ∧ Forall (Forall (λ z, comp im z = Fin 0%Qc)) pl).

Lemma channel_body_inv e c h :
  (e < nE)%nat → (c < nC)%nat → loop_inv e c h →
  ∃ h', channel_body true (np_real ld) (np_imag ld) lr li e c h = (h', inr ())
        ∧ loop_inv e (S c) h'.
Proof.
  destruct Hdist as (Hds & Hdr & Hdi & Hsr & Hsi & Hri).
  intros He Hc (D & S & Tr & Ti & HD & HS & HTr & HTi & ShD & ShS & ShTr & ShTi
                & Hproc & Hzero).
  destruct (has_shape4_lookup _ _ _ _ D e ShD He) as (row & Hrow & Shrow).
  destruct (has_shape3_lookup _ _ _ row c Shrow Hc) as (pl & Hpl & Shpl).
  destruct (has_shape2_lookup _ _ Tr e ShTr He) as (rr & Hrr & Lrr).
  destruct (has_shape2_lookup _ _ Ti e ShTi He) as (ri & Hri' & Lri).
  assert (Hne : ∀ b, map fabs (concat (map (map (comp b)) pl)) ≠ []).
  { intros b. apply map_nonempty.
    eapply has_shape2_concat_nonempty; [by apply has_shape2_fmap|done..]. }
  destruct (amax_is_Some _ (Hne false)) as [vr Hvr].
  destruct (amax_is_Some _ (Hne true)) as [vi Hvi].
  set (sr := fdiv (Fin 1%Qc) vr). set (si := fdiv (Fin 1%Qc) vi).
  set (pl1 := map (map (scale_comp false sr)) pl).
  set (pl2 := map (map (scale_comp true si)) pl1).
  set (Tr1 := <[e := <[c := sr]> rr]> Tr).
  set (Ti1 := <[e := <[c := si]> ri]> Ti).
  set (row1 := <[c := pl1]> row).
  set (D1 := <[e := row1]> D).
  set (D2 := <[e := <[c := pl2]> row1]> D1).
  set (h1 := <[lr := BufT Tr1]> h).
  set (h2 := <[li := BufT Ti1]> h1).
  set (h3 := <[ld := BufC D1]> h2).
  set (h4 := <[ld := BufC D2]> h3).
  assert (Hrow1 : D1 !! e = Some row1).
  { apply list_lookup_insert_eq. by eapply lookup_lt_Some. }
  assert (Hpl1 : row1 !! c = Some pl1).
  { apply list_lookup_insert_eq. by eapply lookup_lt_Some. }
  assert (Hrun : channel_body true (np_real ld) (np_imag ld) lr li e c h = (h4, inr ())).
  { unfold channel_body.
    rewrite (bind_run _ _ h h (sr, si)).
    2:{ rewrite (bind_run _ _ h h vr)
          by (by eapply (run_amax_abs_ec h false ld D e c row pl)).
        rewrite (bind_run _ _ h h vi)
          by (by eapply (run_amax_abs_ec h true ld D e c row pl)).
        done. }
    cbv zeta. cbn [fst snd].
    rewrite (bind_run _ _ h h1 ())
      by (apply (run_setitem_table h lr Tr e c rr sr); [done|done|lia]).
    rewrite (bind_run _ _ h1 h2 ()).
    2:{ apply (run_setitem_table h1 li Ti e c ri si); [|done|lia].
        unfold h1. by rewrite lookup_insert_ne. }
    rewrite (bind_run _ _ h2 h3 ()).
    2:{ apply (run_imul_ec h2 false ld D e c row pl sr); [|done|done].
        unfold h2, h1. by rewrite !lookup_insert_ne. }
    apply (run_imul_ec h3 true ld D1 e c row1 pl1 si); [|done|done].
    unfold h3. by rewrite lookup_insert_eq. }
  exists h4. split; [done|].
  exists D2, S, Tr1, Ti1.
  assert (Shpl1 : has_shape2 wx wy pl1) by by apply has_shape2_fmap.
  assert (Shpl2 : has_shape2 wx wy pl2) by by apply has_shape2_fmap.
  assert (Shrow1 : has_shape3 nC wx wy row1) by by apply has_shape3_insert.
  assert (ShD1 : has_shape4 nE nC wx wy D1) by by apply has_shape4_insert.
  split_and!.
  - unfold h4. by rewrite lookup_insert_eq.
  - unfold h4, h3, h2, h1. by rewrite !lookup_insert_ne.
  - unfold h4, h3, h2, h1. rewrite !lookup_insert_ne by done.
    by rewrite lookup_insert_eq.
  - unfold h4, h3, h2. rewrite !lookup_insert_ne by done.
    by rewrite lookup_insert_eq.
  - apply has_shape4_insert; [done|]. by apply has_shape3_insert.
  - done.
  - apply has_shape2_insert; [done|]. by rewrite length_insert.
  - apply has_shape2_insert; [done|]. by rewrite length_insert.
  - intros Hp.
    destruct (decide ((es, cs) = (e, c))) as [[= -> ->]|Hne'].
    + assert (Hnp : ¬ processed e c) by (intros [?|[_ ?]]; lia).
      destruct (Hzero Hnp) as (pl' & Hpl' & Hz).
      assert (pl' = pl) as ->.
      { unfold entry in Hpl'. rewrite Hrow in Hpl'. cbn in Hpl'. congruence. }
      assert (Hmax : amax (map fabs (concat (map (map (comp im)) pl)))
                     = Some (Fin 0%Qc)).
      { apply amax_abs_zeros; [|by apply Forall_concat_comp].
        eapply has_shape2_concat_nonempty; [by apply has_shape2_fmap|done..]. }
      destruct im.
      * assert (vi = Fin 0%Qc) as Hv by congruence.
        unfold Ti1. rewrite (entry_insert_eq Ti e c ri si) by (done || lia).
        unfold si. by rewrite Hv, one_over_zero.
      * assert (vr = Fin 0%Qc) as Hv by congruence.
        unfold Tr1. rewrite (entry_insert_eq Tr e c rr sr) by (done || lia).
        unfold sr. by rewrite Hv, one_over_zero.
    + assert (Hp' : processed e c).
      { destruct Hp as [?|[-> ?]]; [by left|]. right. split; [done|].
        assert (cs ≠ c) by congruence. lia. }
      destruct im.
      * unfold Ti1. rewrite (entry_insert_ne Ti e c es cs ri si) by done. auto.
      * unfold Tr1. rewrite (entry_insert_ne Tr e c es cs rr sr) by done. auto.
  - intros Hnp.
    assert (Hnp' : ¬ processed e c).
    { intros [?|[-> ?]]; apply Hnp; [by left|]. right. split; [done|lia]. }
    assert (Hne' : (es, cs) ≠ (e, c)).
    { intros [= -> ->]. apply Hnp. right. split; [done|lia]. }
    destruct (Hzero Hnp') as (pl' & Hpl' & Hz).
    exists pl'. split; [|done].
    unfold D2. rewrite (entry_insert_ne D1 e c es cs row1 pl2) by done.
    unfold D1, row1. by rewrite (entry_insert_ne D e c es cs row pl1).
Qed.

Lemma loop_inv_next_contrast e h : (cs < nC)%nat → loop_inv e nC h → loop_inv (S e) 0 h.
Proof.
  intros Hcs (D & S & Tr & Ti & HD & HS & HTr & HTi & ShD & ShS & ShTr & ShTi
              & Hproc & Hzero).
  exists D, S, Tr, Ti. split_and!; try done.
  - intros [Hlt|[_ ?]]; [|lia]. apply Hproc.
    destruct (decide (es = e)) as [->|?]; [by right|left; lia].
  - intros Hnp. apply Hzero. intros [?|[-> ?]]; apply Hnp; left; lia.
Qed.

Lemma contrast_body_inv e h :
  (e < nE)%nat → (cs < nC)%nat → loop_inv e 0 h →
  ∃ h', contrast_body true nC (RRef ls PSelf) (np_real ld) (np_imag ld) lr li e h
          = (h', inr ())
        ∧ loop_inv (S e) 0 h'.
Proof.
  destruct Hdist as (Hds & Hdr & Hdi & Hsr & Hsi & Hri).
  intros He Hcs (D & S & Tr & Ti & HD & HS & HTr & HTi & ShD & ShS & ShTr & ShTi
                 & Hproc & Hzero).
  destruct (has_shape4_lookup _ _ _ _ S e ShS He) as (srow & Hsrow & Shsrow).
  destruct (amax_is_Some (map fabs (concat (concat srow)))) as [mx Hmx].
  { apply map_nonempty. by eapply has_shape3_concat_nonempty. }
  set (S1 := <[e := map (map (map (λ x, fmul x (fdiv (Fin 1%Qc) mx)))) srow]> S).
  set (h1 := <[ls := BufR S1]> h).
  assert (Hinv1 : loop_inv e 0 h1).
  { exists D, S1, Tr, Ti. unfold h1.
    rewrite lookup_insert_eq, !lookup_insert_ne by done.
    split_and!; try done.
    apply has_shape4_insert; [done|]. by apply has_shape3_fmap. }
  destruct (run_for_seq (loop_inv e)
              (channel_body true (np_real ld) (np_imag ld) lr li e) 0 nC h1 Hinv1)
    as (h' & Hfor & Hinv').
  { intros c h2 Hc Hinv2. apply channel_body_inv; [done|lia|done]. }
  exists h'. split; [|by apply loop_inv_next_contrast].
  unfold contrast_body.
  rewrite (bind_run _ _ h h1 ()); [done|].
  rewrite (bind_run _ _ h h mx) by (by eapply run_amax_abs_e).
  by apply run_imul_e.
Qed.

(** The loop over the contrasts leaves [inf] in the table entry of [(es, cs)]. *)
Lemma normalization_loop h :
  (es < nE)%nat → (cs < nC)%nat → loop_inv 0 0 h →
  ∃ h' D S Tr Ti,
    for_ (seq 0 nE)
      (contrast_body true nC (RRef ls PSelf) (np_real ld) (np_imag ld) lr li) h
      = (h', inr ())
    ∧ h' !! ld = Some (BufC D) ∧ h' !! ls = Some (BufR S)
    ∧ h' !! lr = Some (BufT Tr) ∧ h' !! li = Some (BufT Ti)
    ∧ entry (if im then Ti else Tr) es cs = Some PInf.
Proof.
  intros Hes Hcs Hinv.
  destruct (run_for_seq (λ e, loop_inv e 0)
              (contrast_body true nC (RRef ls PSelf) (np_real ld) (np_imag ld) lr li)
              0 nE h Hinv) as (h' & Hfor & Hinv').
  { intros e h1 He Hinv1. apply contrast_body_inv; [lia|done|done]. }
  destruct Hinv' as (D & S & Tr & Ti & HD & HS & HTr & HTi & _ & _ & _ & _
                     & Hproc & _).
  exists h', D, S, Tr, Ti. split_and!; try done.
  apply Hproc. left. lia.
Qed.

End Normalization.

(** *** Facts: the arrays [reformattingKspaceForSpark] builds *)

Lemma has_shape4_window {A} a c m n x0 x1 y0 y1 (d : arr4 A) :
  has_shape4 a c m n d →
  has_shape4 a c (slice_len m x0 x1) (slice_len n y0 y1) (window x0 x1 y0 y1 d).
Proof.
  intros [Ha Hd]. unfold window. split; [by rewrite length_map|].
  apply Forall_map. eapply Forall_impl; [exact Hd|]. cbn.
  intros row [Hc Hrow]. split; [by rewrite length_map|].
  apply Forall_map. eapply Forall_impl; [exact Hrow|]. cbn.
  intros pl [Hm Hpl]. split.
  - by rewrite length_map, length_slice, Hm.
  - apply Forall_map. apply Forall_take, Forall_drop.
    eapply Forall_impl; [exact Hpl|]. cbn. intros r Hr.
    by rewrite length_slice, Hr.
Qed.

(** The elementwise difference of two arrays of one shape. *)
Definition sub4 (a b : arr4 cplx) : arr4 cplx :=
  zip_with (zip_with (zip_with (zip_with csub))) a b.

Lemma Forall2_of_shapes {A B} (P : A → Prop) (Q : B → Prop) (R : A → B → Prop)
    n (a : list A) (b : list B) :
  length a = n → length b = n → Forall P a → Forall Q b →
  (∀ x y, P x → Q y → R x y) → Forall2 R a b.
Proof.
  intros Ha Hb HP HQ HR.
  apply Forall2_same_length_lookup_2; [congruence|].
  intros i x y Hx Hy. apply HR.
  - exact (proj1 (Forall_lookup _ _) HP i x Hx).
  - exact (proj1 (Forall_lookup _ _) HQ i y Hy).
Qed.

Lemma ew_sub4 a c m n (x y : arr4 cplx) :
  has_shape4 a c m n x → has_shape4 a c m n y →
  ew (ew (ew (ew (λ u v, Some (csub u v))))) x y = Some (sub4 x y).
Proof.
  intros [Hx Hxs] [Hy Hys]. unfold sub4.
  apply ew_zip_with.
  eapply (Forall2_of_shapes _ _ _ a); [done..|].
  intros r r' [Hr Hrs] [Hr' Hrs']. apply ew_zip_with.
  eapply (Forall2_of_shapes _ _ _ c); [done..|].
  intros p p' [Hp Hps] [Hp' Hps']. apply ew_zip_with.
  eapply (Forall2_of_shapes _ _ _ m); [done..|].
  cbn. intros q q' Hq Hq'. apply ew_zip_with.
  apply Forall2_same_length_all; [done|congruence].
Qed.

Lemma has_shape4_zip_with {A B D} (f : A → B → D) a c m n (x : arr4 A) (y : arr4 B) :
  has_shape4 a c m n x → has_shape4 a c m n y →
  has_shape4 a c m n (zip_with (zip_with (zip_with (zip_with f))) x y).
Proof.
  intros [Hx Hxs] [Hy Hys]. split; [rewrite length_zip_with; lia|].
  apply Forall_lookup. intros i r (rx & ry & -> & Hrx & Hry)%lookup_zip_with_Some.
  destruct (proj1 (Forall_lookup _ _) Hxs i rx Hrx) as [Hlx Hrxs].
  destruct (proj1 (Forall_lookup _ _) Hys i ry Hry) as [Hly Hrys].
  split; [rewrite length_zip_with; lia|].
  apply Forall_lookup. intros j p (px & py & -> & Hpx & Hpy)%lookup_zip_with_Some.
  destruct (proj1 (Forall_lookup _ _) Hrxs j px Hpx) as [Hmx Hpxs].
  destruct (proj1 (Forall_lookup _ _) Hrys j py Hpy) as [Hmy Hpys].
  split; [rewrite length_zip_with; lia|].
  apply Forall_lookup. intros k q (qx & qy & -> & Hqx & Hqy)%lookup_zip_with_Some.
  rewrite length_zip_with.
  rewrite (proj1 (Forall_lookup _ _) Hpxs k qx Hqx).
  rewrite (proj1 (Forall_lookup _ _) Hpys k qy Hqy). lia.
Qed.

Lemma entry_zip_with {A B D} (f : A → B → D) (x : list (list A)) (y : list (list B))
    e c u v :
  entry x e c = Some u → entry y e c = Some v →
  entry (zip_with (zip_with f) x y) e c = Some (f u v).
Proof.
  unfold entry. intros Hu Hv.
  destruct (x !! e) as [rx|] eqn:Hx; [|done].
  destruct (y !! e) as [ry|] eqn:Hy; [|done]. cbn in Hu, Hv.
  rewrite lookup_zip_with, Hx, Hy. cbn.
  by rewrite lookup_zip_with, Hu, Hv.
Qed.

(** The concatenation of the real and imaginary parts along the channel axis. *)
Lemma has_shape4_split a c m n (d : arr4 cplx) :
  has_shape4 a c m n d →
  has_shape4 a (c + c) m n
    (zip_with app (map (map (map (map fst))) d) (map (map (map (map snd))) d)).
Proof.
  intros [Ha Hd]. split; [rewrite length_zip_with, !length_map; lia|].
  apply Forall_lookup. intros i r (rx & ry & -> & Hrx & Hry)%lookup_zip_with_Some.
  rewrite lookup_map in Hrx. rewrite lookup_map in Hry.
  destruct (d !! i) as [row|] eqn:Hrow; [|done].
  cbn in Hrx, Hry. injection Hrx as <-. injection Hry as <-.
  pose proof (proj1 (Forall_lookup _ _) Hd i row Hrow) as Hsh.
  pose proof (has_shape3_fmap fst _ _ _ _ Hsh) as [H1 H1s].
  pose proof (has_shape3_fmap snd _ _ _ _ Hsh) as [H2 H2s].
  split; [rewrite length_app; lia|]. by apply Forall_app.
Qed.

Lemma has_shape2_replicate {A} m n (x : A) :
  has_shape2 m n (replicate m (replicate n x)).
Proof.
  split; [by rewrite length_replicate|].
  apply Forall_replicate. by rewrite length_replicate.
Qed.

Lemma run_alloc h b :
  ∃ l, alloc b h = (<[l := b]> h, inr l) ∧ h !! l = None.
Proof.
  exists (fresh (dom h)). split; [done|]. apply not_elem_of_dom, is_fresh.
Qed.

(** C2 (amended): with normalization enabled, well-shaped inputs and a
    non-empty ACS window, when the real (or imaginary) part of the ACS
    difference of contrast [es] and channel [cs] is zero everywhere, the call
    returns (it raises nothing) and the entry [(es, cs)] of
    [chan_scale_factors_real] (or [chan_scale_factors_imag]) is [inf]. *)
Theorem reformatting_zero_residual_gives_inf (h : gmap loc buffer)
    (inputKspace kspaceOriginal : loc) (inp orig : arr4 cplx)
    (acsregionX acsregionY : list Z) (acsx acsy x0 x1 y0 y1 : Z)
    (nE nC m n : nat) (im : bool) (es cs : nat) (po pi : arr2 cplx) :
  h !! inputKspace = Some (BufC inp) → h !! kspaceOriginal = Some (BufC orig) →
  has_shape4 nE nC m n inp → has_shape4 nE nC m n orig →
  getitem acsregionX 0 = Some x0 → getitem acsregionX (acsx - 1) = Some x1 →
  getitem acsregionY 0 = Some y0 → getitem acsregionY (acsy - 1) = Some y1 →
  (0 < slice_len m x0 (x1 + 1))%nat → (0 < slice_len n y0 (y1 + 1))%nat →
  entry (window x0 (x1 + 1) y0 (y1 + 1) orig) es cs = Some po →
  entry (window x0 (x1 + 1) y0 (y1 + 1) inp) es cs = Some pi →
  Forall (Forall (λ z, comp im z = Fin 0%Qc)) (zip_with (zip_with csub) po pi) →
  ∃ h' out,
    reformattingKspaceForSpark inputKspace kspaceOriginal acsregionX acsregionY
      acsx acsy true h = (h', inr out)
    ∧ entry (if im then chan_scale_factors_imag out else chan_scale_factors_real out)
        es cs = Some PInf.
Proof.
  intros Hin Horig Shin Shorig Hx0 Hx1 Hy0 Hy1 Hwx Hwy Hpo Hpi Hzero.
  set (wx := slice_len m x0 (x1 + 1)) in *.
  set (wy := slice_len n y0 (y1 + 1)) in *.
  set (crop := window x0 (x1 + 1) y0 (y1 + 1) orig) in *.
  set (grappa := window x0 (x1 + 1) y0 (y1 + 1) inp) in *.
  assert (Shcrop : has_shape4 nE nC wx wy crop) by by apply has_shape4_window.
  assert (Shgrappa : has_shape4 nE nC wx wy grappa) by by apply has_shape4_window.
  assert (Hes : (es < nE)%nat ∧ (cs < nC)%nat).
  { unfold entry in Hpo. destruct (crop !! es) as [row|] eqn:Hrow; [|done].
    cbn in Hpo. destruct Shcrop as [<- Hs].
    split; [by eapply lookup_lt_Some|].
    destruct (proj1 (Forall_lookup _ _) Hs es row Hrow) as [<- _].
    by eapply lookup_lt_Some. }
  destruct Hes as [Hes Hcs].
  assert (Hm : (0 < m)%nat) by (pose proof (slice_len_le m x0 (x1 + 1)); lia).
  assert (Hn : (0 < n)%nat) by (pose proof (slice_len_le n y0 (y1 + 1)); lia).
  assert (HnE : length inp = nE) by apply Shin.
  assert (HnC : length (default [] (head inp)) = nC).
  { destruct Shin as [Hl Hs]. destruct inp as [|row inp']; [cbn in Hl; lia|].
    apply Forall_cons in Hs as [[Hr _] _]. done. }
  (* the arrays the function creates *)
  set (D0 := sub4 crop grappa).
  set (S0 := zip_with app (map (map (map (map fst))) inp)
                          (map (map (map (map snd))) inp)).
  set (T0 := replicate nE (replicate nC (Fin 0%Qc))).
  destruct (run_alloc h (BufC D0)) as (ld & Hald & Hld).
  set (h1 := <[ld := BufC D0]> h) in *.
  destruct (run_alloc h1 (BufC inp)) as (lk & Halk & Hlk).
  set (h2 := <[lk := BufC inp]> h1) in *.
  destruct (run_alloc h2 (BufR S0)) as (ls & Hals & Hls).
  set (h3 := <[ls := BufR S0]> h2) in *.
  destruct (run_alloc h3 (BufT T0)) as (lr & Halr & Hlr).
  set (h4 := <[lr := BufT T0]> h3) in *.
  destruct (run_alloc h4 (BufT T0)) as (li & Hali & Hli).
  set (h5 := <[li := BufT T0]> h4) in *.
  assert (H1d : h1 !! ld = Some (BufC D0)) by apply lookup_insert_eq.
  assert (Hdk : ld ≠ lk) by congruence.
  assert (H2k : h2 !! lk = Some (BufC inp)) by apply lookup_insert_eq.
  assert (H2d : h2 !! ld = Some (BufC D0))
    by (unfold h2; rewrite lookup_insert_ne; [done|congruence]).
  assert (Hds : ld ≠ ls) by congruence.
  assert (Hks : lk ≠ ls) by congruence.
  assert (H3s : h3 !! ls = Some (BufR S0)) by apply lookup_insert_eq.
  assert (H3d : h3 !! ld = Some (BufC D0))
    by (unfold h3; rewrite lookup_insert_ne; [done|congruence]).
  assert (Hsr : ls ≠ lr) by congruence.
  assert (Hdr : ld ≠ lr) by congruence.
  assert (H4r : h4 !! lr = Some (BufT T0)) by apply lookup_insert_eq.
  assert (H4s : h4 !! ls = Some (BufR S0))
    by (unfold h4; rewrite lookup_insert_ne; [done|congruence]).
  assert (H4d : h4 !! ld = Some (BufC D0))
    by (unfold h4; rewrite lookup_insert_ne; [done|congruence]).
  assert (Hri : lr ≠ li) by congruence.
  assert (Hsi : ls ≠ li) by congruence.
  assert (Hdi : ld ≠ li) by congruence.
  assert (H5i : h5 !! li = Some (BufT T0)) by apply lookup_insert_eq.
  assert (H5r : h5 !! lr = Some (BufT T0))
    by (unfold h5; rewrite lookup_insert_ne; [done|congruence]).
  assert (H5s : h5 !! ls = Some (BufR S0))
    by (unfold h5; rewrite lookup_insert_ne; [done|congruence]).
  assert (H5d : h5 !! ld = Some (BufC D0))
    by (unfold h5; rewrite lookup_insert_ne; [done|congruence]).
  (* the invariant holds before the loops *)
  assert (Hinv : loop_inv ld ls lr li nE nC wx wy (nC + nC) m n im es cs 0 0 h5).
  { exists D0, S0, T0, T0.
    split_and!; [done|done|done|done|..].
    - by apply has_shape4_zip_with.
    - by apply has_shape4_split.
    - apply has_shape2_replicate.
    - apply has_shape2_replicate.
    - intros [?|[_ ?]]; lia.
    - intros _. exists (zip_with (zip_with csub) po pi). split; [|done].
      unfold D0, sub4. by apply entry_zip_with. }
  destruct (normalization_loop ld ls lr li
              ltac:(done) nE nC wx wy (nC + nC) m n Hwx Hwy ltac:(lia) Hm Hn
              im es cs h5 Hes Hcs Hinv)
    as (h' & D & S & Tr & Ti & Hloop & HD & HS & HTr & HTi & Hinf).
  exists h', (SparkData S (expand_dims22 (map (map (map (map fst))) D))
                (expand_dims22 (map (map (map (map snd))) D)) Tr Ti).
  split; [|by destruct im].
  unfold reformattingKspaceForSpark.
  rewrite (bind_run _ _ _ _ _ (run_load_complex _ _ _ Hin)).
  rewrite (bind_run _ _ _ _ _ (run_load_complex _ _ _ Horig)).
  rewrite (bind_run _ _ h h x0) by by apply run_lift.
  rewrite (bind_run _ _ h h x1) by by apply run_lift.
  rewrite (bind_run _ _ h h y0) by by apply run_lift.
  rewrite (bind_run _ _ h h y1) by by apply run_lift.
  cbv zeta.
  rewrite (bind_run _ _ h h D0)
    by (apply run_lift; by apply (ew_sub4 nE nC wx wy)).
  rewrite (bind_run _ _ _ _ _ Hald).
  rewrite (bind_run _ _ _ _ _ Halk).
  rewrite (bind_run _ _ h2 h2 (map (map (map (map fst))) inp)).
  2:{ apply (run_load_real _ _ (BufC inp)); [|done].
      unfold h2. apply lookup_insert_eq. }
  rewrite (bind_run _ _ h2 h2 (map (map (map (map snd))) inp)).
  2:{ apply (run_load_real _ _ (BufC inp)); [|done].
      unfold h2. apply lookup_insert_eq. }
  rewrite (bind_run _ _ _ _ _ Hals).
  rewrite HnE, HnC.
  rewrite (bind_run _ _ _ _ _ Halr).
  rewrite (bind_run _ _ _ _ _ Hali).
  rewrite (bind_run _ _ _ _ _ Hloop).
  rewrite (bind_run _ _ h' h' S) by by apply (run_load_real _ _ (BufR S)).
  rewrite (bind_run _ _ h' h' (map (map (map (map fst))) D))
    by by apply (run_load_real _ _ (BufC D)).
  rewrite (bind_run _ _ h' h' (map (map (map (map snd))) D))
    by by apply (run_load_real _ _ (BufC D)).
  rewrite (bind_run _ _ _ _ _ (run_load_table _ _ _ HTr)).
  rewrite (bind_run _ _ _ _ _ (run_load_table _ _ _ HTi)).
  done.
Qed.

(** *** A run on a small store

    One contrast, one channel, 2 x 2 samples, the whole array as ACS region.
    The reconstruction [input_ex] has the real parts of the measured
    [original_ex], so the real part of the difference is zero. *)
Definition fz (a b : Z) : cplx := (Fin (Q2Qc (inject_Z a)), Fin (Q2Qc (inject_Z b))).
Definition input_ex : arr4 cplx := [[ [[fz 1 2; fz 3 4]; [fz 5 6; fz 7 8]] ]].
Definition original_ex : arr4 cplx := [[ [[fz 1 3; fz 3 4]; [fz 5 6; fz 7 10]] ]].
Definition store_ex : gmap loc buffer :=
  <[1%nat := BufC original_ex]> (<[0%nat := BufC input_ex]> ∅).

(** C2 (counterexample): with normalization enabled and a real difference that
    is zero everywhere, the call returns, and the real scale factor it returns
    is [inf]. *)
Lemma reformatting_returns_inf_counterexample :
  ∃ out,
    (reformattingKspaceForSpark 0%nat 1%nat [0; 1] [0; 1] 2 2 true store_ex).2
      = inr out
    ∧ chan_scale_factors_real out = [[PInf]].
Proof. eexists. split; vm_compute; reflexivity. Qed.

Lemma Qc_closed_ne (a b : Qc) : Qeq_bool a b = false → a ≠ b.
Proof. intros H ->. by rewrite Qeq_bool_refl in H. Qed.

(** C2 (witness): the same run. *)
Lemma reformatting_zero_residual_gives_inf_witness :
  ∃ h' out,
    reformattingKspaceForSpark 0%nat 1%nat [0; 1] [0; 1] 2 2 true store_ex
      = (h', inr out)
    ∧ entry (chan_scale_factors_real out) 0 0 = Some PInf.
Proof.
  apply (reformatting_zero_residual_gives_inf store_ex 0%nat 1%nat
           input_ex original_ex [0; 1] [0; 1] 2 2 0 1 0 1 1 1 2 2 false 0 0
           [[fz 1 3; fz 3 4]; [fz 5 6; fz 7 10]]
           [[fz 1 2; fz 3 4]; [fz 5 6; fz 7 8]]).
  - reflexivity.
  - reflexivity.
  - repeat (split || constructor).
  - repeat (split || constructor).
  - reflexivity.
  - reflexivity.
  - reflexivity.
  - reflexivity.
  - vm_compute. lia.
  - vm_compute. lia.
  - reflexivity.
  - reflexivity.
  - repeat constructor; cbn [comp csub fst snd fz fsub fneg fadd]; f_equal; ring.
Defined.

(** C10 (witness): the same store, both arrays kept. *)
Lemma reformatting_keeps_arguments_witness :
  let h' := (reformattingKspaceForSpark 0%nat 1%nat [0; 1] [0; 1] 2 2 true store_ex).1 in
  h' !! 0%nat = Some (BufC input_ex) ∧ h' !! 1%nat = Some (BufC original_ex).
Proof.
  apply (reformatting_keeps_arguments store_ex 0%nat 1%nat (BufC input_ex)
           (BufC original_ex) [0; 1] [0; 1] 2 2 true); reflexivity.
Defined.

(** Two networks that return fixed corrections for one 1 x 2 channel. *)
Definition f32 (a : Z) : Ieee.float := Ieee.of_Z Ieee.binary32 a.
Definition f64 (a : Z) : Ieee.float := Ieee.of_Z Ieee.binary64 a.
Definition real_model_ex : model := λ _, ([[ [[f32 2; f32 4]] ]], []).
Definition imag_model_ex : model := λ _, ([[ [[f32 8; f32 4]] ]], []).


(** On these values the divisions are exact: the result is [[2+3j; 4+3j]]. *)
Example applySparkCorrection_example :
  applySparkCorrection Ieee.binary64 [[(f64 1, f64 1); (f64 2, f64 2)]] []
    real_model_ex imag_model_ex (f64 2) (f64 4)
  = Some [[(f64 2, f64 3); (f64 4, f64 3)]].
Proof. vm_compute. reflexivity. Qed.

(** A channel whose largest magnitude is 6 and a target 5 in it: the stored
    scale factor is the double nearest to [1/6], and the scaled target, as
    the network is trained on it, the float32 nearest to [5] times the
    factor. *)
Definition scale_ex : Ieee.float := Ieee.fdiv Ieee.binary64 (f64 1) (f64 6).
Definition scaled_target_ex : Ieee.float :=
  Ieee.cast Ieee.binary32 (Ieee.fmul Ieee.binary64 (f64 5) scale_ex).
Definition target_model_ex : model := λ _, ([[ [[scaled_target_ex]] ]], []).


End Spark.

(** ** Slice shifting (cell 10): the shift amounts, composition, entries *)
Module ShiftFacts.
Import NumPy Shift.

(** *** The shift amounts, in float64 arithmetic *)

(** [float(z)] for a Python integer: the nearest double; OverflowError when
    it is too large. *)
Definition to_float (z : Z) : option Ieee.float :=
  if Z.abs z <? 2 ^ 1024 - 2 ^ 970 then Some (Ieee.of_Z Ieee.binary64 z) else None.

(** [z / 2] for a Python integer: true division, correctly rounded;
    OverflowError when the quotient is too large for a float. *)
Definition half (z : Z) : option Ieee.float :=
  if Z.abs z <? 2 ^ 1025 - 2 ^ 971
  then Some (binary_normalize 53 1024 z (-1) false)
  else None.

(** [np.round] of a float64: the nearest integer, a tie to the even one. *)
Definition rint (x : Ieee.float) : Ieee.float :=
  match x with
  | S754_finite s m e =>
      if 0 <=? e then x
      else
        let d := 2 ^ (- e) in
        let q := Z.pos m / d in
        let z := match 2 * (Z.pos m `mod` d) ?= d with
                 | Lt => q
                 | Gt => q + 1
                 | Eq => if Z.even q then q else q + 1
                 end in
        binary_normalize 53 1024 (if s then - z else z) 0 s
  | _ => x
  end.

(** [astype(int)] of a float64: the conversion to int64 truncates, and a
    value outside the int64 range, an infinity or a NaN gives [-2^63] (the
    result of the conversion instruction of x86-64). *)
Definition astype_int (x : Ieee.float) : Z :=
  match x with
  | S754_zero _ => 0
  | S754_finite s m e =>
      let a := if 0 <=? e then Z.pos m * 2 ^ e else Z.pos m / 2 ^ (- e) in
      let v := if s then - a else a in
      if (- 2 ^ 63 <=? v) && (v <? 2 ^ 63) then v else - 2 ^ 63
  | _ => - 2 ^ 63
  end.

(** [np.linspace(start, stop, num)] with its default [endpoint=True], on two
    Python floats:
<<
    div = num - 1
    delta = stop - start
    y = arange(0, num, dtype=float64)
    if div > 0:
        step = delta / div
        if step == 0: y /= div; y *= delta
        else: y *= step
    else:
        y = y * delta
    y += start
    if num > 1: y[-1] = stop
>>
    A negative [num] raises ValueError. *)
Definition linspace (start stop : Ieee.float) (num : Z) : option (list Ieee.float) :=
  if num <? 0 then None
  else
    let div := num - 1 in
    let delta := Ieee.fsub Ieee.binary64 stop start in
    let y := map (λ i, Ieee.of_Z Ieee.binary64 (Z.of_nat i)) (seq 0 (Z.to_nat num)) in
    let y :=
      if 0 <? div then
        let step := Ieee.fdiv Ieee.binary64 delta (Ieee.of_Z Ieee.binary64 div) in
        if Ieee.feqb Ieee.binary64 step Ieee.fzero
        then map (λ v, Ieee.fmul Ieee.binary64
                         (Ieee.fdiv Ieee.binary64 v (Ieee.of_Z Ieee.binary64 div))
                         delta) y
        else map (λ v, Ieee.fmul Ieee.binary64 v step) y
      else map (λ v, Ieee.fmul Ieee.binary64 v delta) y in
    let y := map (λ v, Ieee.fadd Ieee.binary64 v start) y in
    Some (if 1 <? num then <[Z.to_nat (num - 1) := stop]> y else y).

(**
<<
    if(fovshift > 0):
        shifts = np.round(np.linspace(-(numslices / 2 - 1),numslices/2,numslices) * N / fovshift ).astype(int)
    else:
        shifts = np.zeros((numslices)).astype(int)
>>
    [numslices / 2] is Python's true division, and the array is multiplied and
    divided by the floats of the Python integers [N] and [fovshift].
    [np.zeros] raises ValueError for a negative extent. *)
Definition shifts (numslices N fovshift : Z) : option (list Z) :=
  if 0 <? fovshift then
    h ← half numslices;
    l ← linspace
          (SFopp (Ieee.fsub Ieee.binary64 h (Ieee.of_Z Ieee.binary64 1))) h numslices;
    n ← to_float N;
    f ← to_float fovshift;
    Some (map (λ v,
            astype_int
              (rint (Ieee.fdiv Ieee.binary64 (Ieee.fmul Ieee.binary64 v n) f))) l)
  else if numslices <? 0 then None
  else Some (replicate (Z.to_nat numslices) 0).

(** The entry [(c, ss, i, j)] of a 4-d array. *)
Definition entry4 {A} (x : arr4 A) (c ss i j : nat) : option A :=
  xa ← x !! c; xs ← xa !! ss; r ← xs !! i; r !! j.

(** The entry [(c, i, j)] of a 3-d array. *)
Definition entry3 {A} (x : arr3 A) (c i j : nat) : option A :=
  xs ← x !! c; r ← xs !! i; r !! j.

Section RollFacts.
Context {A : Type}.

(** The entry at [i] of a rolled array comes from [(i - k) mod n]. *)
Lemma lookup_roll (k : Z) (l : list A) (i : nat) :
  (i < length l)%nat →
  roll k l !! i = l !! Z.to_nat ((Z.of_nat i - k) `mod` Z.of_nat (length l)).
Proof.
  intros Hi.
  assert (Hn : length l ≠ 0%nat) by lia.
  assert (Hr : 0 ≤ k `mod` Z.of_nat (length l) < Z.of_nat (length l))
    by (apply Z.mod_pos_bound; lia).
  set (r := Z.to_nat (k `mod` Z.of_nat (length l))).
  rewrite (roll_as_drop_take k l r) by lia.
  rewrite <- Zminus_mod_idemp_r.
  replace (k `mod` Z.of_nat (length l)) with (Z.of_nat r) by lia.
  destruct (decide (i < r)%nat) as [Hlt|Hge].
  - rewrite lookup_app_l by (rewrite length_drop; lia).
    rewrite lookup_drop. f_equal.
    assert ((Z.of_nat i - Z.of_nat r) `mod` Z.of_nat (length l)
            = Z.of_nat i - Z.of_nat r + Z.of_nat (length l)) as ->.
    { symmetry. apply (Z.mod_unique _ _ (-1)); lia. }
    lia.
  - rewrite lookup_app_r by (rewrite length_drop; lia).
    rewrite length_drop, lookup_take_lt by lia. f_equal.
    rewrite Z.mod_small by lia. lia.
Qed.

(** Two rolls compose to the roll by the sum. *)
Lemma roll_roll (a b : Z) (l : list A) : roll a (roll b l) = roll (a + b) l.
Proof.
  apply list_eq. intros i.
  destruct (decide (i < length l)%nat) as [Hi|Hi].
  - assert (Hn : 0 < Z.of_nat (length l)) by lia.
    rewrite lookup_roll by (rewrite length_roll; lia).
    rewrite length_roll.
    pose proof (Z.mod_pos_bound (Z.of_nat i - a) (Z.of_nat (length l)) Hn) as Hb.
    rewrite lookup_roll by lia.
    rewrite lookup_roll by lia. f_equal. f_equal.
    rewrite Z2Nat.id by lia.
    rewrite Zminus_mod_idemp_l. f_equal. lia.
  - rewrite !lookup_ge_None_2; [done|rewrite ?length_roll; lia..].
Qed.

Lemma roll_0 (l : list A) : roll 0 l = l.
Proof.
  unfold roll. case_decide; [done|].
  rewrite Z.mod_0_l by lia. cbn. rewrite Nat.sub_0_r.
  by rewrite drop_all, take_ge.
Qed.

Lemma roll3_roll3 (a b : Z) (x : arr3 A) : roll3 a (roll3 b x) = roll3 (a + b) x.
Proof.
  unfold roll3 at 1. rewrite ravel3_roll3, roll_roll.
  by rewrite (reshape_like3_shape _ x) by apply same_shape3_roll3.
Qed.

Lemma roll3_0 (x : arr3 A) : roll3 0 x = x.
Proof. unfold roll3. rewrite roll_0. apply reshape_like3_ravel3. Qed.

End RollFacts.

Section ShapeFacts.
Context {A : Type}.

Lemma has_shape4_slices a s m n (x : arr4 A) : has_shape4 a s m n x → slices s x.
Proof. intros [_ Hx]. eapply Forall_impl; [exact Hx|]. by intros xa [? _]. Qed.

Lemma same_shape3_has_shape3 {B} a m n (x : arr3 A) (y : arr3 B) :
  same_shape3 y x → has_shape3 a m n x → has_shape3 a m n y.
Proof.
  intros [H1 H2] [Ha Hx].
  assert (Hrows : Forall (λ r, length r = n) (concat y)).
  { apply (Forall_map length (λ k : nat, k = n)). rewrite H2.
    apply Forall_map, Forall_concat.
    eapply Forall_impl; [exact Hx|]. by intros p [_ Hp]. }
  split.
  - by rewrite <- (length_map length y), H1, length_map.
  - apply Forall_lookup. intros c p Hp. split.
    + assert (Hl : map length y !! c = Some (length p)) by by rewrite lookup_map, Hp.
      rewrite H1, lookup_map in Hl.
      destruct (x !! c) as [q|] eqn:Hq; [|done]. injection Hl as <-.
      by destruct (proj1 (Forall_lookup _ _) Hx c q Hq).
    + rewrite Forall_concat in Hrows.
      exact (proj1 (Forall_lookup _ _) Hrows c p Hp).
Qed.

(** The entry [(i, j)] of a rectangular array in the flattened array. *)
Lemma lookup_concat_rect {B} n (x : list (list B)) i j :
  Forall (λ r, length r = n) x → (j < n)%nat →
  concat x !! (i * n + j)%nat = x !! i ≫= (.!! j).
Proof.
  intros Hx Hj. revert i. induction Hx as [|r x Hr _ IH]; intros i; [done|].
  destruct i as [|i]; cbn [concat].
  - rewrite lookup_app_l by (cbn; lia). done.
  - rewrite lookup_app_r by (cbn; lia).
    replace (S i * n + j - length r)%nat with (i * n + j)%nat by (cbn; lia).
    apply IH.
Qed.

Lemma length_concat_rect {B} m n (x : list (list B)) :
  has_shape2 m n x → length (concat x) = (m * n)%nat.
Proof.
  intros [<- Hx]. induction Hx as [|r x Hr _ IH]; [done|].
  cbn. rewrite length_app, IH, Hr. done.
Qed.

Lemma has_shape3_concat a m n (x : arr3 A) :
  has_shape3 a m n x → has_shape2 (a * m) n (concat x).
Proof.
  intros [<- Hx]. split.
  - induction Hx as [|p x [Hp _] _ IH]; [done|].
    cbn. rewrite length_app, IH, Hp. done.
  - apply Forall_concat. eapply Forall_impl; [exact Hx|]. by intros p [_ ?].
Qed.

Lemma length_ravel3 a m n (x : arr3 A) :
  has_shape3 a m n x → length (ravel3 x) = (a * m * n)%nat.
Proof. intros Hx. by apply length_concat_rect, has_shape3_concat. Qed.

Lemma lookup_ravel3 a m n (x : arr3 A) c i j :
  has_shape3 a m n x → (i < m)%nat → (j < n)%nat →
  ravel3 x !! ((c * m + i) * n + j)%nat = entry3 x c i j.
Proof.
  intros Hx Hi Hj. unfold ravel3, entry3.
  rewrite (lookup_concat_rect n) by (done || apply (has_shape3_concat a m n x Hx)).
  rewrite (lookup_concat_rect m); [|by eapply Forall_impl; [apply Hx|]; intros p [? _]|done].
  by destruct (x !! c).
Qed.

Lemma entry4_plane (x : arr4 A) ss p c i j :
  plane ss x = Some p → entry4 x c ss i j = entry3 p c i j.
Proof.
  intros Hp. unfold entry4, entry3. rewrite (plane_lookup ss x p c Hp).
  by destruct (x !! c).
Qed.

Lemma plane_has_shape3 a s m n (x : arr4 A) ss p :
  has_shape4 a s m n x → plane ss x = Some p → has_shape3 a m n p.
Proof.
  intros [Ha Hx] Hp. split; [by rewrite (length_plane _ _ _ Hp)|].
  apply Forall_lookup. intros c q Hq.
  rewrite (plane_lookup ss x p c Hp) in Hq.
  destruct (x !! c) as [xa|] eqn:Hxa; [|done]. cbn in Hq.
  destruct (proj1 (Forall_lookup _ _) Hx c xa Hxa) as [_ Hxs].
  exact (proj1 (Forall_lookup _ _) Hxs ss q Hq).
Qed.

End ShapeFacts.

Section PerformshiftMore.
Context {A : Type} (zero : A).

(** On a rectangular array with a shift for every slice, [performshift]
    returns, and the plane of every slice is the rolled plane of the input. *)
Lemma performshift_planes (x : arr4 A) shift d a s m n :
  has_shape4 a s m n x → (s ≤ length shift)%nat →
  ∃ y, performshift zero x shift d = Some y
       ∧ has_shape4 a s m n y
       ∧ ∀ ss sh xs, (ss < s)%nat → shift !! ss = Some sh →
           plane ss x = Some xs → plane ss y = Some (roll3 (wrap64 (d * sh)) xs).
Proof.
  intros Hx Hsh.
  destruct (decide (x = [])) as [->|Hne].
  { exists []. split; [done|]. split; [done|].
    intros ss sh xs _ _ [= <-]. done. }
  pose proof (has_shape4_slices a s m n x Hx) as Hsl.
  destruct (performshift_spec zero x shift d s Hsl) as (y & Hy & Hsy & Hly & Hpy);
    [done|done|].
  exists y. split; [done|]. split; [|done].
  destruct Hx as [Ha Hxs]. split; [lia|].
  apply Forall_lookup. intros c ya Hya.
  pose proof (proj1 (Forall_lookup _ _) Hsy c ya Hya) as Hlya. cbn in Hlya.
  split; [done|].
  apply Forall_lookup. intros ss q Hq.
  assert (Hss : (ss < s)%nat) by (apply lookup_lt_Some in Hq; lia).
  destruct (lookup_lt_is_Some_2 shift ss) as [sh Hshss]; [lia|].
  destruct (plane_is_Some ss s x Hsl Hss) as [xs Hxsp].
  pose proof (Hpy ss sh xs Hss Hshss Hxsp) as Hyp.
  assert (Hsh3 : has_shape3 a m n (roll3 (wrap64 (d * sh)) xs)).
  { apply (same_shape3_has_shape3 a m n xs); [apply same_shape3_roll3|].
    by apply (plane_has_shape3 a s m n x ss). }
  pose proof (plane_lookup ss y _ c Hyp) as Hlk. rewrite Hya in Hlk. cbn in Hlk.
  rewrite Hq in Hlk.
  exact (proj1 (Forall_lookup _ _) (proj2 Hsh3) c q Hlk).
Qed.

(** Two shifts in a row roll every slice by the sum of the two wrapped
    products. *)
Lemma performshift_twice (x : arr4 A) shift d1 d2 a s m n :
  has_shape4 a s m n x → (s ≤ length shift)%nat →
  ∃ y z, performshift zero x shift d1 = Some y
         ∧ has_shape4 a s m n y
         ∧ performshift zero y shift d2 = Some z
         ∧ has_shape4 a s m n z
         ∧ ∀ ss sh xs, (ss < s)%nat → shift !! ss = Some sh →
             plane ss x = Some xs →
             plane ss z = Some (roll3 (wrap64 (d2 * sh) + wrap64 (d1 * sh)) xs).
Proof.
  intros Hx Hsh.
  destruct (performshift_planes x shift d1 a s m n Hx Hsh) as (y & Hy & Shy & Hpy).
  destruct (performshift_planes y shift d2 a s m n Shy Hsh) as (z & Hz & Shz & Hpz).
  exists y, z. split; [done|]. split; [done|]. split; [done|]. split; [done|].
  intros ss sh xs Hss Hshss Hxs.
  rewrite (Hpz ss sh _ Hss Hshss (Hpy ss sh xs Hss Hshss Hxs)).
  by rewrite roll3_roll3.
Qed.

(** Two arrays of one shape are equal when their slices are. *)
Lemma planes_eq (x y : arr4 A) a s m n :
  has_shape4 a s m n x → has_shape4 a s m n y →
  (∀ ss, (ss < s)%nat → plane ss x = plane ss y) → x = y.
Proof.
  intros Hx Hy Hp.
  apply (planes_ext s); [by eapply has_shape4_slices..| |done].
  destruct Hx, Hy. congruence.
Qed.

(** A shift is undone by the shift in the other direction, when no shift is
    [-2^63]. *)
Lemma performshift_undo (x : arr4 A) shift a s m n :
  has_shape4 a s m n x → (s ≤ length shift)%nat →
  Forall (λ sh, - 2 ^ 63 < sh < 2 ^ 63) shift →
  ∃ y, performshift zero x shift 1 = Some y
       ∧ has_shape4 a s m n y
       ∧ performshift zero y shift (-1) = Some x.
Proof.
  intros Hx Hsh Hrange.
  destruct (performshift_twice x shift 1 (-1) a s m n Hx Hsh)
    as (y & z & Hy & Shy & Hz & Shz & Hpz).
  exists y. split; [done|]. split; [done|]. rewrite Hz. f_equal.
  apply (planes_eq z x a s m n); [done..|].
  intros ss Hss.
  destruct (lookup_lt_is_Some_2 shift ss) as [sh Hshss]; [lia|].
  destruct (plane_is_Some ss s x (has_shape4_slices _ _ _ _ _ Hx) Hss) as [xs Hxs].
  rewrite (Hpz ss sh xs Hss Hshss Hxs), Hxs. f_equal.
  pose proof (proj1 (Forall_lookup _ _) Hrange ss sh Hshss) as Hr. cbn in Hr.
  rewrite !wrap64_id by (unfold int64; lia).
  replace (-1 * sh + 1 * sh) with 0 by lia. apply roll3_0.
Qed.

(** With zero shifts the array comes back unchanged. *)
Lemma performshift_zero_shifts (x : arr4 A) shift d a s m n :
  has_shape4 a s m n x → (s ≤ length shift)%nat → Forall (λ v, v = 0) shift →
  performshift zero x shift d = Some x.
Proof.
  intros Hx Hsh H0.
  destruct (performshift_planes x shift d a s m n Hx Hsh) as (y & Hy & Shy & Hpy).
  rewrite Hy. f_equal.
  apply (planes_ext s); [by eapply has_shape4_slices..| |].
  { destruct Hx, Shy. congruence. }
  intros ss Hss.
  destruct (lookup_lt_is_Some_2 shift ss) as [sh Hshss]; [lia|].
  destruct (plane_is_Some ss s x (has_shape4_slices _ _ _ _ _ Hx) Hss) as [xs Hxs].
  rewrite (Hpy ss sh xs Hss Hshss Hxs), Hxs. f_equal.
  rewrite (proj1 (Forall_lookup _ _) H0 ss sh Hshss).
  rewrite Z.mul_0_r. apply roll3_0.
Qed.

Lemma for_each_fails {St} (body : nat → St → option St) k n i (st : St) :
  (k ≤ i < k + n)%nat → (∀ st', body i st' = None) →
  for_each body (seq k n) st = None.
Proof.
  revert k st. induction n as [|n IH]; intros k st Hi Hbody; [lia|].
  cbn. destruct (body k st) as [st'|] eqn:Hk; [|done]. cbn.
  destruct (decide (i = k)) as [->|Hne]; [by rewrite Hbody in Hk|].
  apply IH; [lia|done].
Qed.

(** X1: Shifting by [direction = d1] and then by [direction = d2] is one shift by
    [d1 + d2], when the directions, their sum and the shifts are int64 values
    and no product [d1*shift[ss]], [d2*shift[ss]] or [(d1+d2)*shift[ss]]
    overflows; the two calls of the notebook, [1] and [-1], are one case. *)
Theorem performshift_composes (x : arr4 A) (shift : list Z) (d1 d2 : Z) a s m n :
  has_shape4 a s m n x → (s ≤ length shift)%nat →
  int64 d1 → int64 d2 → int64 (d1 + d2) →
  Forall (λ sh, int64 sh ∧ int64 (d1 * sh) ∧ int64 (d2 * sh)
                ∧ int64 ((d1 + d2) * sh)) shift →
  ∃ y, performshift zero x shift d1 = Some y
       ∧ has_shape4 a s m n y
       ∧ performshift zero y shift d2 = performshift zero x shift (d1 + d2).
Proof.
  intros Hx Hsh _ _ _ Hrange.
  destruct (performshift_twice x shift d1 d2 a s m n Hx Hsh)
    as (y & z & Hy & Shy & Hz & Shz & Hpz).
  destruct (performshift_planes x shift (d1 + d2) a s m n Hx Hsh)
    as (z' & Hz' & Shz' & Hpz').
  exists y. split; [done|]. split; [done|]. rewrite Hz, Hz'. f_equal.
  apply (planes_eq z z' a s m n); [done..|].
  intros ss Hss.
  destruct (lookup_lt_is_Some_2 shift ss) as [sh Hshss]; [lia|].
  destruct (plane_is_Some ss s x (has_shape4_slices _ _ _ _ _ Hx) Hss) as [xs Hxs].
  rewrite (Hpz ss sh xs Hss Hshss Hxs), (Hpz' ss sh xs Hss Hshss Hxs). f_equal.
  destruct (proj1 (Forall_lookup _ _) Hrange ss sh Hshss) as (_ & H1 & H2 & H3).
  rewrite !wrap64_id by done. f_equal. lia.
Qed.

(** X2: [np.roll] is called without an axis, so every slice is rolled as one flat
    array over (channel, readout, phase-encode): for an int64 direction and
    int64 shifts, the entry [(c, ss, i, j)] of the result is the entry of
    [x[:,ss,:,:]] at the flat index [((c*m + i)*n + j - k) mod (a*m*n)], where
    [k] is the int64 product [direction*shift[ss]], wrapped when it
    overflows. *)
Theorem performshift_entry (x y : arr4 A) (shift : list Z) (d sh : Z) (xs : arr3 A)
    a s m n c ss i j :
  has_shape4 a s m n x → (s ≤ length shift)%nat →
  int64 d → Forall int64 shift →
  performshift zero x shift d = Some y →
  shift !! ss = Some sh → plane ss x = Some xs →
  (c < a)%nat → (ss < s)%nat → (i < m)%nat → (j < n)%nat →
  entry4 y c ss i j
  = ravel3 xs !! Z.to_nat ((Z.of_nat ((c * m + i) * n + j) - wrap64 (d * sh))
                           `mod` Z.of_nat (a * m * n)).
Proof.
  intros Hx Hsh _ _ Hy Hshss Hxs Hc Hss Hi Hj.
  destruct (performshift_planes x shift d a s m n Hx Hsh) as (y' & Hy' & Shy & Hpy).
  assert (y' = y) as -> by congruence.
  pose proof (plane_has_shape3 a s m n x ss xs Hx Hxs) as Shxs.
  pose proof (Hpy ss sh xs Hss Hshss Hxs) as Hyp.
  rewrite (entry4_plane y ss _ c i j Hyp).
  assert (Sh3 : has_shape3 a m n (roll3 (wrap64 (d * sh)) xs))
    by (by apply (same_shape3_has_shape3 a m n xs); [apply same_shape3_roll3|]).
  rewrite <- (lookup_ravel3 a m n) by done.
  rewrite ravel3_roll3.
  pose proof (length_ravel3 a m n xs Shxs) as Hlen.
  assert (Hrow : (c * m + i < a * m)%nat) by nia.
  assert (Hflat : ((c * m + i) * n + j < a * m * n)%nat) by nia.
  rewrite lookup_roll by (by rewrite Hlen).
  by rewrite Hlen.
Qed.

(** X3: For an array with at least one channel, [performshift] returns exactly when
    [shift] has an entry for every slice; a shorter [shift] raises IndexError
    at [shift[ss]]. *)
Theorem performshift_needs_shift_per_slice (x : arr4 A) (shift : list Z) (d : Z)
    a s m n :
  has_shape4 a s m n x → (0 < a)%nat →
  (is_Some (performshift zero x shift d) ↔ (s ≤ length shift)%nat).
Proof.
  intros Hx Ha. split.
  - intros [y Hy]. destruct (decide (s ≤ length shift)%nat) as [|Hlt]; [done|].
    exfalso. revert Hy. unfold performshift.
    assert (Hn : length (default [] (head (zeros_like zero x))) = s).
    { destruct Hx as [Hl Hxs]. destruct x as [|xa x]; [cbn in Hl; lia|].
      apply Forall_cons in Hxs as [[Hs _] _]. cbn. by rewrite length_map. }
    rewrite Hn.
    rewrite (for_each_fails _ 0 s (length shift)); [done|lia|].
    intros st. by rewrite lookup_ge_None_2.
  - intros Hsh.
    destruct (performshift_planes x shift d a s m n Hx Hsh) as (y & Hy & _).
    by exists y.
Qed.

End PerformshiftMore.

(** *** Facts: the shift amounts *)

Lemma astype_int_int64 (x : Ieee.float) : int64 (astype_int x).
Proof.
  unfold int64, astype_int. destruct x as [| | |s m e]; try lia.
  match goal with
  | |- context [if (?a <=? ?v) && (?v' <? ?b) then _ else _] =>
      destruct (Z.leb_spec a v); destruct (Z.ltb_spec v' b); cbn [andb]; lia
  end.
Qed.

Lemma to_float_int64 (z : Z) : int64 z → is_Some (to_float z).
Proof.
  unfold int64, to_float. intros Hz.
  assert (Hb : 2 ^ 63 < 2 ^ 1024 - 2 ^ 970) by reflexivity.
  destruct (Z.ltb_spec (Z.abs z) (2 ^ 1024 - 2 ^ 970)); [done|lia].
Qed.

Lemma half_int64 (z : Z) : int64 z → is_Some (half z).
Proof.
  unfold int64, half. intros Hz.
  assert (Hb : 2 ^ 63 < 2 ^ 1025 - 2 ^ 971) by reflexivity.
  destruct (Z.ltb_spec (Z.abs z) (2 ^ 1025 - 2 ^ 971)); [done|lia].
Qed.

Lemma length_linspace start stop num l :
  linspace start stop num = Some l → length l = Z.to_nat num.
Proof.
  unfold linspace. destruct (num <? 0); [done|]. intros [= <-].
  destruct (1 <? num); rewrite ?length_insert, length_map;
    destruct (0 <? num - 1); try case_match; by rewrite !length_map, length_seq.
Qed.

Lemma linspace_is_Some start stop num : 0 ≤ num → is_Some (linspace start stop num).
Proof.
  intros Hn. unfold linspace. destruct (Z.ltb_spec num 0); [lia|done].
Qed.

(** For an int64 number of slices and int64 [N] and [fovshift] the shifts are
    defined: one int64 value per slice. *)
Lemma shifts_is_Some numslices N fovshift :
  0 ≤ numslices → int64 numslices → int64 N → int64 fovshift →
  ∃ sh, shifts numslices N fovshift = Some sh
        ∧ length sh = Z.to_nat numslices ∧ Forall int64 sh.
Proof.
  intros Hn Hn64 HN Hf. unfold shifts.
  destruct (0 <? fovshift).
  - destruct (half_int64 numslices Hn64) as [h ->]. cbn [mbind option_bind].
    destruct (linspace_is_Some
                (SFopp (Ieee.fsub Ieee.binary64 h (Ieee.of_Z Ieee.binary64 1)))
                h numslices Hn) as [l Hl].
    rewrite Hl. cbn [mbind option_bind].
    destruct (to_float_int64 N HN) as [n ->].
    destruct (to_float_int64 fovshift Hf) as [f ->]. cbn [mbind option_bind].
    eexists. split; [done|]. split.
    + rewrite length_map. by eapply length_linspace.
    + apply Forall_map, Forall_forall. intros v _. apply astype_int_int64.
  - destruct (Z.ltb_spec numslices 0) as [|_]; [lia|].
    eexists. split; [done|]. split; [by rewrite length_replicate|].
    apply Forall_replicate. unfold int64. lia.
Qed.

(** X4: With the shifts of cell 10, for every FOV shift factor: given int64
    values of [numslices], [N] and [fovshift], the shifts are [numslices] int64
    values, an array of [numslices] slices is shifted without an IndexError,
    and the shift with [direction = -1] gives it back unless a shift is
    [-2^63] (the value [astype(int)] gives a float outside the int64
    range). *)
Theorem shifts_cover_all_slices {A} (zero : A) (x : arr4 A) (numslices N fovshift : Z)
    a m n :
  0 ≤ numslices → int64 numslices → int64 N → int64 fovshift →
  has_shape4 a (Z.to_nat numslices) m n x →
  ∃ sh y, shifts numslices N fovshift = Some sh
          ∧ length sh = Z.to_nat numslices
          ∧ Forall int64 sh
          ∧ performshift zero x sh 1 = Some y
          ∧ has_shape4 a (Z.to_nat numslices) m n y
          ∧ (Forall (λ v, v ≠ - 2 ^ 63) sh → performshift zero y sh (-1) = Some x).
Proof.
  intros Hn Hn64 HN Hf Hx.
  destruct (shifts_is_Some numslices N fovshift Hn Hn64 HN Hf)
    as (sh & Hsh & Hlen & H64).
  assert (Hle : (Z.to_nat numslices ≤ length sh)%nat) by lia.
  destruct (performshift_planes zero x sh 1 a _ m n Hx Hle) as (y & Hy & Shy & _).
  exists sh, y. split; [done|]. split; [done|]. split; [done|].
  split; [done|]. split; [done|].
  intros Hmin.
  destruct (performshift_undo zero x sh a _ m n Hx Hle) as (y' & Hy' & _ & Hback).
  { apply Forall_forall. intros v Hv.
    pose proof (proj1 (Forall_forall _ _) H64 v Hv) as H1.
    pose proof (proj1 (Forall_forall _ _) Hmin v Hv) as H2.
    unfold int64 in H1. cbn in H2. lia. }
  assert (y' = y) as -> by congruence. done.
Qed.

(** X5: Without a FOV shift ([fovshift <= 0]) every shift is zero, and
    [performshift] returns its argument unchanged, in both directions. *)
Theorem shifts_without_fovshift {A} (zero : A) (x : arr4 A)
    (numslices N fovshift d : Z) a m n :
  fovshift ≤ 0 → 0 ≤ numslices → has_shape4 a (Z.to_nat numslices) m n x →
  shifts numslices N fovshift = Some (replicate (Z.to_nat numslices) 0)
  ∧ performshift zero x (replicate (Z.to_nat numslices) 0) d = Some x.
Proof.
  intros Hf Hn Hx. split.
  - unfold shifts. destruct (Z.ltb_spec 0 fovshift); [lia|].
    destruct (Z.ltb_spec numslices 0); [lia|done].
  - eapply performshift_zero_shifts; [done| |].
    + by rewrite length_replicate.
    + by apply Forall_replicate.
Qed.

(** The shifts of five slices of 6 columns with the FOV shift factor 3, and
    of four slices of 7 columns with the factor 2, where two quotients are
    ties. *)
Example shifts_example :
  shifts 5 6 3 = Some [-3; -1; 1; 3; 5] ∧ shifts 4 7 2 = Some [-4; 0; 4; 7].
Proof. split; vm_compute; reflexivity. Qed.

(** A number of columns that is not a double: the product is rounded before
    the division. *)
Example shifts_rounded_example : shifts 2 (2 ^ 53 + 1) 1 = Some [0; 2 ^ 53].
Proof. vm_compute. reflexivity. Qed.

(** A float outside the int64 range becomes [-2^63]. *)
Example shifts_out_of_range_example : shifts 2 (10 ^ 30) 1 = Some [0; - 2 ^ 63].
Proof. vm_compute. reflexivity. Qed.


(** Two channels of one slice of 1 x 2 samples, and one channel of two slices
    of 2 x 2 samples. *)
Definition two_coils : arr4 Z := [ [ [[1; 2]] ]; [ [[3; 4]] ] ].
Definition two_slices : arr4 Z := [[ [[1; 2]; [3; 4]]; [[5; 6]; [7; 8]] ]].

Lemma performshift_composes_witness :
  ∃ y, performshift 0 two_slices [1; -3] 2 = Some y
       ∧ has_shape4 1 2 2 2 y
       ∧ performshift 0 y [1; -3] 3 = performshift 0 two_slices [1; -3] (2 + 3).
Proof.
  apply (performshift_composes 0 two_slices [1; -3] 2 3 1 2 2 2).
  - repeat (split || constructor).
  - cbn. lia.
  - unfold int64. lia.
  - unfold int64. lia.
  - unfold int64. lia.
  - repeat constructor; unfold int64; lia.
Defined.

(** The first sample of channel 0 comes from the last sample of channel 1. *)
Lemma performshift_entry_witness :
  entry4 [ [ [[4; 1]] ]; [ [[2; 3]] ] ] 0 0 0 0
  = ravel3 [ [[1; 2]]; [[3; 4]] ]
      !! Z.to_nat ((Z.of_nat ((0 * 1 + 0) * 2 + 0) - wrap64 (1 * 1))
                   `mod` Z.of_nat (2 * 1 * 2)).
Proof.
  apply (performshift_entry 0 two_coils [ [ [[4; 1]] ]; [ [[2; 3]] ] ] [1] 1 1
           [ [[1; 2]]; [[3; 4]] ] 2 1 1 2 0 0 0 0).
  - repeat (split || constructor).
  - cbn. lia.
  - unfold int64. lia.
  - repeat constructor; unfold int64; lia.
  - reflexivity.
  - reflexivity.
  - reflexivity.
  - lia.
  - lia.
  - lia.
  - lia.
Defined.

Lemma performshift_needs_shift_per_slice_witness :
  is_Some (performshift 0 two_slices [1] 1) ↔ (2 ≤ length [1])%nat.
Proof.
  apply (performshift_needs_shift_per_slice 0 two_slices [1] 1 1 2 2 2).
  - repeat (split || constructor).
  - lia.
Defined.

Lemma shifts_cover_all_slices_witness :
  ∃ sh y, shifts 2 4 3 = Some sh
          ∧ length sh = Z.to_nat 2
          ∧ Forall int64 sh
          ∧ performshift 0 two_slices sh 1 = Some y
          ∧ has_shape4 1 (Z.to_nat 2) 2 2 y
          ∧ (Forall (λ v, v ≠ - 2 ^ 63) sh
             → performshift 0 y sh (-1) = Some two_slices).
Proof.
  apply (shifts_cover_all_slices 0 two_slices 2 4 3 1 2 2).
  - lia.
  - unfold int64. lia.
  - unfold int64. lia.
  - unfold int64. lia.
  - repeat (split || constructor).
Defined.

Lemma shifts_without_fovshift_witness :
  shifts 2 4 0 = Some (replicate (Z.to_nat 2) 0)
  ∧ performshift 0 two_slices (replicate (Z.to_nat 2) 0) (-1) = Some two_slices.
Proof.
  apply (shifts_without_fovshift 0 two_slices 2 4 0 (-1) 1 2 2).
  - lia.
  - lia.
  - repeat (split || constructor).
Defined.

End ShiftFacts.

(** ** The sampling mask (cells 12 and 38) and the ACS region (cell 20) *)
Module Sampling.
Import NumPy Cplx Sense ShiftFacts.

(** Whether [i] is one of the indices that [a[::step]] selects on an axis of
    length [len]: [0, step, 2 step, ...] for a positive step, and
    [len-1, len-1+step, ...] for a negative one. *)
Definition strided (len : nat) (step : Z) (i : nat) : bool :=
  if 0 <? step then Z.of_nat i `mod` step =? 0
  else (Z.of_nat len - 1 - Z.of_nat i) `mod` (- step) =? 0.

(**
<<
    mask = np.zeros(slicesCoils.shape)
    mask[:,::numslices,::Ry] = 1
>>
    (and the same two statements for [maskWave] in cell 38), for an array of
    [c] x [m] x [n] entries.  A slice step of zero raises ValueError. *)
Definition undersampling_mask (c m n : nat) (numslices Ry : Z) : option (arr3 Qc) :=
  let mask := replicate c (replicate m (replicate n 0%Qc)) in
  if (numslices =? 0) || (Ry =? 0) then None
  else
    Some (map (imap (λ i row,
                 if strided m numslices i
                 then imap (λ j v, if strided n Ry j then 1%Qc else v) row
                 else row))
              mask).

(** [np.arange(a, b)] on integers. *)
Definition arange (a b : Z) : list Z :=
  map (λ k, a + Z.of_nat k) (seq 0 (Z.to_nat (b - a))).

(**
<<
    acsregionX = np.arange((M*numslices)//2 - acsx // 2,(M*numslices)//2 + acsx//2)
    acsregionY = np.arange(N//2 - acsy // 2,N//2 + acsy//2)
>>
    for an axis of [extent] samples and an ACS size [acs]. *)
Definition acsregion (extent acs : Z) : list Z :=
  arange (extent / 2 - acs / 2) (extent / 2 + acs / 2).

(** *** Facts: the mask *)

Lemma undersampling_mask_Some c m n numslices Ry :
  numslices ≠ 0 → Ry ≠ 0 →
  ∃ mask, undersampling_mask c m n numslices Ry = Some mask
          ∧ has_shape3 c m n mask
          ∧ mask01 (MaskArray mask)
          ∧ ∀ ch i j, (ch < c)%nat → (i < m)%nat → (j < n)%nat →
              entry3 mask ch i j
              = Some (if strided m numslices i && strided n Ry j then 1%Qc else 0%Qc).
Proof.
  intros Hs Hr. unfold undersampling_mask.
  destruct (Z.eqb_spec numslices 0) as [|_]; [done|].
  destruct (Z.eqb_spec Ry 0) as [|_]; [done|]. cbn [orb].
  eexists. split; [done|].
  set (f := λ (i : nat) (row : list Qc),
              if strided m numslices i
              then imap (λ j v, if strided n Ry j then 1%Qc else v) row
              else row).
  assert (Hrow : ∀ i, length (f i (replicate n 0%Qc)) = n).
  { intros i. unfold f. destruct (strided m numslices i);
      rewrite ?length_imap, length_replicate; done. }
  split; [|split].
  - split; [by rewrite length_map, length_replicate|].
    apply Forall_map, Forall_replicate. split.
    + by rewrite length_imap, length_replicate.
    + apply Forall_lookup. intros i r Hi.
      rewrite list_lookup_imap in Hi.
      destruct (replicate m (replicate n 0%Qc) !! i) as [r0|] eqn:Hr0; [|done].
      apply lookup_replicate in Hr0 as [-> _]. injection Hi as <-. apply Hrow.
  - cbn [mask01]. apply Forall_map, Forall_replicate.
    apply Forall_lookup. intros i r Hi.
    rewrite list_lookup_imap in Hi.
    destruct (replicate m (replicate n 0%Qc) !! i) as [r0|] eqn:Hr0; [|done].
    apply lookup_replicate in Hr0 as [-> _]. injection Hi as <-.
    unfold f. destruct (strided m numslices i).
    + apply Forall_lookup. intros j v Hj.
      rewrite list_lookup_imap in Hj.
      destruct (replicate n 0%Qc !! j) as [v0|] eqn:Hv0; [|done].
      apply lookup_replicate in Hv0 as [-> _]. injection Hj as <-.
      destruct (strided n Ry j); auto.
    + apply Forall_replicate. auto.
  - intros ch i j Hch Hi Hj. unfold entry3.
    rewrite lookup_map, lookup_replicate_2 by done. cbn.
    rewrite list_lookup_imap, lookup_replicate_2 by done. cbn.
    unfold f. destruct (strided m numslices i); cbn [andb].
    + rewrite list_lookup_imap, lookup_replicate_2 by done. done.
    + by rewrite lookup_replicate_2.
Qed.

(** X7: The mask of cells 12 and 38, for positive [numslices] and [Ry]: it has the
    shape of the k-space, its entries are 0 and 1, and the entry
    [(ch, i, j)] is 1 exactly when [numslices] divides [i] and [Ry] divides
    [j]. *)
Theorem undersampling_mask_pattern (c m n : nat) (numslices Ry : Z) :
  0 < numslices → 0 < Ry →
  ∃ mask, undersampling_mask c m n numslices Ry = Some mask
          ∧ has_shape3 c m n mask
          ∧ mask01 (MaskArray mask)
          ∧ ∀ ch i j, (ch < c)%nat → (i < m)%nat → (j < n)%nat →
              entry3 mask ch i j
              = Some (if (Z.of_nat i `mod` numslices =? 0)
                         && (Z.of_nat j `mod` Ry =? 0)
                      then 1%Qc else 0%Qc).
Proof.
  intros Hs Hr.
  destruct (undersampling_mask_Some c m n numslices Ry) as (mask & Hm & Sh & H01 & He);
    [lia|lia|].
  exists mask. split; [done|]. split; [done|]. split; [done|].
  intros ch i j Hch Hi Hj. rewrite (He ch i j Hch Hi Hj). unfold strided.
  destruct (Z.ltb_spec 0 numslices); [|lia].
  destruct (Z.ltb_spec 0 Ry); [|lia]. done.
Qed.

Lemma undersampling_mask_pattern_witness :
  ∃ mask, undersampling_mask 1 4 3 2 2 = Some mask
          ∧ has_shape3 1 4 3 mask
          ∧ mask01 (MaskArray mask)
          ∧ ∀ ch i j, (ch < 1)%nat → (i < 4)%nat → (j < 3)%nat →
              entry3 mask ch i j
              = Some (if (Z.of_nat i `mod` 2 =? 0) && (Z.of_nat j `mod` 2 =? 0)
                      then 1%Qc else 0%Qc).
Proof. apply (undersampling_mask_pattern 1 4 3 2 2); lia. Defined.

Example undersampling_mask_example :
  undersampling_mask 1 4 3 2 2
  = Some [[ [1; 0; 1]; [0; 0; 0]; [1; 0; 1]; [0; 0; 0] ]]%Qc
  ∧ undersampling_mask 1 4 3 0 2 = None.
Proof. split; reflexivity. Qed.


(** The normal operator of cell 16 is self-adjoint with the mask of cell 12,
    whatever the acceleration factors. *)
Theorem normal_image_self_adjoint_undersampled (fft2c ifft2c : arr2 C → arr2 C)
    (m n : nat) (kappa : Qc) (c : nat) (numslices Ry : Z) (mask : arr3 Qc)
    (coils : arr3 C) (x y : arr2 C) :
  fourier_pair fft2c ifft2c m n kappa →
  undersampling_mask c m n numslices Ry = Some mask →
  has_shape3 c m n coils → has_shape2 m n x → has_shape2 m n y →
  inner2 (normal_image fft2c ifft2c coils (MaskArray mask) x) y
  = inner2 x (normal_image fft2c ifft2c coils (MaskArray mask) y).
Proof.
  intros HF Hmask Hcoils Hx Hy.
  assert (Hne : numslices ≠ 0 ∧ Ry ≠ 0).
  { unfold undersampling_mask in Hmask.
    destruct (Z.eqb_spec numslices 0); [done|].
    destruct (Z.eqb_spec Ry 0); [done|]. done. }
  destruct (undersampling_mask_Some c m n numslices Ry) as (mask' & Hm & Sh & _);
    [apply Hne..|].
  assert (mask' = mask) as -> by congruence.
  by apply (normal_image_self_adjoint_real_mask fft2c ifft2c m n kappa c).
Qed.

(** *** Facts: the ACS region *)

Lemma length_arange a b : length (arange a b) = Z.to_nat (b - a).
Proof. unfold arange. by rewrite length_map, length_seq. Qed.

Lemma lookup_arange a b k :
  (k < Z.to_nat (b - a))%nat → arange a b !! k = Some (a + Z.of_nat k).
Proof.
  intros Hk. unfold arange. by rewrite lookup_map, lookup_seq_lt.
Qed.

Lemma getitem_arange a b i :
  getitem (arange a b) i
  = if (0 <=? i) && (i <? b - a) then Some (a + i)
    else if (a - b <=? i) && (i <? 0) then Some (b + i)
    else None.
Proof.
  unfold getitem. rewrite length_arange.
  destruct (Z.leb_spec 0 i); cbn [andb].
  - destruct (Z.ltb_spec i (Z.of_nat (Z.to_nat (b - a))));
      destruct (Z.ltb_spec i (b - a)); try lia.
    + rewrite lookup_arange by lia. f_equal. lia.
    + destruct (Z.ltb_spec i 0); [lia|]. by rewrite !andb_false_r.
  - destruct (Z.ltb_spec i 0); [|lia]. rewrite !andb_true_r.
    destruct (Z.leb_spec (- Z.of_nat (Z.to_nat (b - a))) i);
      destruct (Z.leb_spec (a - b) i); try lia; [|done].
    rewrite lookup_arange by lia. f_equal. lia.
Qed.

(** The ACS region of cell 20 has [2 * (acs // 2)] entries.  Its first entry
    exists when [acs >= 2], and its entry [acs - 1], which the crops of cells
    22 and 28 read, exists only for an even [acs >= 2]: for an odd [acs]
    the index is out of bounds. *)
Lemma acsregion_ends (extent acs : Z) :
  length (acsregion extent acs) = Z.to_nat (2 * (acs / 2))
  ∧ getitem (acsregion extent acs) 0
    = (if 2 <=? acs then Some (extent / 2 - acs / 2) else None)
  ∧ getitem (acsregion extent acs) (acs - 1)
    = (if Z.even acs && (2 <=? acs) then Some (extent / 2 + acs / 2 - 1) else None).
Proof.
  pose proof (Z.div_mod acs 2 ltac:(lia)) as Hdm.
  pose proof (Zmod_even acs) as Hev.
  unfold acsregion. rewrite !getitem_arange, length_arange.
  pose proof (Z.mod_pos_bound acs 2 ltac:(lia)) as Hb.
  generalize dependent (acs `mod` 2). generalize (acs / 2). generalize (extent / 2).
  intros e k r Hdm Hev Hb.
  split; [f_equal; lia|].
  split; destruct (Z.even acs);
    repeat match goal with
           | |- context [?a <=? ?b] => destruct (Z.leb_spec a b)
           | |- context [?a <? ?b] => destruct (Z.ltb_spec a b)
           end;
    cbn [andb]; first [lia | done | f_equal; lia].
Qed.



Lemma normal_image_self_adjoint_undersampled_witness :
  inner2 (normal_image fft2c_2x2 fft2c_2x2 coils_w (MaskArray [[ [1; 0]; [1; 0] ]]%Qc)
            image_x) image_y
  = inner2 image_x
      (normal_image fft2c_2x2 fft2c_2x2 coils_w (MaskArray [[ [1; 0]; [1; 0] ]]%Qc)
         image_y).
Proof.
  apply (normal_image_self_adjoint_undersampled fft2c_2x2 fft2c_2x2 2 2 1%Qc 1 1 2).
  - exact fft2c_2x2_fourier_pair.
  - reflexivity.
  - repeat (split || constructor).
  - repeat (split || constructor).
  - repeat (split || constructor).
Defined.

End Sampling.

(** ** The ACS region in the SPARK functions (cells 20, 22 and 28) *)
Module AcsFacts.
Import NumPy Sampling Acs Spark.

Lemma bind_raise {X Y} (e : exn) (f : X → M Y) h : bind (raise e) f h = (h, inl e).
Proof. done. Qed.

(** X9: The crops of cells 22 and 28 read [acsregion[0]] and
    [acsregion[acs-1]].  With the regions of cell 20, unless [acsx] and [acsy]
    are both even and at least 2, [reformattingKspaceForSpark] raises
    IndexError before it creates an array, and the ACS replacement raises
    too. *)
Theorem acs_size_odd_raises (h : gmap loc buffer) (inputKspace kspaceOriginal : loc)
    (inp orig : arr4 cplx) (extentX extentY acsx acsy : Z) (normalizationflag : bool)
    {A} (kspaceCorrected : arr3 A) (kspaceAcs : arr4 A) :
  h !! inputKspace = Some (BufC inp) → h !! kspaceOriginal = Some (BufC orig) →
  Z.even acsx && (2 <=? acsx) && (Z.even acsy && (2 <=? acsy)) = false →
  reformattingKspaceForSpark inputKspace kspaceOriginal
    (acsregion extentX acsx) (acsregion extentY acsy) acsx acsy normalizationflag h
  = (h, inl IndexError)
  ∧ kspaceCorrectedReplaced kspaceCorrected kspaceAcs
      (acsregion extentX acsx) (acsregion extentY acsy) acsx acsy = None.
Proof.
  intros Hin Horig Hbad.
  destruct (acsregion_ends extentX acsx) as (_ & Hx0 & Hx1).
  destruct (acsregion_ends extentY acsy) as (_ & Hy0 & Hy1).
  split.
  - unfold reformattingKspaceForSpark.
    rewrite (bind_run _ _ _ _ _ (run_load_complex _ _ _ Hin)).
    rewrite (bind_run _ _ _ _ _ (run_load_complex _ _ _ Horig)).
    rewrite Hx0, Hx1, Hy0, Hy1.
    destruct (2 <=? acsx); [|done]. rewrite andb_true_r in *.
    rewrite (bind_run _ _ h h _ (run_lift _ _ _ _ eq_refl)).
    destruct (Z.even acsx); [|done].
    rewrite (bind_run _ _ h h _ (run_lift _ _ _ _ eq_refl)).
    destruct (2 <=? acsy); [|done]. rewrite andb_true_r in *.
    rewrite (bind_run _ _ h h _ (run_lift _ _ _ _ eq_refl)).
    destruct (Z.even acsy); done.
  - unfold kspaceCorrectedReplaced.
    rewrite Hx0, Hx1, Hy0, Hy1.
    destruct (2 <=? acsx); [|done]. rewrite andb_true_r in *.
    destruct (Z.even acsx); [|done].
    destruct (2 <=? acsy); [|done]. rewrite andb_true_r in *.
    destruct (Z.even acsy); done.
Qed.

Lemma acs_size_odd_raises_witness :
  reformattingKspaceForSpark 0%nat 1%nat (acsregion 2 3) (acsregion 2 2) 3 2 true
    store_ex
  = (store_ex, inl IndexError)
  ∧ kspaceCorrectedReplaced corrected44 acs44 (acsregion 2 3) (acsregion 2 2) 3 2
    = None.
Proof.
  apply (acs_size_odd_raises store_ex 0%nat 1%nat input_ex original_ex 2 2 3 2 true
           corrected44 acs44); reflexivity.
Defined.

Lemma slice_len_centered (t : nat) (a : Z) :
  Z.even a = true → 2 ≤ a ≤ Z.of_nat t →
  slice_len t (Z.of_nat t / 2 - a / 2) (Z.of_nat t / 2 + a / 2 - 1 + 1) = Z.to_nat a
  ∧ slice_len t (Z.of_nat t / 2 - a / 2) (Z.of_nat t / 2 + a / 2 - 1)
    = (Z.to_nat a - 1)%nat.
Proof.
  intros Hev Ha.
  pose proof (Z.div_mod a 2 ltac:(lia)) as Hdm.
  pose proof (Zmod_even a) as Hr. rewrite Hev in Hr. rewrite Hr in Hdm.
  pose proof (Z.div_mod (Z.of_nat t) 2 ltac:(lia)) as Hdt.
  pose proof (Z.mod_pos_bound (Z.of_nat t) 2 ltac:(lia)) as Hbt.
  unfold slice_len, slice_bound.
  generalize dependent (Z.of_nat t `mod` 2). generalize dependent (Z.of_nat t / 2).
  generalize dependent (a / 2). intros k Hk e r He Hr'.
  repeat match goal with
         | |- context [?a <? ?b] => destruct (Z.ltb_spec a b)
         end; lia.
Qed.

(** X10: For even ACS sizes that fit, the crop of [reformattingKspaceForSpark] has
    exactly [acsx] x [acsy] samples per channel, while the window that the
    replacement of cell 28 writes has [acsx - 1] rows and [acsy - 1] columns. *)
Theorem acs_crop_extent {A} (d : arr4 A) (nE nC tx ty : nat) (acsx acsy : Z) :
  has_shape4 nE nC tx ty d →
  Z.even acsx = true → 2 ≤ acsx ≤ Z.of_nat tx →
  Z.even acsy = true → 2 ≤ acsy ≤ Z.of_nat ty →
  ∃ x0 x1 y0 y1,
    getitem (acsregion (Z.of_nat tx) acsx) 0 = Some x0
    ∧ getitem (acsregion (Z.of_nat tx) acsx) (acsx - 1) = Some x1
    ∧ getitem (acsregion (Z.of_nat ty) acsy) 0 = Some y0
    ∧ getitem (acsregion (Z.of_nat ty) acsy) (acsy - 1) = Some y1
    ∧ has_shape4 nE nC (Z.to_nat acsx) (Z.to_nat acsy)
        (window x0 (x1 + 1) y0 (y1 + 1) d)
    ∧ slice_len tx x0 x1 = (Z.to_nat acsx - 1)%nat
    ∧ slice_len ty y0 y1 = (Z.to_nat acsy - 1)%nat.
Proof.
  intros Hd Hex Hx Hey Hy.
  destruct (acsregion_ends (Z.of_nat tx) acsx) as (_ & Hx0 & Hx1).
  destruct (acsregion_ends (Z.of_nat ty) acsy) as (_ & Hy0 & Hy1).
  rewrite Hex in Hx1. rewrite Hey in Hy1.
  destruct (Z.leb_spec 2 acsx); [|lia]. destruct (Z.leb_spec 2 acsy); [|lia].
  cbn [andb] in *.
  destruct (slice_len_centered tx acsx Hex Hx) as [Hcx Hrx].
  destruct (slice_len_centered ty acsy Hey Hy) as [Hcy Hry].
  eexists _, _, _, _. split_and!; try done.
  rewrite <- Hcx, <- Hcy. by apply has_shape4_window.
Qed.

Lemma acs_crop_extent_witness :
  ∃ x0 x1 y0 y1,
    getitem (acsregion (Z.of_nat 2) 2) 0 = Some x0
    ∧ getitem (acsregion (Z.of_nat 2) 2) (2 - 1) = Some x1
    ∧ getitem (acsregion (Z.of_nat 2) 2) 0 = Some y0
    ∧ getitem (acsregion (Z.of_nat 2) 2) (2 - 1) = Some y1
    ∧ has_shape4 1 1 (Z.to_nat 2) (Z.to_nat 2) (window x0 (x1 + 1) y0 (y1 + 1) input_ex)
    ∧ slice_len 2 x0 x1 = (Z.to_nat 2 - 1)%nat
    ∧ slice_len 2 y0 y1 = (Z.to_nat 2 - 1)%nat.
Proof.
  apply (acs_crop_extent input_ex 1 1 2 2 2 2).
  - repeat (split || constructor).
  - reflexivity.
  - lia.
  - reflexivity.
  - lia.
Defined.

End AcsFacts.

(** ** Readout concatenation (cell 10) and the reshapes that undo it *)
Module Readout.
Import NumPy Shift ShiftFacts.

Section Defs.
Context {A : Type}.

(** [np.concatenate((a, b), axis=-2)] on arrays over (channel, readout,
    phase-encode): in every channel the rows of [b] follow the rows of [a].
    ValueError unless the numbers of channels and the row lengths agree. *)
Definition concatenate_rows (a b : arr3 A) : option (arr3 A) :=
  if decide (length a = length b) then
    mapM (λ p : arr2 A * arr2 A,
            let rows := p.1 ++ p.2 in
            if decide (Forall (λ r, length r = length (default [] (head rows))) rows)
            then Some rows else None)
         (zip a b)
  else None.

(**
<<
    slicesCoils = slicesShiftedCoils[:,0,:,:]
    for ss in range(1,numslices):
        slicesCoils = np.concatenate((slicesCoils,slicesShiftedCoils[:,ss,:,:]),axis = -2)
>>
    (the same loop builds [coils] and, in cell 34, [psfRo]).  [x[:,ss,:,:]]
    raises IndexError when [x] has no slice [ss]. *)
Definition concat_slices (numslices : Z) (x : arr4 A) : option (arr3 A) :=
  first ← plane 0 x;
  for_each (λ ss acc, p ← plane ss x; concatenate_rows acc p)
           (seq 1 (Z.to_nat (numslices - 1))) first.

(** [np.reshape(x, (c, r, n))] of a 4-d array and [np.reshape(y, (c, s, m, n))]
    of a 3-d array, row-major; ValueError when the number of entries is not
    the product of the new extents. *)
Definition reshape3 (c r n : nat) (x : arr4 A) : option (arr3 A) :=
  let flat := concat (ravel3 x) in
  if decide (length flat = (c * r * n)%nat) then
    Some (unflatten (replicate c (replicate r ()))
            (unflatten (replicate (c * r) (replicate n ())) flat))
  else None.

Definition reshape4 (c s m n : nat) (y : arr3 A) : option (arr4 A) :=
  let flat := ravel3 y in
  if decide (length flat = (c * s * m * n)%nat) then
    Some (unflatten (replicate c (replicate s ()))
            (unflatten (replicate (c * s) (replicate m ()))
               (unflatten (replicate (c * s * m) (replicate n ())) flat)))
  else None.

End Defs.

Section Facts.
Context {A : Type}.

Lemma has_shape2_lengths {B} m n (y : arr2 B) :
  has_shape2 m n y → map length y = replicate m n.
Proof.
  intros [<- Hy]. induction Hy as [|r y Hr _ IH]; [done|].
  cbn. by rewrite Hr, IH.
Qed.

(** A rectangular array is the flat array of its entries cut into its rows. *)
Lemma unflatten_rect {B} m n (y : arr2 B) :
  has_shape2 m n y → unflatten (replicate m (replicate n ())) (concat y) = y.
Proof.
  intros Hy. rewrite (unflatten_shape _ y); [apply unflatten_concat|].
  rewrite (has_shape2_lengths m n y Hy).
  clear. induction m as [|m IH]; [done|]. cbn. by rewrite length_replicate, IH.
Qed.

Lemma has_shape2_unflatten {B} m n (l : list B) :
  length l = (m * n)%nat →
  has_shape2 m n (unflatten (replicate m (replicate n ())) l)
  ∧ concat (unflatten (replicate m (replicate n ())) l) = l.
Proof.
  intros Hl.
  assert (Hc : length (concat (replicate m (replicate n ()))) = (m * n)%nat).
  { clear. induction m as [|m IH]; [done|].
    cbn. by rewrite length_app, length_replicate, IH. }
  split; [|apply concat_unflatten; congruence].
  assert (Hm : map length (unflatten (replicate m (replicate n ())) l) = replicate m n).
  { rewrite map_length_unflatten by congruence.
    clear. induction m as [|m IH]; [done|]. cbn. by rewrite length_replicate, IH. }
  split.
  - by rewrite <- (length_map length), Hm, length_replicate.
  - apply Forall_lookup. intros i r Hr.
    assert (Hi : map length (unflatten (replicate m (replicate n ())) l) !! i
                 = Some (length r)) by by rewrite lookup_map, Hr.
    rewrite Hm in Hi. by apply lookup_replicate in Hi as [-> _].
Qed.

Lemma has_shape3_outer a m n (x : arr3 A) : has_shape3 a m n x → has_shape2 a m x.
Proof.
  intros [Ha Hx]. split; [done|]. eapply Forall_impl; [exact Hx|]. by intros p [? _].
Qed.

Lemma has_shape4_concat c s m n (x : arr4 A) :
  has_shape4 c s m n x → has_shape3 (c * s) m n (concat x).
Proof.
  intros [<- Hx]. split.
  - induction Hx as [|xa x [Hxa _] _ IH]; [done|].
    cbn. by rewrite length_app, IH, Hxa.
  - apply Forall_concat. eapply Forall_impl; [exact Hx|]. by intros xa [_ ?].
Qed.

Lemma has_shape4_outer c s m n (x : arr4 A) : has_shape4 c s m n x → has_shape2 c s x.
Proof.
  intros [Hc Hx]. split; [done|]. eapply Forall_impl; [exact Hx|]. by intros p [? _].
Qed.

Lemma concat_map_concat {B} (x : list (list (list B))) :
  concat (map (@concat _) x) = concat (concat x).
Proof.
  induction x as [|xa x IH]; [done|]. cbn. by rewrite concat_app, IH.
Qed.

Lemma has_shape4_map_concat c s m n (x : arr4 A) :
  has_shape4 c s m n x → has_shape3 c (s * m) n (map (@concat _) x).
Proof.
  intros [Hc Hx]. split; [by rewrite length_map|].
  apply Forall_map. eapply Forall_impl; [exact Hx|]. cbn.
  intros xa Hxa. by apply has_shape3_concat.
Qed.

(** Reshaping (c, s, m, n) to (c, s*m, n) joins the slices of every channel;
    reshaping back cuts them apart again. *)
Lemma reshape3_join c s m n (x : arr4 A) :
  has_shape4 c s m n x → reshape3 c (s * m) n x = Some (map (@concat _) x).
Proof.
  intros Hx. unfold reshape3. cbv zeta.
  pose proof (has_shape4_map_concat c s m n x Hx) as Hy.
  assert (Hflat : concat (ravel3 x) = ravel3 (map (@concat _) x)).
  { unfold ravel3. by rewrite concat_map_concat. }
  rewrite Hflat.
  rewrite (length_ravel3 c (s * m) n) by done.
  rewrite decide_True by done. f_equal.
  unfold ravel3.
  rewrite (unflatten_rect (c * (s * m)) n) by by apply has_shape3_concat.
  by apply unflatten_rect, (has_shape3_outer c (s * m) n).
Qed.

Lemma reshape4_split c s m n (x : arr4 A) :
  has_shape4 c s m n x → reshape4 c s m n (map (@concat _) x) = Some x.
Proof.
  intros Hx. unfold reshape4. cbv zeta.
  pose proof (has_shape4_map_concat c s m n x Hx) as Hy.
  rewrite (length_ravel3 c (s * m) n) by done.
  rewrite decide_True by lia. f_equal.
  unfold ravel3. rewrite concat_map_concat.
  pose proof (has_shape4_concat c s m n x Hx) as Hcx.
  rewrite (unflatten_rect (c * s * m) n) by by apply has_shape3_concat.
  rewrite (unflatten_rect (c * s) m) by by apply (has_shape3_outer (c * s) m n).
  by apply unflatten_rect, (has_shape4_outer c s m n).
Qed.

Lemma plane_eq c s m n (x : arr4 A) k :
  has_shape4 c s m n x → (k < s)%nat →
  plane k x = Some (map (λ xa, default [] (xa !! k)) x).
Proof.
  intros [_ Hx] Hk. unfold plane.
  induction Hx as [|xa x [Hxa _] _ IH]; [done|].
  destruct (lookup_lt_is_Some_2 xa k) as [p Hp]; [lia|].
  cbn. rewrite Hp. cbn. by rewrite IH.
Qed.

Lemma concatenate_rows_step c s m n (x : arr4 A) k :
  has_shape4 c s m n x → (k < s)%nat →
  concatenate_rows (map (λ xa, concat (take k xa)) x)
                   (map (λ xa, default [] (xa !! k)) x)
  = Some (map (λ xa, concat (take (S k) xa)) x).
Proof.
  intros [_ Hx] Hk. unfold concatenate_rows.
  rewrite decide_True by by rewrite !length_map.
  cbv zeta.
  induction Hx as [|xa x [Hxa Hsh] _ IH]; [done|].
  destruct (lookup_lt_is_Some_2 xa k) as [p Hp]; [lia|].
  cbn [map zip zip_with mapM fst snd]. rewrite Hp. cbn [default]. change (id p) with p.
  assert (Hrows : concat (take k xa) ++ p = concat (take (S k) xa)).
  { rewrite (take_S_r _ _ _ Hp), concat_app. cbn. by rewrite app_nil_r. }
  rewrite Hrows.
  assert (Hall : Forall (λ r, length r = n) (concat (take (S k) xa))).
  { apply Forall_concat, Forall_take. eapply Forall_impl; [exact Hsh|].
    by intros q [_ ?]. }
  rewrite decide_True.
  2:{ destruct (concat (take (S k) xa)) as [|r rows] eqn:Hr; [constructor|].
      cbn. apply Forall_cons in Hall as [Hr0 Hall].
      constructor; [done|]. eapply Forall_impl; [exact Hall|]. cbn. congruence. }
  cbn [mbind option_bind].
  change (zip_with pair (map (λ xa, concat (take k xa)) x)
            (map (λ xa, default [] (xa !! k)) x))
    with (zip (map (λ xa, concat (take k xa)) x) (map (λ xa, default [] (xa !! k)) x)).
  rewrite IH. done.
Qed.

Lemma concat_slices_loop c s m n (x : arr4 A) k j :
  has_shape4 c s m n x → (k + j ≤ s)%nat →
  for_each (λ ss acc, p ← plane ss x; concatenate_rows acc p) (seq k j)
           (map (λ xa, concat (take k xa)) x)
  = Some (map (λ xa, concat (take (k + j) xa)) x).
Proof.
  intros Hx. revert k. induction j as [|j IH]; intros k Hk.
  - by rewrite Nat.add_0_r.
  - cbn [seq for_each]. rewrite (plane_eq c s m n) by (done || lia).
    cbn [mbind option_bind].
    rewrite (concatenate_rows_step c s m n) by (done || lia).
    cbn [mbind option_bind]. rewrite IH by lia.
    by replace (k + S j)%nat with (S k + j)%nat by lia.
Qed.

Lemma concat_slices_join c s m n (x : arr4 A) :
  has_shape4 c s m n x → (0 < s)%nat →
  concat_slices (Z.of_nat s) x = Some (map (@concat _) x).
Proof.
  intros Hx Hs. unfold concat_slices.
  rewrite (plane_eq c s m n) by done. cbn [mbind option_bind].
  assert (H1 : map (λ xa, default [] (xa !! 0%nat)) x = map (λ xa, concat (take 1 xa)) x).
  { apply map_ext_in. intros xa Hin.
    destruct Hx as [_ Hx]. rewrite Forall_forall in Hx.
    destruct (Hx xa) as [Hl _]; [by apply list_elem_of_In|].
    destruct xa as [|p xa]; [cbn in Hl; lia|]. cbn. by rewrite app_nil_r. }
  rewrite H1.
  rewrite (concat_slices_loop c s m n) by (done || lia).
  f_equal. apply map_ext_in. intros xa Hin.
  destruct Hx as [_ Hx]. rewrite Forall_forall in Hx.
  destruct (Hx xa) as [Hl _]; [by apply list_elem_of_In|].
  rewrite take_ge by lia. done.
Qed.

Lemma has_shape3_of_concat {B} a m n (x : arr3 B) :
  has_shape2 a m x → Forall (λ r, length r = n) (concat x) → has_shape3 a m n x.
Proof.
  intros [Ha Hx] Hr. split; [done|].
  rewrite Forall_concat in Hr.
  apply Forall_lookup. intros i p Hp. split.
  - exact (proj1 (Forall_lookup _ _) Hx i p Hp).
  - exact (proj1 (Forall_lookup _ _) Hr i p Hp).
Qed.

Lemma has_shape4_of_concat {B} c s m n (x : arr4 B) :
  has_shape2 c s x → Forall (has_shape2 m n) (concat x) → has_shape4 c s m n x.
Proof.
  intros [Hc Hx] Hr. split; [done|].
  rewrite Forall_concat in Hr.
  apply Forall_lookup. intros i p Hp. split.
  - exact (proj1 (Forall_lookup _ _) Hx i p Hp).
  - exact (proj1 (Forall_lookup _ _) Hr i p Hp).
Qed.

(** The array that a reshape to four axes returns. *)
Lemma reshape4_shape c s m n (y : arr3 A) y' :
  reshape4 c s m n y = Some y' →
  has_shape4 c s m n y' ∧ concat (ravel3 y') = ravel3 y.
Proof.
  unfold reshape4. cbv zeta. case_decide as Hl; [|done]. intros [= <-].
  destruct (has_shape2_unflatten (c * s * m) n (ravel3 y) Hl) as [Sh1 Hc1].
  set (L1 := unflatten (replicate (c * s * m) (replicate n ())) (ravel3 y)) in *.
  destruct (has_shape2_unflatten (c * s) m L1) as [Sh2 Hc2]; [apply Sh1|].
  set (L2 := unflatten (replicate (c * s) (replicate m ())) L1) in *.
  destruct (has_shape2_unflatten c s L2) as [Sh3 Hc3]; [apply Sh2|].
  set (L3 := unflatten (replicate c (replicate s ())) L2) in *.
  assert (Sh2' : has_shape3 (c * s) m n L2).
  { apply has_shape3_of_concat; [done|]. rewrite Hc2. apply Sh1. }
  split.
  - apply has_shape4_of_concat; [done|]. rewrite Hc3. apply Sh2'.
  - unfold ravel3. by rewrite Hc3, Hc2, Hc1.
Qed.

Lemma reshape3_shape c r n (x : arr4 A) y :
  reshape3 c r n x = Some y →
  has_shape3 c r n y ∧ ravel3 y = concat (ravel3 x).
Proof.
  unfold reshape3. cbv zeta. case_decide as Hl; [|done]. intros [= <-].
  destruct (has_shape2_unflatten (c * r) n (concat (ravel3 x)) Hl) as [Sh1 Hc1].
  set (L1 := unflatten (replicate (c * r) (replicate n ())) (concat (ravel3 x))) in *.
  destruct (has_shape2_unflatten c r L1) as [Sh2 Hc2]; [apply Sh1|].
  split.
  - apply has_shape3_of_concat; [done|]. rewrite Hc2. apply Sh1.
  - unfold ravel3. by rewrite Hc2, Hc1.
Qed.

(** Two arrays of one shape with the same entries in row-major order are
    equal. *)
Lemma ravel3_inj a m n (x y : arr3 A) :
  has_shape3 a m n x → has_shape3 a m n y → ravel3 x = ravel3 y → x = y.
Proof.
  intros Hx Hy Hr. unfold ravel3 in Hr.
  rewrite <- (unflatten_rect a m x) by by apply (has_shape3_outer a m n).
  rewrite <- (unflatten_rect a m y) by by apply (has_shape3_outer a m n).
  f_equal.
  rewrite <- (unflatten_rect (a * m) n (concat x)) by by apply has_shape3_concat.
  rewrite <- (unflatten_rect (a * m) n (concat y)) by by apply has_shape3_concat.
  by rewrite Hr.
Qed.

Lemma length_ravel4 c s m n (x : arr4 A) :
  has_shape4 c s m n x → length (concat (ravel3 x)) = (c * s * m * n)%nat.
Proof.
  intros Hx. unfold ravel3.
  apply (length_ravel3 (c * s) m n), has_shape4_concat, Hx.
Qed.

Lemma reshape4_Some c s m n (y : arr3 A) :
  has_shape3 c (s * m) n y →
  ∃ y', reshape4 c s m n y = Some y' ∧ has_shape4 c s m n y'
        ∧ map (@concat _) y' = y.
Proof.
  intros Hy.
  assert (Hl : length (ravel3 y) = (c * s * m * n)%nat)
    by (rewrite (length_ravel3 c (s * m) n) by done; lia).
  destruct (reshape4 c s m n y) as [y'|] eqn:Hr.
  2:{ unfold reshape4 in Hr. cbv zeta in Hr. by rewrite decide_True in Hr. }
  destruct (reshape4_shape c s m n y y' Hr) as [Sh Hrav].
  exists y'. split; [done|]. split; [done|].
  apply (ravel3_inj c (s * m) n); [by apply has_shape4_map_concat|done|].
  rewrite <- Hrav. unfold ravel3. by rewrite concat_map_concat.
Qed.

(** X11: Concatenating the slices along the readout axis, as cell 10 does, is the
    reshape from (channel, slice, readout, phase-encode) to (channel,
    slice*readout, phase-encode), and the reshape to four axes that cells 18,
    30 and 36 apply gives the slices back. *)
Theorem concat_slices_is_reshape (x : arr4 A) (c s m n : nat) :
  has_shape4 c s m n x → (0 < s)%nat →
  ∃ y, concat_slices (Z.of_nat s) x = Some y
       ∧ has_shape3 c (s * m) n y
       ∧ reshape3 c (s * m) n x = Some y
       ∧ reshape4 c s m n y = Some x.
Proof.
  intros Hx Hs. exists (map (@concat _) x). split_and!.
  - by apply (concat_slices_join c s m n).
  - by apply has_shape4_map_concat.
  - by apply reshape3_join.
  - by apply reshape4_split.
Qed.

End Facts.

Lemma concat_slices_is_reshape_witness :
  ∃ y, concat_slices (Z.of_nat 2) two_slices = Some y
       ∧ has_shape3 1 (2 * 2) 2 y
       ∧ reshape3 1 (2 * 2) 2 two_slices = Some y
       ∧ reshape4 1 2 2 2 y = Some two_slices.
Proof.
  apply (concat_slices_is_reshape two_slices 1 2 2 2).
  - repeat (split || constructor).
  - lia.
Defined.

Example concat_slices_example :
  concat_slices 2 two_slices = Some [ [[1; 2]; [3; 4]; [5; 6]; [7; 8]] ]
  ∧ concat_slices 3 two_slices = None.
Proof. split; reflexivity. Qed.

End Readout.

(** ** Wave-encoded SENSE operators (cells 36 and 40) *)
Module WaveOps.
Import NumPy Cplx Sense Wave Readout ShiftFacts.

(** The product of two arrays over (channel, readout, phase-encode), numpy
    broadcasting a channel axis of length one over the channels of the other
    array. *)
Definition bmul3 (a b : arr3 C) : arr3 C :=
  match a, b with
  | [p], _ => map (mul2 p) b
  | _, [q] => map (λ p, mul2 p q) a
  | _, _ => zip_with mul2 a b
  end.

(**
<<
    def sforwave(x,coils):
        return coils * x
>>
    The image [x] is broadcast over the channels of [coils]. *)
Definition sforwave (x : arr2 C) (coils : arr3 C) : arr3 C :=
  map (λ s, mul2 s x) coils.

(**
<<
    def sadjwave(x,coils):
        xp = cp.get_array_module(x)
        return xp.sum(xp.conj(coils)*x,-3)
>>
*)
Definition sadjwave (x coils : arr3 C) : arr2 C :=
  sum_axis0 (zip_with mul2 (map conj2 coils) x).

(**
<<
    def waveForward(x,psf): #Perform the forward wave operation through psf modeling
        return psf * x
    def waveAdjoint(x,psf): #Perform the adjoint wave operation through psf modeling
        xp = cp.get_array_module(x)
        return xp.conj(psf) * x
>>
*)
Definition waveForward (x psf : arr3 C) : arr3 C := bmul3 psf x.
Definition waveAdjoint (x psf : arr3 C) : arr3 C := bmul3 (map conj2 psf) x.

Section Operators.
(** [Fx], [Fy], [Fxadj], [Fyadj] are [sig.fft] and [sig.ifft] along the readout
    and the phase-encode axis (utils/signalprocessing.py); [C], [numslices],
    [M], [N] and [Nro] are globals of the notebook.  All are parameters. *)
Variables Fx Fy Fxadj Fyadj : arr3 C → arr3 C.
Variables (nC numslices M N Nro : nat).

(**
<<
    def senseWaveForward(x,maps,psf,padreadout,mask):
        xp = cp.get_array_module(x)
        return mask*Fy(waveForward(Fx(xp.reshape(resize(xp.reshape(sforwave(x,maps),\
            (C,numslices,M,N)),padreadout,inpdims = 4),(C,numslices*Nro,N))),psf))
>>
    The two reshapes raise ValueError on a size that does not fit. *)
Definition senseWaveForward (x : arr2 C) (maps psf : arr3 C) (padreadout : Z)
    (mask : maskarg) : option (arr3 C) :=
  a ← reshape4 nC numslices M N (sforwave x maps);
  match resize czero (Nd4 a) padreadout 4 with
  | Returns (Nd4 r) =>
      b ← reshape3 nC (numslices * Nro) N r;
      Some (mask_mul mask (Fy (waveForward (Fx b) psf)))
  | _ => None
  end.

(**
<<
    def senseWaveAdjoint(x,maps,psf,mask):
        xp = cp.get_array_module(x)
        return sadjwave(xp.reshape(crop(np.reshape(Fxadj(waveAdjoint(Fyadj(xp.conj(mask) * x),psf)),\
                                                   (C,numslices,Nro,N))),(C,numslices*M,N)),maps)
>>
    The mask is real, so [xp.conj(mask)] has the values of [mask]. *)
Definition senseWaveAdjoint (x maps psf : arr3 C) (mask : maskarg)
    : option (arr2 C) :=
  a ← reshape4 nC numslices Nro N (Fxadj (waveAdjoint (Fyadj (mask_mul mask x)) psf));
  b ← reshape3 nC (numslices * M) N (crop (Z.of_nat Nro) (Z.of_nat M) a);
  Some (sadjwave b maps).

(**
<<
    normalWave = lambda x: senseWaveAdjoint(senseWaveForward(x.reshape(M*numslices,N),coils,psfRo,padreadout,maskWave),\
                                              coils,psfRo,maskWave).ravel()
>>
*)
Definition normalWave (coils psfRo : arr3 C) (padreadout : Z) (maskWave : maskarg)
    (x : list C) : option (list C) :=
  img ← reshape2 (M * numslices) N x;
  k ← senseWaveForward img coils psfRo padreadout maskWave;
  r ← senseWaveAdjoint k coils psfRo maskWave;
  Some (concat r).

End Operators.

(** Inner product of arrays over four axes. *)
Definition inner4 : arr4 C → arr4 C → C := isum inner3.

(** Every entry of the point spread function has modulus one. *)
Definition unit_modulus (psf : arr3 C) : Prop :=
  Forall (Forall (Forall (λ z, cmul (conj z) z = cone))) psf.

(** *** Facts: the coil and the wave operators *)

Section PointwiseFacts.

Lemma inner3_sforwave c m n coils x y :
  has_shape3 c m n coils → has_shape3 c m n y → has_shape2 m n x →
  inner3 (sforwave x coils) y = inner2 x (sadjwave y coils).
Proof.
  intros [_ Hcoils] [_ Hy] Hx. unfold sforwave, sadjwave.
  rewrite (inner2_sum_axis0_r m n).
  2:{ rewrite zip_with_fmap_l.
      apply Forall_lookup. intros i w (s & yc & -> & Hs & Hyc)%lookup_zip_with_Some.
      apply has_shape2_zip_with.
      - apply has_shape2_map. exact (proj1 (Forall_lookup _ _) Hcoils i s Hs).
      - exact (proj1 (Forall_lookup _ _) Hy i yc Hyc). }
  unfold inner3, isum. f_equal. clear Hcoils Hy.
  revert y. induction coils as [|s coils IH]; intros [|yc y]; try done.
  cbn. f_equal; [apply inner2_coil_l | apply IH].
Qed.

Lemma inner3_map_mul2 p x y :
  inner3 (map (mul2 p) x) y = inner3 x (map (mul2 (conj2 p)) y).
Proof. unfold inner3. apply isum_map_swap. intros a b. apply inner2_coil_l. Qed.

Lemma inner3_wave psf x y :
  length psf = 1%nat →
  inner3 (waveForward x psf) y = inner3 x (waveAdjoint y psf).
Proof.
  destruct psf as [|p [|? ?]]; try done. intros _.
  unfold waveForward, waveAdjoint. cbn [bmul3 map]. apply inner3_map_mul2.
Qed.

Lemma row_conj_unit (r ra : list C) :
  length r = length ra → Forall (λ z, cmul (conj z) z = cone) r →
  zip_with cmul (map conj r) (zip_with cmul r ra) = ra.
Proof.
  intros Hl Hr. revert ra Hl.
  induction Hr as [|z r Hz Hr IH]; intros [|w ra] Hl; try done.
  cbn. f_equal; [|apply IH; by injection Hl].
  replace (conj z * (z * w))%C with ((conj z * z) * w)%C by ring.
  rewrite Hz. ring.
Qed.

Lemma mul2_conj_unit m n (p a : arr2 C) :
  has_shape2 m n p → has_shape2 m n a →
  Forall (Forall (λ z, cmul (conj z) z = cone)) p →
  mul2 (conj2 p) (mul2 p a) = a.
Proof.
  intros [Hpl Hp] [Hal Ha] Hu. unfold mul2, conj2.
  assert (Hlen : length p = length a) by congruence. clear Hpl Hal.
  revert a Hlen Ha. induction Hu as [|r p Hr Hu IH]; intros [|ra a] Hlen Ha; try done.
  apply Forall_cons in Hp as [Hrl Hp]. apply Forall_cons in Ha as [Hral Ha].
  cbn. f_equal; [|apply IH; [done|by injection Hlen|done]].
  apply row_conj_unit; [congruence|done].
Qed.

End PointwiseFacts.



(** *** Facts: inner products, reshapes, padding and cropping *)

Section InnerReshape.

Lemma isum_app {X Y} (f : X → Y → C) a a' b b' :
  length a = length b → isum f (a ++ a') (b ++ b') = (isum f a b + isum f a' b')%C.
Proof.
  intros Hl. unfold isum. by rewrite zip_with_app, csum_app.
Qed.

Lemma isum_concat {X Y} (f : X → Y → C) (a : list (list X)) (b : list (list Y)) :
  Forall2 (λ r r', length r = length r') a b →
  isum f (concat a) (concat b) = isum (isum f) a b.
Proof.
  induction 1 as [|r r' a b Hr _ IH]; [done|].
  cbn [concat]. rewrite isum_app by done. rewrite IH. done.
Qed.

Lemma isum_map_swap_Forall2 {X Y W Y'} (R : X → Y → Prop) (f : W → Y → C)
    (f' : X → Y' → C) (g : X → W) (g' : Y → Y') a b :
  Forall2 R a b → (∀ x y, R x y → f (g x) y = f' x (g' y)) →
  isum f (map g a) b = isum f' a (map g' b).
Proof.
  intros Hab H. unfold isum.
  induction Hab as [|x y a b Hxy _ IH]; [done|].
  cbn. by rewrite H, IH.
Qed.

Lemma Forall2_shapes {X Y} (P : X → Prop) (Q : Y → Prop) k (a : list X) (b : list Y) :
  length a = k → length b = k → Forall P a → Forall Q b →
  Forall2 (λ x y, P x ∧ Q y) a b.
Proof.
  intros Ha Hb HP HQ.
  apply Forall2_same_length_lookup_2; [congruence|].
  intros i x y Hx Hy. split.
  - exact (proj1 (Forall_lookup _ _) HP i x Hx).
  - exact (proj1 (Forall_lookup _ _) HQ i y Hy).
Qed.

Lemma inner2_concat a m n (x y : arr3 C) :
  has_shape3 a m n x → has_shape3 a m n y →
  inner2 (concat x) (concat y) = inner3 x y.
Proof.
  intros [Hxl Hx] [Hyl Hy]. unfold inner2, inner3. apply isum_concat.
  eapply Forall2_impl; [by apply (Forall2_shapes _ _ a x y Hxl Hyl Hx Hy)|].
  cbn. intros p q [[Hp _] [Hq _]]. congruence.
Qed.

Lemma inner3_map_concat c s m n (x y : arr4 C) :
  has_shape4 c s m n x → has_shape4 c s m n y →
  inner3 (map (@concat _) x) (map (@concat _) y) = inner4 x y.
Proof.
  intros [Hxl Hx] [Hyl Hy]. unfold inner3, inner4, isum. f_equal.
  pose proof (Forall2_shapes _ _ c x y Hxl Hyl Hx Hy) as H2.
  clear Hxl Hyl Hx Hy.
  induction H2 as [|xa ya x' y' [Hxa Hya] _ IH]; [done|].
  cbn. f_equal; [|done]. by apply (inner2_concat s m n).
Qed.

Lemma inner1_zeros k r : inner1 (replicate k czero) r = czero.
Proof.
  unfold inner1, isum. revert r. induction k as [|k IH]; intros [|v r]; try done.
  cbn. rewrite IH. csimp.
Qed.

Lemma inner2_zero_rows p k w : inner2 (replicate p (replicate k czero)) w = czero.
Proof.
  unfold inner2, isum. revert w. induction p as [|p IH]; intros [|r w]; try done.
  cbn. rewrite IH, inner1_zeros. csimp.
Qed.

(** Zero rows before and after contribute nothing to an inner product: padding
    on one side is cropping on the other. *)
Lemma inner2_pad_crop p k m (rows z : arr2 C) :
  length rows = m → length z = (p + m + p)%nat →
  inner2 (replicate p (replicate k czero) ++ rows ++ replicate p (replicate k czero)) z
  = inner2 rows (take m (drop p z)).
Proof.
  intros Hr Hz.
  rewrite <- (take_drop p z) at 1.
  rewrite <- (take_drop m (drop p z)) at 1.
  unfold inner2.
  rewrite isum_app by (rewrite length_replicate, length_take; lia).
  rewrite isum_app by (rewrite length_take, length_drop; lia).
  fold inner2. rewrite !inner2_zero_rows. ring.
Qed.

Lemma slice_middle {X} p m (z : list X) :
  length z = (p + m + p)%nat →
  slice (Z.of_nat p) (Z.of_nat (p + m)) z = take m (drop p z).
Proof.
  intros Hz. unfold slice, slice_bound. rewrite Hz.
  destruct (Z.ltb_spec (Z.of_nat p) 0); [lia|].
  destruct (Z.ltb_spec (Z.of_nat (p + m)) 0); [lia|].
  replace (Z.to_nat (Z.min (Z.of_nat p) (Z.of_nat (p + m + p)))) with p by lia.
  replace (Z.to_nat (Z.min (Z.of_nat (p + m)) (Z.of_nat (p + m + p))) - p)%nat
    with m by lia.
  done.
Qed.

Lemma mapM_total {X Y} (f : X → option Y) (g : X → Y) l :
  (∀ x, f x = Some (g x)) → mapM f l = Some (map g l).
Proof.
  intros H. induction l as [|x l IH]; [done|]. cbn. by rewrite H, IH.
Qed.

End InnerReshape.

(** The rows [resize] puts around a plane, for a pad width [p >= 0]. *)
Definition pad_rows (p : nat) (rows : arr2 C) : arr2 C :=
  let zrow := replicate (length (default [] (head rows))) czero in
  replicate p zrow ++ rows ++ replicate p zrow.

Lemma resize_pad_rows (p : nat) (x : arr4 C) :
  resize czero (Nd4 x) (Z.of_nat p) 4 = Returns (Nd4 (map (map (pad_rows p)) x)).
Proof.
  unfold resize. change (4 =? 3) with false. change (4 =? 4) with true. cbv iota.
  rewrite (mapM_total _ (map (pad_rows p))); [done|].
  intros xa. apply mapM_total. intros rows. unfold pad_readout, pad_rows.
  destruct (Z.ltb_spec (Z.of_nat p) 0); [lia|].
  by rewrite Nat2Z.id.
Qed.

Lemma has_shape2_pad_rows p m n rows :
  (0 < m)%nat → has_shape2 m n rows → has_shape2 (p + m + p) n (pad_rows p rows).
Proof.
  intros Hm [Hl Hr]. unfold pad_rows.
  assert (Hz : length (default [] (head rows)) = n).
  { destruct rows as [|r rows]; [cbn in Hl; lia|].
    by apply Forall_cons in Hr as [? _]. }
  rewrite Hz. split.
  - rewrite !length_app, !length_replicate, Hl. lia.
  - repeat apply Forall_app_2; try done; apply Forall_replicate, length_replicate.
Qed.

Lemma has_shape4_pad_rows p c s m n (x : arr4 C) :
  (0 < m)%nat → has_shape4 c s m n x →
  has_shape4 c s (p + m + p) n (map (map (pad_rows p)) x).
Proof.
  intros Hm [Hc Hx]. split; [by rewrite length_map|].
  apply Forall_map. eapply Forall_impl; [exact Hx|]. cbn.
  intros xa [Hs Hxa]. split; [by rewrite length_map|].
  apply Forall_map. eapply Forall_impl; [exact Hxa|]. cbn.
  intros rows. by apply has_shape2_pad_rows.
Qed.

Lemma has_shape4_slices_len c s nro n lo hi (z : arr4 C) :
  has_shape4 c s nro n z →
  has_shape4 c s (slice_len nro lo hi) n (map (map (slice lo hi)) z).
Proof.
  intros [Hc Hz]. split; [by rewrite length_map|].
  apply Forall_map. eapply Forall_impl; [exact Hz|]. cbn.
  intros za [Hs Hza]. split; [by rewrite length_map|].
  apply Forall_map. eapply Forall_impl; [exact Hza|]. cbn.
  intros pl [Hl Hr]. split.
  - by rewrite length_slice, Hl.
  - by apply Forall_take, Forall_drop.
Qed.

Lemma reshape3_None c s m n r n' (x : arr4 C) :
  has_shape4 c s m n x → (c * s * m * n ≠ c * r * n')%nat →
  reshape3 c r n' x = None.
Proof.
  intros Hx Hne. unfold reshape3. cbv zeta.
  rewrite (length_ravel4 c s m n) by done. by rewrite decide_False.
Qed.

Section PadCrop.
Variables (M Nro : nat).
Hypotheses (HM : Nat.even M = true) (HMpos : (0 < M)%nat).
Hypotheses (Hle : (M ≤ Nro)%nat) (Hpar : Nat.even (Nro - M) = true).

(** The pad width as a natural number: [Nro = M + 2 * pad]. *)
Definition pad_width : nat := ((Nro - M) / 2)%nat.

Lemma Nro_split : Nro = (pad_width + M + pad_width)%nat.
Proof using All.
  unfold pad_width.
  apply Nat.even_spec in Hpar as [k Hk]. rewrite Hk.
  replace (2 * k)%nat with (k * 2)%nat by lia. rewrite Nat.div_mul by lia. lia.
Qed.

Lemma padreadout_width : padreadout (Z.of_nat Nro) (Z.of_nat M) = Z.of_nat pad_width.
Proof using All.
  unfold padreadout. pose proof Nro_split as Hs.
  replace (Z.of_nat Nro - Z.of_nat M) with (Z.of_nat pad_width * 2) by lia.
  by rewrite Z.div_mul by lia.
Qed.

Lemma crop_bounds :
  Z.of_nat Nro / 2 - Z.of_nat M / 2 = Z.of_nat pad_width
  ∧ Z.of_nat Nro / 2 + Z.of_nat M / 2 = Z.of_nat (pad_width + M).
Proof using All.
  pose proof Nro_split as Hs.
  apply Nat.even_spec in HM as [k Hk].
  assert (H1 : Z.of_nat M / 2 = Z.of_nat k).
  { rewrite Hk. replace (Z.of_nat (2 * k)) with (Z.of_nat k * 2) by lia.
    by rewrite Z.div_mul by lia. }
  assert (H2 : Z.of_nat Nro / 2 = Z.of_nat (pad_width + k)).
  { replace (Z.of_nat Nro) with (Z.of_nat (pad_width + k) * 2) by lia.
    by rewrite Z.div_mul by lia. }
  rewrite H1, H2. lia.
Qed.

(** The rows [resize] puts around a plane for [padreadout = (Nro - M)//2]. *)
Definition padded (rows : arr2 C) : arr2 C := pad_rows pad_width rows.

Lemma resize_padded (x : arr4 C) :
  resize czero (Nd4 x) (padreadout (Z.of_nat Nro) (Z.of_nat M)) 4
  = Returns (Nd4 (map (map padded) x)).
Proof using All. rewrite padreadout_width. apply resize_pad_rows. Qed.

Lemma has_shape4_padded c s n (x : arr4 C) :
  has_shape4 c s M n x → has_shape4 c s Nro n (map (map padded) x).
Proof using All.
  intros Hx. rewrite Nro_split at 1. by apply has_shape4_pad_rows.
Qed.

Lemma crop_plane (z : arr2 C) :
  length z = Nro →
  slice (Z.of_nat Nro / 2 - Z.of_nat M / 2) (Z.of_nat Nro / 2 + Z.of_nat M / 2) z
  = take M (drop pad_width z).
Proof using All.
  intros Hz. destruct crop_bounds as [-> ->].
  apply slice_middle. rewrite Hz. apply Nro_split.
Qed.

Lemma has_shape4_crop c s n (z : arr4 C) :
  has_shape4 c s Nro n z →
  has_shape4 c s M n (crop (Z.of_nat Nro) (Z.of_nat M) z).
Proof using All.
  intros [Hc Hz]. unfold crop. split; [by rewrite length_map|].
  apply Forall_map. eapply Forall_impl; [exact Hz|]. cbn.
  intros za [Hs Hza]. split; [by rewrite length_map|].
  apply Forall_map. eapply Forall_impl; [exact Hza|]. cbn.
  intros pl [Hl Hr]. rewrite crop_plane by done. split.
  - rewrite length_take, length_drop, Hl. pose proof Nro_split. lia.
  - by apply Forall_take, Forall_drop.
Qed.

(** [crop] is the adjoint of [resize]. *)
Lemma inner4_pad_crop c s n (x z : arr4 C) :
  has_shape4 c s M n x → has_shape4 c s Nro n z →
  inner4 (map (map padded) x) z = inner4 x (crop (Z.of_nat Nro) (Z.of_nat M) z).
Proof using All.
  intros [Hxl Hx] [Hzl Hz]. unfold inner4, crop.
  apply (isum_map_swap_Forall2 (λ xa za, has_shape3 s M n xa ∧ has_shape3 s Nro n za)).
  { by apply (Forall2_shapes _ _ c). }
  intros xa za [[Hxal Hxa] [Hzal Hza]]. unfold inner3.
  apply (isum_map_swap_Forall2 (λ p q, has_shape2 M n p ∧ has_shape2 Nro n q)).
  { by apply (Forall2_shapes _ _ s). }
  intros rows pl [[Hrl _] [Hpl _]].
  rewrite crop_plane by done. unfold padded, pad_rows.
  apply inner2_pad_crop; [done|]. rewrite Hpl. apply Nro_split.
Qed.

End PadCrop.

(** What the theorems ask of a transform [F] along one axis and of [Fadj]: on
    arrays of [c] x [r] x [n] entries both keep the shape, and [Fadj] is the
    adjoint of [F] up to the real constant [kappa] of the normalisation. *)
Definition axis_pair (F Fadj : arr3 C → arr3 C) (c r n : nat) (kappa : Qc) : Prop :=
  (∀ a, has_shape3 c r n a → has_shape3 c r n (F a)) ∧
  (∀ a, has_shape3 c r n a → has_shape3 c r n (Fadj a)) ∧
  (∀ a b, has_shape3 c r n a → has_shape3 c r n b →
     inner3 (F a) b = (of_real kappa * inner3 a (Fadj b))%C) ∧
  kappa ≠ 0%Qc.

Section ShapeOps.

Lemma has_shape3_map2 {X Y} (f : X → Y) c m n (x : arr3 X) (g : arr2 X → arr2 Y) :
  (∀ p, has_shape2 m n p → has_shape2 m n (g p)) →
  has_shape3 c m n x → has_shape3 c m n (map g x).
Proof.
  intros Hg [Hc Hx]. split; [by rewrite length_map|].
  apply Forall_map. eapply Forall_impl; [exact Hx|]. exact Hg.
Qed.

Lemma has_shape3_sforwave c m n coils x :
  has_shape3 c m n coils → has_shape2 m n x → has_shape3 c m n (sforwave x coils).
Proof.
  intros Hc Hx. unfold sforwave. apply (has_shape3_map2 id); [|done].
  intros p Hp. by apply has_shape2_zip_with.
Qed.

Lemma has_shape3_bmul3 c r n psf x :
  has_shape3 1 r n psf → has_shape3 c r n x → has_shape3 c r n (bmul3 psf x).
Proof.
  intros [Hl Hpsf] Hx. destruct psf as [|p [|? ?]]; try done.
  apply Forall_cons in Hpsf as [Hp _]. cbn [bmul3].
  apply (has_shape3_map2 id); [|done].
  intros q Hq. by apply has_shape2_zip_with.
Qed.

Lemma has_shape3_conj c r n psf :
  has_shape3 c r n psf → has_shape3 c r n (map conj2 psf).
Proof.
  apply (has_shape3_map2 id). intros p Hp. by apply has_shape2_map.
Qed.

Lemma has_shape3_mask_mul c r n mask k :
  mask_shape c r n mask → has_shape3 c r n k → has_shape3 c r n (mask_mul mask k).
Proof.
  intros Hm [Hc Hk]. destruct mask as [sc|mk]; cbn [mask_mul mask_shape] in *.
  - apply (has_shape3_map2 id); [|done]. intros p Hp. by apply has_shape2_map.
  - destruct Hm as [Hmc Hmk]. split; [rewrite length_zip_with; lia|].
    apply Forall_lookup. intros i w (mp & kp & -> & Hmp & Hkp)%lookup_zip_with_Some.
    apply has_shape2_zip_with.
    + exact (proj1 (Forall_lookup _ _) Hmk i mp Hmp).
    + exact (proj1 (Forall_lookup _ _) Hk i kp Hkp).
Qed.

Lemma has_shape2_sadjwave c m n y coils :
  (0 < c)%nat → has_shape3 c m n y → has_shape3 c m n coils →
  has_shape2 m n (sadjwave y coils).
Proof.
  intros Hc [Hyl Hy] [Hcl Hcoils]. unfold sadjwave.
  apply has_shape2_sum_axis0.
  - destruct coils, y; cbn in *; try lia. done.
  - apply Forall_lookup. intros i w (sp & yp & -> & Hsp & Hyp)%lookup_zip_with_Some.
    rewrite lookup_map in Hsp.
    destruct (coils !! i) as [s0|] eqn:Hs0; [|done]. injection Hsp as <-.
    apply has_shape2_zip_with.
    + apply has_shape2_map. exact (proj1 (Forall_lookup _ _) Hcoils i s0 Hs0).
    + exact (proj1 (Forall_lookup _ _) Hy i yp Hyp).
Qed.

End ShapeOps.

Section AdjointIdentity.
Variables Fx Fy Fxadj Fyadj : arr3 C → arr3 C.
Variables (nC numslices M N Nro : nat) (kx ky : Qc).
Hypotheses (HM : Nat.even M = true) (HMpos : (0 < M)%nat).
Hypotheses (Hle : (M ≤ Nro)%nat) (Hpar : Nat.even (Nro - M) = true).
Hypothesis HFx : axis_pair Fx Fxadj nC (numslices * Nro) N kx.
Hypothesis HFy : axis_pair Fy Fyadj nC (numslices * Nro) N ky.

Lemma senseWaveForward_Some x maps psf mask :
  has_shape2 (numslices * M) N x → has_shape3 nC (numslices * M) N maps →
  has_shape3 1 (numslices * Nro) N psf → mask_shape nC (numslices * Nro) N mask →
  ∃ a,
    has_shape4 nC numslices M N a
    ∧ map (@concat _) a = sforwave x maps
    ∧ senseWaveForward Fx Fy nC numslices M N Nro x maps psf
        (padreadout (Z.of_nat Nro) (Z.of_nat M)) mask
      = Some (mask_mul mask
                (Fy (waveForward (Fx (map (@concat _) (map (map (padded M Nro)) a))) psf)))
    ∧ has_shape3 nC (numslices * Nro) N
        (mask_mul mask
           (Fy (waveForward (Fx (map (@concat _) (map (map (padded M Nro)) a))) psf))).
Proof.
  intros Hx Hmaps Hpsf Hmask.
  destruct HFx as (ShFx & _ & _ & _). destruct HFy as (ShFy & _ & _ & _).
  pose proof (has_shape3_sforwave nC _ N maps x Hmaps Hx) as Sh1.
  destruct (reshape4_Some nC numslices M N _ Sh1) as (a & Ha & Sha & Hca).
  pose proof (has_shape4_padded M Nro HM HMpos Hle Hpar nC numslices N a Sha) as Shp.
  exists a. split; [done|]. split; [done|].
  assert (Sh4 : has_shape3 nC (numslices * Nro) N
                  (map (@concat _) (map (map (padded M Nro)) a)))
    by by apply has_shape4_map_concat.
  split.
  - unfold senseWaveForward. rewrite Ha. cbn [mbind option_bind].
    rewrite (resize_padded M Nro HM HMpos Hle Hpar).
    by rewrite (reshape3_join nC numslices Nro N).
  - apply has_shape3_mask_mul; [done|]. apply ShFy.
    unfold waveForward. apply has_shape3_bmul3; [done|]. by apply ShFx.
Qed.

Lemma senseWaveAdjoint_Some y maps psf mask :
  has_shape3 nC (numslices * Nro) N y →
  has_shape3 1 (numslices * Nro) N psf → mask_shape nC (numslices * Nro) N mask →
  ∃ b,
    has_shape4 nC numslices Nro N b
    ∧ map (@concat _) b = Fxadj (waveAdjoint (Fyadj (mask_mul mask y)) psf)
    ∧ senseWaveAdjoint Fxadj Fyadj nC numslices M N Nro y maps psf mask
      = Some (sadjwave (map (@concat _) (crop (Z.of_nat Nro) (Z.of_nat M) b)) maps).
Proof.
  intros Hy Hpsf Hmask.
  destruct HFx as (_ & ShFx & _ & _). destruct HFy as (_ & ShFy & _ & _).
  assert (Sh : has_shape3 nC (numslices * Nro) N
                 (Fxadj (waveAdjoint (Fyadj (mask_mul mask y)) psf))).
  { apply ShFx. unfold waveAdjoint.
    apply has_shape3_bmul3; [by apply has_shape3_conj|].
    apply ShFy. by apply has_shape3_mask_mul. }
  destruct (reshape4_Some nC numslices Nro N _ Sh) as (b & Hb & Shb & Hcb).
  exists b. split; [done|]. split; [done|].
  unfold senseWaveAdjoint. rewrite Hb. cbn [mbind option_bind].
  rewrite (reshape3_join nC numslices M N); [done|].
  by apply has_shape4_crop.
Qed.

(** The adjoint identity of the wave-encoded operators. *)
Lemma senseWave_adjoint x maps psf mask y :
  has_shape2 (numslices * M) N x → has_shape3 nC (numslices * M) N maps →
  has_shape3 1 (numslices * Nro) N psf → mask_shape nC (numslices * Nro) N mask →
  has_shape3 nC (numslices * Nro) N y →
  ∃ k r,
    senseWaveForward Fx Fy nC numslices M N Nro x maps psf
      (padreadout (Z.of_nat Nro) (Z.of_nat M)) mask = Some k
    ∧ has_shape3 nC (numslices * Nro) N k
    ∧ senseWaveAdjoint Fxadj Fyadj nC numslices M N Nro y maps psf mask = Some r
    ∧ ((0 < nC)%nat → has_shape2 (numslices * M) N r)
    ∧ inner3 k y = (of_real (kx * ky) * inner2 x r)%C.
Proof.
  intros Hx Hmaps Hpsf Hmask Hy.
  destruct (senseWaveForward_Some x maps psf mask Hx Hmaps Hpsf Hmask)
    as (a & Sha & Hca & Hfwd & Shk).
  destruct (senseWaveAdjoint_Some y maps psf mask Hy Hpsf Hmask)
    as (b & Shb & Hcb & Hadj).
  eexists _, _. split; [exact Hfwd|]. split; [exact Shk|]. split; [exact Hadj|].
  pose proof (has_shape4_crop M Nro HM HMpos Hle Hpar nC numslices N b Shb) as Shc.
  pose proof (has_shape4_map_concat nC numslices M N _ Shc) as Shc3.
  split.
  { intros Hc. by apply (has_shape2_sadjwave nC). }
  destruct HFx as (ShFx & ShFxa & AdjFx & _). destruct HFy as (ShFy & ShFya & AdjFy & _).
  pose proof (has_shape4_padded M Nro HM HMpos Hle Hpar nC numslices N a Sha) as Shp.
  pose proof (has_shape4_map_concat nC numslices Nro N _ Shp) as Shp3.
  assert (Shmy : has_shape3 nC (numslices * Nro) N (mask_mul mask y))
    by by apply has_shape3_mask_mul.
  assert (Shw : has_shape3 nC (numslices * Nro) N
                  (waveAdjoint (Fyadj (mask_mul mask y)) psf)).
  { unfold waveAdjoint. apply has_shape3_bmul3; [by apply has_shape3_conj|].
    by apply ShFya. }
  rewrite inner3_mask_mul.
  rewrite AdjFy by (done || (unfold waveForward; apply has_shape3_bmul3; auto)).
  rewrite inner3_wave by apply Hpsf.
  rewrite AdjFx by done.
  rewrite <- Hcb.
  rewrite (inner3_map_concat nC numslices Nro N) by done.
  rewrite (inner4_pad_crop M Nro HM HMpos Hle Hpar nC numslices N) by done.
  rewrite <- (inner3_map_concat nC numslices M N) by done.
  rewrite Hca.
  rewrite (inner3_sforwave nC (numslices * M) N) by done.
  apply C_ext; cbn [re im cmul of_real]; ring.
Qed.

Lemma conj_inner3 a b : conj (inner3 a b) = inner3 b a.
Proof. apply isum_conj. intros x y. apply conj_inner2. Qed.

(** The normal operator of the wave-encoded reconstruction on images. *)
Lemma normalWave_image_self_adjoint x y maps psf mask :
  has_shape2 (numslices * M) N x → has_shape2 (numslices * M) N y →
  has_shape3 nC (numslices * M) N maps →
  has_shape3 1 (numslices * Nro) N psf → mask_shape nC (numslices * Nro) N mask →
  ∃ kx' ky' nx ny,
    senseWaveForward Fx Fy nC numslices M N Nro x maps psf
      (padreadout (Z.of_nat Nro) (Z.of_nat M)) mask = Some kx'
    ∧ senseWaveForward Fx Fy nC numslices M N Nro y maps psf
        (padreadout (Z.of_nat Nro) (Z.of_nat M)) mask = Some ky'
    ∧ senseWaveAdjoint Fxadj Fyadj nC numslices M N Nro kx' maps psf mask = Some nx
    ∧ senseWaveAdjoint Fxadj Fyadj nC numslices M N Nro ky' maps psf mask = Some ny
    ∧ ((0 < nC)%nat → has_shape2 (numslices * M) N nx ∧ has_shape2 (numslices * M) N ny)
    ∧ (nC = 0%nat → nx = [] ∧ ny = [])
    ∧ inner2 nx y = inner2 x ny.
Proof.
  intros Hx Hy Hmaps Hpsf Hmask.
  destruct (senseWaveForward_Some x maps psf mask Hx Hmaps Hpsf Hmask)
    as (ax & _ & _ & Hfx & Shkx).
  destruct (senseWaveForward_Some y maps psf mask Hy Hmaps Hpsf Hmask)
    as (ay & _ & _ & Hfy & Shky).
  destruct (senseWave_adjoint x maps psf mask _ Hx Hmaps Hpsf Hmask Shky)
    as (k1 & ny & Hk1 & _ & Hny & Shny & Hid1).
  destruct (senseWave_adjoint y maps psf mask _ Hy Hmaps Hpsf Hmask Shkx)
    as (k2 & nx & Hk2 & _ & Hnx & Shnx & Hid2).
  rewrite Hfx in Hk1. injection Hk1 as <-.
  rewrite Hfy in Hk2. injection Hk2 as <-.
  eexists _, _, nx, ny. split; [exact Hfx|]. split; [exact Hfy|].
  split; [exact Hnx|]. split; [exact Hny|].
  split; [by auto|]. split.
  { intros Hc0.
    destruct (senseWaveAdjoint_Some _ maps psf mask Shkx Hpsf Hmask) as (b1 & _ & _ & E1).
    destruct (senseWaveAdjoint_Some _ maps psf mask Shky Hpsf Hmask) as (b2 & _ & _ & E2).
    rewrite E1 in Hnx. rewrite E2 in Hny. injection Hnx as <-. injection Hny as <-.
    destruct Hmaps as [Hl _]. rewrite Hc0 in Hl.
    destruct maps; [|done]. by unfold sadjwave. }
  destruct HFx as (_ & _ & _ & Hkx). destruct HFy as (_ & _ & _ & Hky).
  apply (of_real_cancel (kx * ky)).
  { intros H0. by destruct (Qcmult_integral _ _ H0). }
  rewrite <- Hid1.
  rewrite <- (conj_inner2 y nx), <- (conj_of_real (kx * ky)), <- conj_mul.
  rewrite <- Hid2. apply conj_inner3.
Qed.

End AdjointIdentity.



(** X16: For an odd native readout length [M], the window of [crop] has [M - 1]
    rows, so the reshape to [(C, numslices*M, N)] that follows it raises
    ValueError: [senseWaveAdjoint] returns for no argument. *)
Theorem senseWaveAdjoint_odd_readout_raises (Fxadj Fyadj : arr3 C → arr3 C)
    (nC numslices M N Nro : nat) (x maps psf : arr3 C) (mask : maskarg) :
  Nat.odd M = true → (M ≤ Nro)%nat →
  (0 < nC)%nat → (0 < numslices)%nat → (0 < N)%nat →
  senseWaveAdjoint Fxadj Fyadj nC numslices M N Nro x maps psf mask = None.
Proof.
  intros HM Hle Hc Hs Hn. unfold senseWaveAdjoint.
  destruct (reshape4 nC numslices Nro N _) as [a|] eqn:Ha; [|done].
  cbn [mbind option_bind].
  destruct (reshape4_shape _ _ _ _ _ _ Ha) as [Sha _].
  rewrite (reshape3_None nC numslices
             (slice_len Nro (Z.of_nat Nro / 2 - Z.of_nat M / 2)
                (Z.of_nat Nro / 2 + Z.of_nat M / 2)) N); [done| |].
  { unfold crop. by apply has_shape4_slices_len. }
  assert (Hlen : slice_len Nro (Z.of_nat Nro / 2 - Z.of_nat M / 2)
                   (Z.of_nat Nro / 2 + Z.of_nat M / 2) = (M - 1)%nat).
  { apply Nat.odd_spec in HM as [k Hk].
    assert (H1 : Z.of_nat M / 2 = Z.of_nat k).
    { rewrite Hk. replace (Z.of_nat (2 * k + 1)) with (1 + Z.of_nat k * 2) by lia.
      rewrite Z.div_add by lia. done. }
    pose proof (Z.div_mod (Z.of_nat Nro) 2 ltac:(lia)) as Hdm.
    pose proof (Z.mod_pos_bound (Z.of_nat Nro) 2 ltac:(lia)) as Hb.
    rewrite H1. unfold slice_len, slice_bound.
    generalize dependent (Z.of_nat Nro `mod` 2). generalize (Z.of_nat Nro / 2).
    intros h r Hdm Hb.
    repeat match goal with
           | |- context [?a <? ?b] => destruct (Z.ltb_spec a b)
           end; lia. }
  rewrite Hlen.
  assert (HM1 : (1 ≤ M)%nat) by (destruct M; [done|lia]).
  assert (HP : (0 < nC * numslices * N)%nat) by (repeat apply Nat.mul_pos_pos; done).
  replace (nC * numslices * (M - 1) * N)%nat with (nC * numslices * N * (M - 1))%nat by lia.
  replace (nC * (numslices * M) * N)%nat with (nC * numslices * N * M)%nat by lia.
  nia.
Qed.

(** X17: [senseWaveForward] pads by [padreadout = (Nro - M)//2] on both sides.  When
    [Nro < M] the pad width is negative and [np.pad] raises; when [Nro - M] is
    odd the padded readout has [Nro - 1] rows and the reshape to
    [(C, numslices*Nro, N)] raises. *)
Theorem senseWaveForward_padding_raises (Fx Fy : arr3 C → arr3 C)
    (nC numslices M N Nro : nat) (x : arr2 C) (maps psf : arr3 C) (mask : maskarg) :
  (Nro < M)%nat ∨ Nat.odd (Nro - M) = true →
  (0 < nC)%nat → (0 < numslices)%nat → (0 < M)%nat → (0 < N)%nat →
  senseWaveForward Fx Fy nC numslices M N Nro x maps psf
    (padreadout (Z.of_nat Nro) (Z.of_nat M)) mask = None.
Proof.
  intros Hbad Hc Hs HM Hn. unfold senseWaveForward.
  destruct (reshape4 nC numslices M N _) as [a|] eqn:Ha; [|done].
  cbn [mbind option_bind].
  destruct (reshape4_shape _ _ _ _ _ _ Ha) as [Sha _].
  destruct (decide (Nro < M)%nat) as [Hlt|Hge].
  - assert (Hneg : padreadout (Z.of_nat Nro) (Z.of_nat M) < 0).
    { unfold padreadout. apply Z.div_lt_upper_bound; lia. }
    destruct Sha as [Hal Hsh].
    destruct a as [|xa a]; [cbn in Hal; lia|].
    apply Forall_cons in Hsh as [[Hxl _] _].
    destruct xa as [|rows xa]; [cbn in Hxl; lia|].
    unfold resize. change (4 =? 3) with false. change (4 =? 4) with true. cbv iota.
    assert (Hpr : pad_readout czero (padreadout (Z.of_nat Nro) (Z.of_nat M)) rows = None).
    { unfold pad_readout.
      destruct (Z.ltb_spec (padreadout (Z.of_nat Nro) (Z.of_nat M)) 0); [done|lia]. }
    cbn [mapM]. by rewrite Hpr.
  - destruct Hbad as [|Hodd]; [lia|].
    apply Nat.odd_spec in Hodd as [k Hk].
    assert (Hp : padreadout (Z.of_nat Nro) (Z.of_nat M) = Z.of_nat k).
    { unfold padreadout.
      replace (Z.of_nat Nro - Z.of_nat M) with (1 + Z.of_nat k * 2) by lia.
      rewrite Z.div_add by lia. done. }
    rewrite Hp, resize_pad_rows.
    rewrite (reshape3_None nC numslices (k + M + k) N); [done|by apply has_shape4_pad_rows|].
    assert (HP : (0 < nC * numslices * N)%nat) by (repeat apply Nat.mul_pos_pos; done).
    replace (nC * numslices * (k + M + k) * N)%nat
      with (nC * numslices * N * (k + M + k))%nat by lia.
    replace (nC * (numslices * Nro) * N)%nat with (nC * numslices * N * Nro)%nat by lia.
    nia.
Qed.

(** One channel, one slice, native readout length 2 padded to 4, one
    phase-encode column, the identity in place of the two transforms. *)
Definition wave_x : arr2 C := [[cone]; [ci]].
Definition wave_maps : arr3 C := [ [[cone]; [ci]] ].
Definition wave_psf : arr3 C := [ [[cone]; [ci]; [copp cone]; [copp ci]] ].
Definition wave_y : arr3 C := [ [[ci]; [cone]; [ci]; [cone]] ].

Lemma axis_pair_id c r n : axis_pair id id c r n 1%Qc.
Proof.
  split; [done|]. split; [done|]. split; [|done].
  intros a b _ _. unfold id. apply C_ext; cbn [re im cmul of_real]; ring.
Qed.



Lemma wave_psf_unit_modulus : unit_modulus wave_psf.
Proof. repeat constructor; csimp. Qed.



Lemma senseWaveAdjoint_odd_readout_raises_witness :
  senseWaveAdjoint id id 1 1 3 1 9 [ replicate 9 [cone] ] [ replicate 3 [cone] ]
    [ replicate 9 [cone] ] (MaskScalar 1) = None.
Proof.
  apply (senseWaveAdjoint_odd_readout_raises id id 1 1 3 1 9); (reflexivity || lia).
Defined.

Lemma senseWaveForward_padding_raises_witness :
  senseWaveForward id id 1 1 2 1 5 wave_x wave_maps [ replicate 5 [cone] ]
    (padreadout (Z.of_nat 5) (Z.of_nat 2)) (MaskScalar 1) = None.
Proof.
  apply (senseWaveForward_padding_raises id id 1 1 2 1 5); (lia || (right; reflexivity)).
Defined.

End WaveOps.

(** ** What reformattingKspaceForSpark returns (cell 22) *)
Module SparkFacts.
Import NumPy Spark.

(** [1/np.amax(np.abs(a))] for an array with the entries [l]. *)
Definition norm_factor (l : list npfloat) : npfloat :=
  fdiv (Fin 1%Qc) (default NaN (amax (map fabs l))).

(** The scale factor of a block: [1/np.amax(np.abs(..))] with normalization,
    and [1] without. *)
Definition factor (flag : bool) (l : list npfloat) : npfloat :=
  if flag then norm_factor l else Fin 1%Qc.

(** The real and the imaginary parts of one channel of the ACS difference, as
    flat arrays. *)
Definition re_part (pl : arr2 cplx) : list npfloat := concat (map (map fst) pl).
Definition im_part (pl : arr2 cplx) : list npfloat := concat (map (map snd) pl).

(** One channel of the ACS difference after the loop: the real parts scaled by
    the real factor, the imaginary parts by the imaginary factor. *)
Definition scaled_plane (flag : bool) (pl : arr2 cplx) : arr2 cplx :=
  map (map (λ z, (fmul z.1 (factor flag (re_part pl)),
                  fmul z.2 (factor flag (im_part pl))))) pl.

(** One contrast of the split input after the loop. *)
Definition scaled_rows (flag : bool) (row : arr3 npfloat) : arr3 npfloat :=
  if flag
  then map (map (map (λ x, fmul x (norm_factor (concat (concat row)))))) row
  else row.

(** The value the function returns, from the two k-spaces and the bounds of
    the ACS window. *)
Definition reformatted (flag : bool) (inp orig : arr4 cplx) (x0 x1 y0 y1 : Z)
    : spark_data :=
  let diff := sub4 (window x0 (x1 + 1) y0 (y1 + 1) orig)
                   (window x0 (x1 + 1) y0 (y1 + 1) inp) in
  let split := zip_with app (map (map (map (map fst))) inp)
                            (map (map (map (map snd))) inp) in
  let scaled := map (map (scaled_plane flag)) diff in
  SparkData (map (scaled_rows flag) split)
    (expand_dims22 (map (map (map (map fst))) scaled))
    (expand_dims22 (map (map (map (map snd))) scaled))
    (map (map (λ pl, factor flag (re_part pl))) diff)
    (map (map (λ pl, factor flag (im_part pl))) diff).

(** The position [(e', c')] comes before [(e, c)] in the order of the loops. *)
Definition done_before (e c e' c' : nat) : bool :=
  (e' <? e)%nat || ((e' =? e)%nat && (c' <? c)%nat).

Lemma fmul_1 x : fmul x (Fin 1%Qc) = x.
Proof.
  destruct x as [q| | |]; try reflexivity.
  cbn. f_equal. ring.
Qed.

Lemma scaled_plane_false pl : scaled_plane false pl = pl.
Proof.
  unfold scaled_plane. cbn [factor].
  rewrite <- (map_id pl) at 2. apply map_ext. intros r.
  rewrite <- (map_id r) at 2. apply map_ext. intros [a b].
  cbn [fst snd]. by rewrite !fmul_1.
Qed.

Lemma entry_lt {X} nE nC (t : list (list X)) e c v :
  has_shape2 nE nC t → entry t e c = Some v → (e < nE)%nat ∧ (c < nC)%nat.
Proof.
  intros [Hl Hr] He. unfold entry in He.
  destruct (t !! e) as [row|] eqn:Hrow; [|done]. cbn in He.
  split.
  - rewrite <- Hl. by eapply lookup_lt_Some.
  - rewrite <- (proj1 (Forall_lookup _ _) Hr e row Hrow). by eapply lookup_lt_Some.
Qed.

Lemma entry_is_Some {X} nE nC (t : list (list X)) e c :
  has_shape2 nE nC t → (e < nE)%nat → (c < nC)%nat → ∃ v, entry t e c = Some v.
Proof.
  intros Ht He Hc. unfold entry.
  destruct (has_shape2_lookup nE nC t e Ht He) as (row & Hrow & Hl).
  rewrite Hrow. cbn. apply lookup_lt_is_Some_2. lia.
Qed.

(** Two tables of one shape with the same entries are equal. *)
Lemma entry_ext {X} nE nC (t t' : list (list X)) :
  has_shape2 nE nC t → has_shape2 nE nC t' →
  (∀ e c, (e < nE)%nat → (c < nC)%nat → entry t e c = entry t' e c) → t = t'.
Proof.
  intros Ht Ht' Hent.
  apply list_eq_same_length with nE; [apply Ht'|apply Ht|].
  intros e row row' He Hrow Hrow'.
  apply list_eq_same_length with nC;
    [exact (has_shape2_row _ _ _ _ _ Ht' Hrow')
    |exact (has_shape2_row _ _ _ _ _ Ht Hrow)|].
  intros c v v' Hc Hv Hv'.
  specialize (Hent e c He Hc). unfold entry in Hent.
  rewrite Hrow, Hrow' in Hent. cbn in Hent. congruence.
Qed.

Lemma entry_map_map {X Y} (g : X → Y) (t : list (list X)) e c :
  entry (map (map g) t) e c = g <$> entry t e c.
Proof.
  unfold entry. rewrite lookup_map. destruct (t !! e) as [row|]; [|done].
  cbn. by rewrite lookup_map.
Qed.

Lemma has_shape4_table {X} nE nC m n (d : arr4 X) :
  has_shape4 nE nC m n d → has_shape2 nE nC d.
Proof.
  intros [Hl Hd]. split; [done|].
  eapply Forall_impl; [exact Hd|]. by intros row [? _].
Qed.

Lemma has_shape2_map_map {X Y} (g : X → Y) nE nC (t : list (list X)) :
  has_shape2 nE nC t → has_shape2 nE nC (map (map g) t).
Proof. apply has_shape2_fmap. Qed.

Lemma done_before_self e c : done_before e c e c = false.
Proof.
  unfold done_before. rewrite !Nat.ltb_irrefl. by rewrite andb_false_r.
Qed.

Lemma done_before_next e c : done_before e (S c) e c = true.
Proof.
  unfold done_before. rewrite Nat.eqb_refl.
  destruct (Nat.ltb_spec c (S c)); [|lia]. by rewrite orb_true_r.
Qed.

Lemma done_before_other e c e' c' :
  (e', c') ≠ (e, c) → done_before e (S c) e' c' = done_before e c e' c'.
Proof.
  intros Hne. unfold done_before.
  destruct (Nat.eqb_spec e' e) as [->|]; [|done].
  assert (c' ≠ c) by congruence.
  destruct (Nat.ltb_spec c' (S c)); destruct (Nat.ltb_spec c' c); (done || lia).
Qed.

Lemma done_before_row e nC e' c' :
  (c' < nC)%nat → done_before e nC e' c' = done_before (S e) 0 e' c'.
Proof.
  intros Hc. unfold done_before.
  destruct (Nat.ltb_spec e' e); destruct (Nat.ltb_spec e' (S e));
    destruct (Nat.eqb_spec e' e); destruct (Nat.eqb_spec e' (S e));
    destruct (Nat.ltb_spec c' nC); destruct (Nat.ltb_spec c' 0); (done || lia).
Qed.

Section Loops.
(** The locations of the difference, of the split input and of the two tables;
    the arrays they hold before the loops, and their extents. *)
Variables (ld ls lr li : loc).
Hypothesis Hdist : ld ≠ ls ∧ ld ≠ lr ∧ ld ≠ li ∧ ls ≠ lr ∧ ls ≠ li ∧ lr ≠ li.
Variables (flag : bool) (nE nC wx wy nS sx sy : nat).
Variables (D0 : arr4 cplx) (S0 : arr4 npfloat).
Hypothesis ShD0 : has_shape4 nE nC wx wy D0.
Hypothesis ShS0 : has_shape4 nE nS sx sy S0.
Hypothesis Hnonempty :
  flag = true → (0 < wx)%nat ∧ (0 < wy)%nat ∧ (0 < nS)%nat ∧ (0 < sx)%nat ∧ (0 < sy)%nat.

(** The invariant of the two loops at iteration [(e, c)], with [es] contrasts
    of the split input scaled: every block handled before holds its final
    value, every other block the value it had before the loops. *)
Definition inv (es e c : nat) (h : gmap loc buffer) : Prop :=
  ∃ D S Tr Ti,
    h !! ld = Some (BufC D) ∧ h !! ls = Some (BufR S) ∧
    h !! lr = Some (BufT Tr) ∧ h !! li = Some (BufT Ti) ∧
    has_shape4 nE nC wx wy D ∧ has_shape4 nE nS sx sy S ∧
    has_shape2 nE nC Tr ∧ has_shape2 nE nC Ti ∧
    (∀ e' c' pl0, entry D0 e' c' = Some pl0 →
       entry D e' c'
       = Some (if done_before e c e' c' then scaled_plane flag pl0 else pl0)
       ∧ entry Tr e' c'
         = Some (if done_before e c e' c' then factor flag (re_part pl0) else Fin 0%Qc)
       ∧ entry Ti e' c'
         = Some (if done_before e c e' c' then factor flag (im_part pl0) else Fin 0%Qc)) ∧
    (∀ e' row0, S0 !! e' = Some row0 →
       S !! e' = Some (if (e' <? es)%nat then scaled_rows flag row0 else row0)).

Lemma channel_step e c h :
  (e < nE)%nat → (c < nC)%nat → inv (S e) e c h →
  ∃ h', channel_body flag (np_real ld) (np_imag ld) lr li e c h = (h', inr ())
        ∧ inv (S e) e (S c) h'.
Proof using Hdist ShD0 Hnonempty.
  destruct Hdist as (Hds & Hdr & Hdi & Hsr & Hsi & Hri).
  intros He Hc (D & Sp & Tr & Ti & HD & HS & HTr & HTi & ShD & ShS & ShTr & ShTi
                & Hent & Hsplit).
  destruct (has_shape4_lookup _ _ _ _ D e ShD He) as (row & Hrow & Shrow).
  destruct (has_shape3_lookup _ _ _ row c Shrow Hc) as (pl & Hpl & Shpl).
  destruct (has_shape2_lookup _ _ Tr e ShTr He) as (rr & Hrr & Lrr).
  destruct (has_shape2_lookup _ _ Ti e ShTi He) as (ri & Hri' & Lri).
  destruct (entry_is_Some nE nC D0 e c (has_shape4_table _ _ _ _ _ ShD0) He Hc)
    as [pl0 Hpl0].
  assert (pl0 = pl) as ->.
  { destruct (Hent e c pl0 Hpl0) as (HDe & _ & _).
    rewrite done_before_self in HDe. unfold entry in HDe.
    rewrite Hrow in HDe. cbn in HDe. congruence. }
  set (sr := factor flag (re_part pl)). set (si := factor flag (im_part pl)).
  set (pl1 := map (map (scale_comp false sr)) pl).
  set (pl2 := map (map (scale_comp true si)) pl1).
  set (Tr1 := <[e := <[c := sr]> rr]> Tr).
  set (Ti1 := <[e := <[c := si]> ri]> Ti).
  set (row1 := <[c := pl1]> row).
  set (D1 := <[e := row1]> D).
  set (D2 := <[e := <[c := pl2]> row1]> D1).
  set (h1 := <[lr := BufT Tr1]> h).
  set (h2 := <[li := BufT Ti1]> h1).
  set (h3 := <[ld := BufC D1]> h2).
  set (h4 := <[ld := BufC D2]> h3).
  assert (Hrow1 : D1 !! e = Some row1).
  { apply list_lookup_insert_eq. by eapply lookup_lt_Some. }
  assert (Hpl1 : row1 !! c = Some pl1).
  { apply list_lookup_insert_eq. by eapply lookup_lt_Some. }
  assert (Hfac :
    (if flag then
       mr <- amax_abs_ec (np_real ld) e c ;;
       mi <- amax_abs_ec (np_imag ld) e c ;;
       ret (fdiv (Fin 1%Qc) mr, fdiv (Fin 1%Qc) mi)
     else ret (Fin 1%Qc, Fin 1%Qc)) h = (h, inr (sr, si))).
  { unfold sr, si, factor. destruct flag; [|done].
    destruct Hnonempty as (Hwx & Hwy & _); [done|].
    assert (Hne : ∀ b, map fabs (concat (map (map (comp b)) pl)) ≠ []).
    { intros b. apply map_nonempty.
      eapply has_shape2_concat_nonempty; [by apply has_shape2_fmap|done..]. }
    destruct (amax_is_Some _ (Hne false)) as [vr Hvr].
    destruct (amax_is_Some _ (Hne true)) as [vi Hvi].
    rewrite (bind_run _ _ h h vr)
      by (by eapply (run_amax_abs_ec h false ld D e c row pl)).
    rewrite (bind_run _ _ h h vi)
      by (by eapply (run_amax_abs_ec h true ld D e c row pl)).
    unfold norm_factor, re_part, im_part.
    change (map (map fst) pl) with (map (map (comp false)) pl).
    change (map (map snd) pl) with (map (map (comp true)) pl).
    by rewrite Hvr, Hvi. }
  assert (Hrun : channel_body flag (np_real ld) (np_imag ld) lr li e c h = (h4, inr ())).
  { unfold channel_body.
    rewrite (bind_run _ _ h h (sr, si) Hfac).
    cbv zeta. cbn [fst snd].
    rewrite (bind_run _ _ h h1 ())
      by (apply (run_setitem_table h lr Tr e c rr sr); [done|done|lia]).
    rewrite (bind_run _ _ h1 h2 ()).
    2:{ apply (run_setitem_table h1 li Ti e c ri si); [|done|lia].
        unfold h1. by rewrite lookup_insert_ne. }
    rewrite (bind_run _ _ h2 h3 ()).
    2:{ apply (run_imul_ec h2 false ld D e c row pl sr); [|done|done].
        unfold h2, h1. by rewrite !lookup_insert_ne. }
    apply (run_imul_ec h3 true ld D1 e c row1 pl1 si); [|done|done].
    unfold h3. by rewrite lookup_insert_eq. }
  exists h4. split; [done|].
  exists D2, Sp, Tr1, Ti1.
  assert (Shpl1 : has_shape2 wx wy pl1) by by apply has_shape2_fmap.
  assert (Shpl2 : has_shape2 wx wy pl2) by by apply has_shape2_fmap.
  assert (Shrow1 : has_shape3 nC wx wy row1) by by apply has_shape3_insert.
  assert (ShD1 : has_shape4 nE nC wx wy D1) by by apply has_shape4_insert.
  assert (Hpl2 : pl2 = scaled_plane flag pl).
  { unfold pl2, pl1, scaled_plane. rewrite map_map. apply map_ext. intros r.
    rewrite map_map. apply map_ext. by intros [a b]. }
  split_and!.
  - unfold h4. by rewrite lookup_insert_eq.
  - unfold h4, h3, h2, h1. by rewrite !lookup_insert_ne.
  - unfold h4, h3, h2, h1. rewrite !lookup_insert_ne by done.
    by rewrite lookup_insert_eq.
  - unfold h4, h3, h2. rewrite !lookup_insert_ne by done.
    by rewrite lookup_insert_eq.
  - apply has_shape4_insert; [done|]. by apply has_shape3_insert.
  - done.
  - apply has_shape2_insert; [done|]. by rewrite length_insert.
  - apply has_shape2_insert; [done|]. by rewrite length_insert.
  - intros e' c' pl0 Hpl0'.
    destruct (decide ((e', c') = (e, c))) as [[= -> ->]|Hne'].
    + assert (pl0 = pl) as -> by congruence.
      rewrite done_before_next. split_and!.
      * unfold D2. rewrite (entry_insert_eq D1 e c row1 pl2); [congruence|done|].
        unfold row1. rewrite length_insert. by eapply lookup_lt_Some.
      * unfold Tr1. by rewrite (entry_insert_eq Tr e c rr sr) by (done || lia).
      * unfold Ti1. by rewrite (entry_insert_eq Ti e c ri si) by (done || lia).
    + rewrite (done_before_other e c e' c' Hne').
      destruct (Hent e' c' pl0 Hpl0') as (HDe & HTre & HTie).
      split_and!.
      * unfold D2. rewrite (entry_insert_ne D1 e c e' c' row1 pl2) by done.
        unfold D1, row1. by rewrite (entry_insert_ne D e c e' c' row pl1).
      * unfold Tr1. by rewrite (entry_insert_ne Tr e c e' c' rr sr).
      * unfold Ti1. by rewrite (entry_insert_ne Ti e c e' c' ri si).
  - done.
Qed.

Lemma contrast_step e h :
  (e < nE)%nat → inv e e 0 h →
  ∃ h', contrast_body flag nC (RRef ls PSelf) (np_real ld) (np_imag ld) lr li e h
          = (h', inr ())
        ∧ inv (S e) (S e) 0 h'.
Proof using Hdist ShD0 ShS0 Hnonempty.
  intros He Hinv.
  assert (Hscale : ∃ h1,
    (if flag then
       mx <- amax_abs_e (RRef ls PSelf) e ;;
       imul_e (RRef ls PSelf) e (fdiv (Fin 1%Qc) mx)
     else ret ()) h = (h1, inr ()) ∧ inv (S e) e 0 h1).
  { destruct Hinv as (D & Sp & Tr & Ti & HD & HS & HTr & HTi & ShD & ShS & ShTr & ShTi
                      & Hent & Hsplit).
    destruct Hdist as (Hds & Hdr & Hdi & Hsr & Hsi & Hri).
    destruct (has_shape4_lookup _ _ _ _ Sp e ShS He) as (srow & Hsrow & Shsrow).
    destruct (has_shape4_lookup _ _ _ _ S0 e ShS0 He) as (row0 & Hrow0 & _).
    assert (row0 = srow) as ->.
    { pose proof (Hsplit e row0 Hrow0) as Hs. rewrite Nat.ltb_irrefl in Hs. congruence. }
    assert (Hcase : flag = true ∨ flag = false) by (destruct flag; auto).
    destruct Hcase as [Hf|Hf].
    - destruct Hnonempty as (_ & _ & HnS & Hsx & Hsy); [done|].
      destruct (amax_is_Some (map fabs (concat (concat srow)))) as [mx Hmx].
      { apply map_nonempty. by eapply has_shape3_concat_nonempty. }
      set (S1 := <[e := map (map (map (λ x, fmul x (fdiv (Fin 1%Qc) mx)))) srow]> Sp).
      exists (<[ls := BufR S1]> h). split.
      + rewrite Hf. rewrite (bind_run _ _ h h mx) by (by eapply run_amax_abs_e).
        by apply run_imul_e.
      + exists D, S1, Tr, Ti.
        rewrite lookup_insert_eq, !lookup_insert_ne by done.
        split_and!; try done.
        * apply has_shape4_insert; [done|]. by apply has_shape3_fmap.
        * intros e' row0 Hrow0'. unfold S1.
          destruct (decide (e' = e)) as [->|Hne].
          -- rewrite list_lookup_insert_eq by by eapply lookup_lt_Some.
             destruct (Nat.ltb_spec e (S e)); [|lia].
             assert (row0 = srow) as -> by congruence.
             unfold scaled_rows, norm_factor. by rewrite Hf, Hmx.
          -- rewrite list_lookup_insert_ne by done.
             rewrite (Hsplit e' row0 Hrow0').
             destruct (Nat.ltb_spec e' e); destruct (Nat.ltb_spec e' (S e));
               (done || lia).
    - exists h. split; [by rewrite Hf|].
      exists D, Sp, Tr, Ti. split_and!; try done.
      intros e' row0 Hrow0'. rewrite (Hsplit e' row0 Hrow0').
      unfold scaled_rows. rewrite Hf.
      by destruct (Nat.ltb_spec e' e); destruct (Nat.ltb_spec e' (S e)). }
  destruct Hscale as (h1 & Hrun1 & Hinv1).
  destruct (run_for_seq (inv (S e) e)
              (channel_body flag (np_real ld) (np_imag ld) lr li e) 0 nC h1 Hinv1)
    as (h' & Hfor & Hinv').
  { intros c h2 Hc Hinv2. apply channel_step; [done|lia|done]. }
  exists h'. split.
  - unfold contrast_body. by rewrite (bind_run _ _ h h1 () Hrun1).
  - destruct Hinv' as (D & Sp & Tr & Ti & HD & HS & HTr & HTi & ShD & ShS & ShTr & ShTi
                       & Hent & Hsplit).
    exists D, Sp, Tr, Ti. split_and!; try done.
    intros e' c' pl0 Hpl0.
    destruct (entry_lt nE nC D0 e' c' pl0 (has_shape4_table _ _ _ _ _ ShD0) Hpl0)
      as [_ Hc'].
    rewrite <- (done_before_row e nC e' c' Hc'). by apply Hent.
Qed.

(** The two loops run to their end, and leave the scaled difference, the
    scaled split input and the two tables of factors. *)
Lemma loops_run h :
  inv 0 0 0 h →
  ∃ h',
    for_ (seq 0 nE)
      (contrast_body flag nC (RRef ls PSelf) (np_real ld) (np_imag ld) lr li) h
    = (h', inr ())
    ∧ h' !! ld = Some (BufC (map (map (scaled_plane flag)) D0))
    ∧ h' !! ls = Some (BufR (map (scaled_rows flag) S0))
    ∧ h' !! lr = Some (BufT (map (map (λ pl, factor flag (re_part pl))) D0))
    ∧ h' !! li = Some (BufT (map (map (λ pl, factor flag (im_part pl))) D0)).
Proof using Hdist ShD0 ShS0 Hnonempty.
  intros Hinv.
  destruct (run_for_seq (λ e, inv e e 0)
              (contrast_body flag nC (RRef ls PSelf) (np_real ld) (np_imag ld) lr li)
              0 nE h Hinv) as (h' & Hfor & Hinv').
  { intros e h1 He Hinv1. apply contrast_step; [lia|done]. }
  destruct Hinv' as (D & Sp & Tr & Ti & HD & HS & HTr & HTi & ShD & ShS & ShTr & ShTi
                     & Hent & Hsplit).
  exists h'. split; [done|].
  pose proof (has_shape4_table _ _ _ _ _ ShD0) as ShT0.
  assert (Hdone : ∀ e' c', (e' < nE)%nat → done_before (0 + nE) 0 e' c' = true).
  { intros e' c' He'. unfold done_before. cbn [Nat.add].
    destruct (Nat.ltb_spec e' nE); [done|lia]. }
  assert (HDeq : D = map (map (scaled_plane flag)) D0).
  { apply (entry_ext nE nC);
      [by eapply has_shape4_table|by apply has_shape2_map_map|].
    intros e c He Hc. rewrite entry_map_map.
    destruct (entry_is_Some nE nC D0 e c ShT0 He Hc) as [pl0 Hpl0].
    destruct (Hent e c pl0 Hpl0) as (HDe & _ & _).
    rewrite Hdone in HDe by done. by rewrite HDe, Hpl0. }
  assert (HTreq : Tr = map (map (λ pl, factor flag (re_part pl))) D0).
  { apply (entry_ext nE nC); [done|by apply has_shape2_map_map|].
    intros e c He Hc. rewrite entry_map_map.
    destruct (entry_is_Some nE nC D0 e c ShT0 He Hc) as [pl0 Hpl0].
    destruct (Hent e c pl0 Hpl0) as (_ & HTe & _).
    rewrite Hdone in HTe by done. by rewrite HTe, Hpl0. }
  assert (HTieq : Ti = map (map (λ pl, factor flag (im_part pl))) D0).
  { apply (entry_ext nE nC); [done|by apply has_shape2_map_map|].
    intros e c He Hc. rewrite entry_map_map.
    destruct (entry_is_Some nE nC D0 e c ShT0 He Hc) as [pl0 Hpl0].
    destruct (Hent e c pl0 Hpl0) as (_ & _ & HTe).
    rewrite Hdone in HTe by done. by rewrite HTe, Hpl0. }
  assert (HSeq : Sp = map (scaled_rows flag) S0).
  { apply list_eq_same_length with nE;
      [rewrite length_map; apply ShS0|apply ShS|].
    intros e row row' He Hrow Hrow'.
    rewrite lookup_map in Hrow'.
    destruct (S0 !! e) as [row0|] eqn:Hrow0; [|done].
    rewrite (Hsplit e row0 Hrow0) in Hrow.
    destruct (Nat.ltb_spec e (0 + nE)); [|lia]. cbn in Hrow'. congruence. }
  by rewrite <- HDeq, <- HSeq, <- HTreq, <- HTieq.
Qed.

End Loops.

(** The whole function on well-shaped arguments. *)
Lemma reformatting_run (h : gmap loc buffer) (inputKspace kspaceOriginal : loc)
    (inp orig : arr4 cplx) (acsregionX acsregionY : list Z)
    (acsx acsy x0 x1 y0 y1 : Z) (nE nC m n : nat) (flag : bool) :
  h !! inputKspace = Some (BufC inp) → h !! kspaceOriginal = Some (BufC orig) →
  (0 < nE)%nat → has_shape4 nE nC m n inp → has_shape4 nE nC m n orig →
  getitem acsregionX 0 = Some x0 → getitem acsregionX (acsx - 1) = Some x1 →
  getitem acsregionY 0 = Some y0 → getitem acsregionY (acsy - 1) = Some y1 →
  (flag = true →
   (0 < nC)%nat ∧ (0 < slice_len m x0 (x1 + 1))%nat ∧ (0 < slice_len n y0 (y1 + 1))%nat) →
  ∃ h',
    reformattingKspaceForSpark inputKspace kspaceOriginal acsregionX acsregionY
      acsx acsy flag h
    = (h', inr (reformatted flag inp orig x0 x1 y0 y1)).
Proof.
  intros Hin Horig HnEpos Shin Shorig Hx0 Hx1 Hy0 Hy1 Hflag.
  set (wx := slice_len m x0 (x1 + 1)) in *.
  set (wy := slice_len n y0 (y1 + 1)) in *.
  set (crop := window x0 (x1 + 1) y0 (y1 + 1) orig) in *.
  set (grappa := window x0 (x1 + 1) y0 (y1 + 1) inp) in *.
  assert (Shcrop : has_shape4 nE nC wx wy crop) by by apply has_shape4_window.
  assert (Shgrappa : has_shape4 nE nC wx wy grappa) by by apply has_shape4_window.
  assert (HnE : length inp = nE) by apply Shin.
  assert (HnC : length (default [] (head inp)) = nC).
  { destruct Shin as [Hl Hs]. destruct inp as [|row inp']; [cbn in Hl; lia|].
    apply Forall_cons in Hs as [[Hr _] _]. done. }
  set (D0 := sub4 crop grappa).
  set (S0 := zip_with app (map (map (map (map fst))) inp)
                          (map (map (map (map snd))) inp)).
  set (T0 := replicate nE (replicate nC (Fin 0%Qc))).
  assert (ShD0 : has_shape4 nE nC wx wy D0) by by apply has_shape4_zip_with.
  assert (ShS0 : has_shape4 nE (nC + nC) m n S0) by by apply has_shape4_split.
  assert (Hnonempty : flag = true →
            (0 < wx)%nat ∧ (0 < wy)%nat ∧ (0 < nC + nC)%nat ∧ (0 < m)%nat ∧ (0 < n)%nat).
  { intros Hf. destruct (Hflag Hf) as (HC & Hwx & Hwy).
    pose proof (slice_len_le m x0 (x1 + 1)). pose proof (slice_len_le n y0 (y1 + 1)).
    unfold wx, wy in *. lia. }
  destruct (run_alloc h (BufC D0)) as (ld & Hald & Hld).
  set (h1 := <[ld := BufC D0]> h) in *.
  destruct (run_alloc h1 (BufC inp)) as (lk & Halk & Hlk).
  set (h2 := <[lk := BufC inp]> h1) in *.
  destruct (run_alloc h2 (BufR S0)) as (ls & Hals & Hls).
  set (h3 := <[ls := BufR S0]> h2) in *.
  destruct (run_alloc h3 (BufT T0)) as (lr & Halr & Hlr).
  set (h4 := <[lr := BufT T0]> h3) in *.
  destruct (run_alloc h4 (BufT T0)) as (li & Hali & Hli).
  set (h5 := <[li := BufT T0]> h4) in *.
  assert (H1d : h1 !! ld = Some (BufC D0)) by apply lookup_insert_eq.
  assert (Hdk : ld ≠ lk) by congruence.
  assert (H2k : h2 !! lk = Some (BufC inp)) by apply lookup_insert_eq.
  assert (H2d : h2 !! ld = Some (BufC D0))
    by (unfold h2; rewrite lookup_insert_ne; [done|congruence]).
  assert (Hds : ld ≠ ls) by congruence.
  assert (Hks : lk ≠ ls) by congruence.
  assert (H3s : h3 !! ls = Some (BufR S0)) by apply lookup_insert_eq.
  assert (H3d : h3 !! ld = Some (BufC D0))
    by (unfold h3; rewrite lookup_insert_ne; [done|congruence]).
  assert (Hsr : ls ≠ lr) by congruence.
  assert (Hdr : ld ≠ lr) by congruence.
  assert (H4r : h4 !! lr = Some (BufT T0)) by apply lookup_insert_eq.
  assert (H4s : h4 !! ls = Some (BufR S0))
    by (unfold h4; rewrite lookup_insert_ne; [done|congruence]).
  assert (H4d : h4 !! ld = Some (BufC D0))
    by (unfold h4; rewrite lookup_insert_ne; [done|congruence]).
  assert (Hri : lr ≠ li) by congruence.
  assert (Hsi : ls ≠ li) by congruence.
  assert (Hdi : ld ≠ li) by congruence.
  assert (H5i : h5 !! li = Some (BufT T0)) by apply lookup_insert_eq.
  assert (H5r : h5 !! lr = Some (BufT T0))
    by (unfold h5; rewrite lookup_insert_ne; [done|congruence]).
  assert (H5s : h5 !! ls = Some (BufR S0))
    by (unfold h5; rewrite lookup_insert_ne; [done|congruence]).
  assert (H5d : h5 !! ld = Some (BufC D0))
    by (unfold h5; rewrite lookup_insert_ne; [done|congruence]).
  assert (Hinv : inv ld ls lr li flag nE nC wx wy (nC + nC) m n D0 S0 0 0 0 h5).
  { exists D0, S0, T0, T0.
    split_and!; [done|done|done|done|done|done|..].
    - apply has_shape2_replicate.
    - apply has_shape2_replicate.
    - intros e' c' pl0 Hpl0.
      destruct (entry_lt nE nC D0 e' c' pl0 (has_shape4_table _ _ _ _ _ ShD0) Hpl0)
        as [He' Hc'].
      assert (Hd : done_before 0 0 e' c' = false).
      { unfold done_before. destruct (Nat.ltb_spec e' 0); [lia|].
        destruct (Nat.ltb_spec c' 0); [lia|]. by rewrite andb_false_r. }
      rewrite Hd. split; [done|].
      assert (HT : entry T0 e' c' = Some (Fin 0%Qc)).
      { unfold entry, T0. rewrite lookup_replicate_2 by done. cbn.
        by rewrite lookup_replicate_2. }
      done.
    - intros e' row0 Hrow0. by destruct (Nat.ltb_spec e' 0); [lia|]. }
  destruct (loops_run ld ls lr li ltac:(done) flag nE nC wx wy (nC + nC) m n D0 S0
              ShD0 ShS0 Hnonempty h5 Hinv)
    as (h' & Hloop & HD & HS & HTr & HTi).
  exists h'.
  unfold reformattingKspaceForSpark.
  rewrite (bind_run _ _ _ _ _ (run_load_complex _ _ _ Hin)).
  rewrite (bind_run _ _ _ _ _ (run_load_complex _ _ _ Horig)).
  rewrite (bind_run _ _ h h x0) by by apply run_lift.
  rewrite (bind_run _ _ h h x1) by by apply run_lift.
  rewrite (bind_run _ _ h h y0) by by apply run_lift.
  rewrite (bind_run _ _ h h y1) by by apply run_lift.
  cbv zeta.
  rewrite (bind_run _ _ h h D0)
    by (apply run_lift; by apply (ew_sub4 nE nC wx wy)).
  rewrite (bind_run _ _ _ _ _ Hald).
  rewrite (bind_run _ _ _ _ _ Halk).
  rewrite (bind_run _ _ h2 h2 (map (map (map (map fst))) inp)).
  2:{ apply (run_load_real _ _ (BufC inp)); [|done].
      unfold h2. apply lookup_insert_eq. }
  rewrite (bind_run _ _ h2 h2 (map (map (map (map snd))) inp)).
  2:{ apply (run_load_real _ _ (BufC inp)); [|done].
      unfold h2. apply lookup_insert_eq. }
  rewrite (bind_run _ _ _ _ _ Hals).
  rewrite HnE, HnC.
  rewrite (bind_run _ _ _ _ _ Halr).
  rewrite (bind_run _ _ _ _ _ Hali).
  rewrite (bind_run _ _ _ _ _ Hloop).
  rewrite (bind_run _ _ h' h' _ (run_load_real h' (RRef ls PSelf) _ _ HS eq_refl)).
  rewrite (bind_run _ _ h' h' _ (run_load_real h' (np_real ld) _ _ HD eq_refl)).
  rewrite (bind_run _ _ h' h' _ (run_load_real h' (np_imag ld) _ _ HD eq_refl)).
  rewrite (bind_run _ _ _ _ _ (run_load_table _ _ _ HTr)).
  rewrite (bind_run _ _ _ _ _ (run_load_table _ _ _ HTi)).
  done.
Qed.

(** The shape [(E, C, 1, 1, wx, wy)] of a target with its two added axes. *)
Definition target_shape {X} (nE nC wx wy : nat) (t : list (list (arr4 X))) : Prop :=
  has_shape2 nE nC t ∧ Forall (Forall (has_shape4 1 1 wx wy)) t.

Lemma target_shape_expand_dims22 {X} nE nC wx wy (d : arr4 X) :
  has_shape4 nE nC wx wy d → target_shape nE nC wx wy (expand_dims22 d).
Proof.
  intros [Hl Hd]. unfold expand_dims22. split.
  - split; [by rewrite length_map|].
    apply Forall_map. eapply Forall_impl; [exact Hd|].
    cbn. intros row [Hrow _]. by rewrite length_map.
  - apply Forall_map. eapply Forall_impl; [exact Hd|].
    cbn. intros row [_ Hrow]. apply Forall_map.
    eapply Forall_impl; [exact Hrow|]. cbn. intros pl Hpl.
    repeat (split || constructor); apply Hpl.
Qed.

Lemma has_shape4_map_planes {X Y} (g : arr2 X → arr2 Y) nE nC wx wy (d : arr4 X) :
  (∀ pl, has_shape2 wx wy pl → has_shape2 wx wy (g pl)) →
  has_shape4 nE nC wx wy d → has_shape4 nE nC wx wy (map (map g) d).
Proof.
  intros Hg [Hl Hd]. split; [by rewrite length_map|].
  apply Forall_map. eapply Forall_impl; [exact Hd|].
  cbn. intros row [Hrow Hpl]. split; [by rewrite length_map|].
  apply Forall_map. eapply Forall_impl; [exact Hpl|]. exact Hg.
Qed.

Lemma has_shape4_fmap {X Y} (g : X → Y) nE nC wx wy (d : arr4 X) :
  has_shape4 nE nC wx wy d → has_shape4 nE nC wx wy (map (map (map (map g))) d).
Proof. apply has_shape4_map_planes. intros pl. apply has_shape2_fmap. Qed.

(** X18: What [reformattingKspaceForSpark] returns has the shapes of its inputs,
    with or without normalization (with it, for at least one channel and a
    non-empty ACS window): the split k-space has the shape (E, 2C, M, N), the
    two targets the shape (E, C, 1, 1, wx, wy) of the ACS window, the two
    tables the shape (E, C); and without normalization the tables hold ones.
    The values of the arrays are rounded by the code and are left out. *)
Theorem reformatting_returns_shapes (h : gmap loc buffer)
    (inputKspace kspaceOriginal : loc) (inp orig : arr4 cplx)
    (acsregionX acsregionY : list Z) (acsx acsy x0 x1 y0 y1 : Z) (nE nC m n : nat)
    (normalizationflag : bool) :
  h !! inputKspace = Some (BufC inp) → h !! kspaceOriginal = Some (BufC orig) →
  (0 < nE)%nat → has_shape4 nE nC m n inp → has_shape4 nE nC m n orig →
  getitem acsregionX 0 = Some x0 → getitem acsregionX (acsx - 1) = Some x1 →
  getitem acsregionY 0 = Some y0 → getitem acsregionY (acsy - 1) = Some y1 →
  (normalizationflag = true →
   (0 < nC)%nat ∧ (0 < slice_len m x0 (x1 + 1))%nat
   ∧ (0 < slice_len n y0 (y1 + 1))%nat) →
  ∃ h' d,
    reformattingKspaceForSpark inputKspace kspaceOriginal acsregionX acsregionY
      acsx acsy normalizationflag h
    = (h', inr d)
    ∧ has_shape4 nE (nC + nC) m n (kspace_grappa_split d)
    ∧ target_shape nE nC (slice_len m x0 (x1 + 1)) (slice_len n y0 (y1 + 1))
        (acs_difference_real d)
    ∧ target_shape nE nC (slice_len m x0 (x1 + 1)) (slice_len n y0 (y1 + 1))
        (acs_difference_imag d)
    ∧ has_shape2 nE nC (chan_scale_factors_real d)
    ∧ has_shape2 nE nC (chan_scale_factors_imag d)
    ∧ (normalizationflag = false →
       chan_scale_factors_real d = replicate nE (replicate nC (Fin 1%Qc))
       ∧ chan_scale_factors_imag d = replicate nE (replicate nC (Fin 1%Qc))).
Proof.
  intros Hin Horig HnE Shin Shorig Hx0 Hx1 Hy0 Hy1 Hflag.
  destruct (reformatting_run h inputKspace kspaceOriginal inp orig acsregionX acsregionY
              acsx acsy x0 x1 y0 y1 nE nC m n normalizationflag) as (h' & Hrun);
    try done.
  exists h', (reformatted normalizationflag inp orig x0 x1 y0 y1).
  split; [done|]. unfold reformatted. cbn [kspace_grappa_split acs_difference_real
    acs_difference_imag chan_scale_factors_real chan_scale_factors_imag].
  set (diff := sub4 (window x0 (x1 + 1) y0 (y1 + 1) orig)
                    (window x0 (x1 + 1) y0 (y1 + 1) inp)).
  assert (Shd : has_shape4 nE nC (slice_len m x0 (x1 + 1)) (slice_len n y0 (y1 + 1)) diff).
  { apply has_shape4_zip_with; by apply has_shape4_window. }
  assert (Shs : has_shape4 nE nC (slice_len m x0 (x1 + 1)) (slice_len n y0 (y1 + 1))
                  (map (map (scaled_plane normalizationflag)) diff)).
  { apply has_shape4_map_planes; [|done]. intros pl. apply has_shape2_fmap. }
  assert (Hones : ∀ (g : arr2 cplx → npfloat),
            (∀ pl, g pl = Fin 1%Qc) →
            map (map g) diff = replicate nE (replicate nC (Fin 1%Qc))).
  { intros g Hg. apply (entry_ext nE nC).
    - apply has_shape2_map_map. by eapply has_shape4_table.
    - apply has_shape2_replicate.
    - intros e c He Hc. rewrite entry_map_map.
      destruct (entry_is_Some nE nC diff e c (has_shape4_table _ _ _ _ _ Shd) He Hc)
        as [pl Hpl].
      rewrite Hpl. cbn. rewrite Hg. unfold entry.
      rewrite lookup_replicate_2 by done. cbn. by rewrite lookup_replicate_2. }
  split.
  { pose proof (has_shape4_split nE nC m n inp Shin) as [Hl Hrows].
    split; [by rewrite length_map|].
    apply Forall_map. eapply Forall_impl; [exact Hrows|].
    cbn. intros row Hrow. unfold scaled_rows.
    destruct normalizationflag; [by apply has_shape3_fmap|done]. }
  split; [by apply target_shape_expand_dims22, has_shape4_fmap|].
  split; [by apply target_shape_expand_dims22, has_shape4_fmap|].
  split; [apply has_shape2_map_map; by eapply has_shape4_table|].
  split; [apply has_shape2_map_map; by eapply has_shape4_table|].
  intros ->. cbn [factor]. by rewrite !(Hones _ (λ _, eq_refl)).
Qed.

(** The store of the examples above: one contrast, one channel, 2 x 2 samples,
    the whole array as ACS region, with normalization. *)
Lemma reformatting_returns_shapes_witness :
  ∃ h' d,
    reformattingKspaceForSpark 0%nat 1%nat [0; 1] [0; 1] 2 2 true store_ex
    = (h', inr d)
    ∧ has_shape4 1 (1 + 1) 2 2 (kspace_grappa_split d)
    ∧ target_shape 1 1 (slice_len 2 0 (1 + 1)) (slice_len 2 0 (1 + 1))
        (acs_difference_real d)
    ∧ target_shape 1 1 (slice_len 2 0 (1 + 1)) (slice_len 2 0 (1 + 1))
        (acs_difference_imag d)
    ∧ has_shape2 1 1 (chan_scale_factors_real d)
    ∧ has_shape2 1 1 (chan_scale_factors_imag d)
    ∧ (true = false →
       chan_scale_factors_real d = replicate 1 (replicate 1 (Fin 1%Qc))
       ∧ chan_scale_factors_imag d = replicate 1 (replicate 1 (Fin 1%Qc))).
Proof.
  apply (reformatting_returns_shapes store_ex 0%nat 1%nat input_ex original_ex
           [0; 1] [0; 1] 2 2 0 1 0 1 1 1 2 2 true).
  - reflexivity.
  - reflexivity.
  - lia.
  - repeat (split || constructor).
  - repeat (split || constructor).
  - reflexivity.
  - reflexivity.
  - reflexivity.
  - reflexivity.
  - intros _. split; [lia|]. split; vm_compute; lia.
Defined.

End SparkFacts.

(** ** The networks' dictionaries (cells 23, 26 and 28) *)
Module Training.
Import NumPy Shift.

(** *** The keys *)

(** ['model' + 'E' + str(e) + 'C' + str(c) + part], [part] being ['r'] or
    ['i']. *)
Definition model_name (e c : nat) (part : string) : string :=
  "model" +:+ "E" +:+ pretty e +:+ "C" +:+ pretty c +:+ part.

Definition is_digit (a : Ascii.ascii) : bool :=
  ((48 <=? Ascii.nat_of_ascii a) && (Ascii.nat_of_ascii a <=? 57))%nat.

Fixpoint digits (s : string) : Prop :=
  match s with
  | EmptyString => True
  | String a s => is_digit a = true ∧ digits s
  end.

(** *** trainingSparkNetwork (cell 23)

    The networks are torch modules of [models.py], which is not part of the
    sources, and they are trained by torch's Adam.  A new network
    [models.SPARK_Netv2(coils = C, kernelsize = 3, acsx = acsx, acsy = acsy)]
    is taken as a function of [C] and of the number of networks created before
    it (the state of torch's random generator); [Adam] is the new optimizer of
    a network, and [epoch] one pass of the training loop's body (zero_grad,
    the forward pass on [kspsplit], the loss against the target, backward and
    the optimizer's step), none of which is taken to raise. *)
Section Networks.
Context {net opt : Type}.
Variable SPARK_Netv2 : nat → nat → net.
Variable Adam : net → opt.
Variable epoch : arr4 Spark.npfloat → arr4 Spark.npfloat → net * opt → net * opt.
Variable iterations : nat.

(** The network after the [iterations] passes. *)
Definition trained (C created : nat) (kspsplit target : arr4 Spark.npfloat) : net :=
  let model := SPARK_Netv2 C created in
  (Nat.iter iterations (epoch kspsplit target) (model, Adam model)).1.

(** The body of the two loops over [e] and [c]: the state is the dictionary
    and the list of names.  [kspaceGrappaSplit[e,:,:,:]] is read before the
    training loop, the target [acsDifference[e,c,:,:,:,:]] in each of its
    passes, so not at all when [iterations] is 0. *)
Definition train_one (part : string) (created C : nat)
    (kspaceGrappaSplit : arr4 Spark.npfloat)
    (acsDifference : list (list (arr4 Spark.npfloat)))
    (e c : nat) (st : gmap string net * list string)
    : option (gmap string net * list string) :=
  let model_name := model_name e c part in
  let model := SPARK_Netv2 C (created + e * C + c) in
  ks ← kspaceGrappaSplit !! e;
  let kspsplit := [ks] in
  model ← match iterations with
          | O => Some model
          | S _ =>
              row ← acsDifference !! e;
              target ← row !! c;
              Some (trained C (created + e * C + c) kspsplit target)
          end;
  Some (<[model_name := model]> st.1, st.2 ++ [model_name]).

Definition train_part (part : string) (created E C : nat)
    (kspaceGrappaSplit : arr4 Spark.npfloat)
    (acsDifference : list (list (arr4 Spark.npfloat)))
    : option (gmap string net * list string) :=
  for_each (λ e st,
    for_each (λ c st,
      train_one part created C kspaceGrappaSplit acsDifference e c st)
      (seq 0 C) st)
    (seq 0 E) (∅, []).

(** [E] and [C] are the first two extents of [acsDifferenceReal], for both
    loops; the other arguments of the function only reach torch. *)
Definition trainingSparkNetwork (kspaceGrappaSplit : arr4 Spark.npfloat)
    (acsDifferenceReal acsDifferenceImag : list (list (arr4 Spark.npfloat)))
    : option (gmap string net * list string * gmap string net * list string) :=
  let E := length acsDifferenceReal in
  let C := length (default [] (head acsDifferenceReal)) in
  r ← train_part "r" 0 E C kspaceGrappaSplit acsDifferenceReal;
  i ← train_part "i" (E * C) E C kspaceGrappaSplit acsDifferenceImag;
  Some (r.1, r.2, i.1, i.2).

(** *** The correction loop (cell 28) *)

(** Calling a network: the pair its forward pass returns. *)
Variable forward : net → Spark.model.

(** What numpy does with an axis of the assigned value: it has the extent of
    the target's axis, or the extent one, which is repeated. *)
Definition broadcast_axis {A} (n : nat) (a : list A) : option (list A) :=
  if decide (length a = n) then Some a
  else match a with
       | [x] => Some (replicate n x)
       | _ => None
       end.
Definition broadcast2 {A} (m n : nat) (a : arr2 A) : option (arr2 A) :=
  rows ← mapM (broadcast_axis n) a; broadcast_axis m rows.

(**
<<
    for c in range(0,C):
        model_namer = 'model' + 'E' + str(0) + 'C' + str(c) + 'r'
        model_namei = 'model' + 'E' + str(0) + 'C' + str(c) + 'i'
        real_model = realSparkGrappaModels[model_namer]
        imag_model = imagSparkGrappaModels[model_namei]
        kspaceToCorrect   = kspaceSense[0,c,:,:]
        kspaceGrappaSplit = kspace_grappa_split[0,:,:,:]
        currentCorrected = \
                applySparkCorrection(kspaceToCorrect,kspaceGrappaSplit,real_model,imag_model,\
                    chan_scale_factors_real[0,c], chan_scale_factors_imag[0,c])
        kspaceCorrected[c,:,:] = currentCorrected
>>
    [None] stands for the KeyError, IndexError or ValueError of a step.
    [promoted] is the format of [applySparkCorrection]'s quotients. *)
Definition correct_channel (promoted : Ieee.format) (Mn N : nat)
    (realSparkGrappaModels imagSparkGrappaModels : gmap string net)
    (kspaceSense : arr4 Ieee.cplx) (kspace_grappa_split : arr4 Spark.npfloat)
    (chan_scale_factors_real chan_scale_factors_imag : arr2 Ieee.float)
    (c : nat) (kspaceCorrected : arr3 Ieee.cplx) : option (arr3 Ieee.cplx) :=
  let model_namer := model_name 0 c "r" in
  let model_namei := model_name 0 c "i" in
  real_model ← realSparkGrappaModels !! model_namer;
  imag_model ← imagSparkGrappaModels !! model_namei;
  kspaceToCorrect ← kspaceSense !! 0%nat ≫= (.!! c);
  kspaceGrappaSplit ← kspace_grappa_split !! 0%nat;
  sr ← chan_scale_factors_real !! 0%nat ≫= (.!! c);
  si ← chan_scale_factors_imag !! 0%nat ≫= (.!! c);
  currentCorrected ←
    Spark.applySparkCorrection promoted kspaceToCorrect kspaceGrappaSplit
      (forward real_model) (forward imag_model) sr si;
  current ← broadcast2 Mn N currentCorrected;
  Some (<[c := current]> kspaceCorrected).

(** [kspaceCorrected = np.zeros((C,M*numslices,N),dtype = complex)] and the
    loop over the channels. *)
Definition kspaceCorrected (promoted : Ieee.format) (C Mn N : nat)
    (realSparkGrappaModels imagSparkGrappaModels : gmap string net)
    (kspaceSense : arr4 Ieee.cplx) (kspace_grappa_split : arr4 Spark.npfloat)
    (chan_scale_factors_real chan_scale_factors_imag : arr2 Ieee.float)
    : option (arr3 Ieee.cplx) :=
  for_each
    (correct_channel promoted Mn N realSparkGrappaModels imagSparkGrappaModels
       kspaceSense kspace_grappa_split chan_scale_factors_real
       chan_scale_factors_imag)
    (seq 0 C)
    (replicate C (replicate Mn (replicate N (Ieee.fzero, Ieee.fzero)))).

End Networks.

(** *** Facts: the keys *)

Lemma digits_pretty_N_go (x : N) (s : string) :
  digits s → digits (pretty_N_go x s).
Proof.
  revert s. induction (N.lt_wf_0 x) as [x _ IH]; intros s Hs.
  assert (x = 0 ∨ 0 < x)%N as [->|?] by lia.
  - by rewrite pretty_N_go_0.
  - rewrite pretty_N_go_step by done. apply IH.
    { by apply N.div_lt. }
    split; [|done]. unfold pretty_N_char. by repeat case_match.
Qed.

Lemma digits_pretty (n : nat) : digits (pretty n).
Proof.
  unfold pretty, pretty_nat, pretty, pretty_N. case_decide.
  - by split.
  - by apply digits_pretty_N_go.
Qed.

Lemma digits_split (s1 s2 : string) (a b : Ascii.ascii) (t1 t2 : string) :
  digits s1 → digits s2 → is_digit a = false → is_digit b = false →
  s1 +:+ String a t1 = s2 +:+ String b t2 → s1 = s2 ∧ a = b ∧ t1 = t2.
Proof.
  revert s2. induction s1 as [|x s1 IH]; intros [|y s2]; cbn.
  - intros _ _ _ _ Heq. by injection Heq as -> ->.
  - intros _ [Hy _] Ha _ Heq. injection Heq as -> _. congruence.
  - intros [Hx _] _ _ Hb Heq. injection Heq as -> _. congruence.
  - intros [_ H1] [_ H2] Ha Hb Heq. injection Heq as -> Heq.
    destruct (IH s2 H1 H2 Ha Hb Heq) as (-> & -> & ->). done.
Qed.

Lemma append_cons a s t : String a s +:+ t = String a (s +:+ t).
Proof. done. Qed.

Lemma append_nil t : "" +:+ t = t.
Proof. done. Qed.

Definition is_part (part : string) : Prop := part = "r" ∨ part = "i".

Lemma model_name_inj e c part e' c' part' :
  is_part part → is_part part' →
  model_name e c part = model_name e' c' part' → e = e' ∧ c = c' ∧ part = part'.
Proof.
  intros Hp Hp' Heq. unfold model_name in Heq.
  rewrite !append_cons, !append_nil in Heq.
  injection Heq as Heq.
  apply digits_split in Heq as (He & _ & Heq); [|apply digits_pretty..|done|done].
  apply (inj pretty) in He as ->. split; [done|].
  assert (∃ a, part = String a "" ∧ is_digit a = false) as (a & -> & Ha).
  { destruct Hp as [->| ->]; eauto. }
  assert (∃ b, part' = String b "" ∧ is_digit b = false) as (b & -> & Hb).
  { destruct Hp' as [->| ->]; eauto. }
  apply digits_split in Heq as (Hc & -> & _); [|apply digits_pretty..|done|done].
  by apply (inj pretty) in Hc as ->.
Qed.

(** *** Facts: the loops *)

Lemma for_each_app {St} (body : nat → St → option St) l1 l2 s :
  for_each body (l1 ++ l2) s = for_each body l1 s ≫= for_each body l2.
Proof.
  revert s. induction l1 as [|i l1 IH]; intros s; cbn; [done|].
  destruct (body i s); cbn; [apply IH|done].
Qed.

(** The pairs [(e, c)] in the order of the two loops. *)
Definition pairs (E C : nat) : list (nat * nat) :=
  concat (map (λ e, map (pair e) (seq 0 C)) (seq 0 E)).

Lemma elem_of_pairs E C e c : (e, c) ∈ pairs E C ↔ (e < E ∧ c < C)%nat.
Proof.
  unfold pairs. rewrite list_elem_of_In, in_concat. split.
  - intros (l & Hl & Hin). apply in_map_iff in Hl as (e' & <- & He').
    apply in_map_iff in Hin as (c' & [= <- <-] & Hc').
    apply in_seq in He', Hc'. lia.
  - intros [He Hc]. exists (map (pair e) (seq 0 C)). split.
    + apply in_map_iff. exists e. split; [done|]. apply in_seq. lia.
    + apply in_map_iff. exists c. split; [done|]. apply in_seq. lia.
Qed.

Lemma NoDup_pairs E C : NoDup (pairs E C).
Proof.
  unfold pairs. generalize 0%nat at 2. induction E as [|E IH]; intros k; cbn.
  - constructor.
  - apply NoDup_app. split; [|split; [|apply IH]].
    + apply NoDup_fmap_2; [by intros ?? [=]|apply NoDup_seq].
    + intros [e c] H1 H2. apply list_elem_of_In, in_map_iff in H1 as (c' & [= <- <-] & _).
      apply list_elem_of_In, in_concat in H2 as (l & Hl & Hin).
      apply in_map_iff in Hl as (e' & <- & He').
      apply in_map_iff in Hin as (c'' & [= -> _] & _).
      apply in_seq in He'. lia.
Qed.

Section Stored.
Context {net : Type}.
Variable name : nat * nat → string.
Variable value : nat * nat → net.

(** What a loop has stored after the pairs [ps]. *)
Definition store_all (ps : list (nat * nat)) (st : gmap string net * list string)
    : gmap string net * list string :=
  foldl (λ st p, (<[name p := value p]> st.1, st.2 ++ [name p])) st ps.

Lemma store_all_names ps st : (store_all ps st).2 = st.2 ++ map name ps.
Proof.
  revert st. induction ps as [|p ps IH]; intros st; cbn.
  - by rewrite app_nil_r.
  - unfold store_all in IH. rewrite IH. cbn. by rewrite <- app_assoc.
Qed.

Lemma store_all_lookup_other ps st k :
  (∀ p, p ∈ ps → name p ≠ k) → (store_all ps st).1 !! k = st.1 !! k.
Proof.
  revert st. induction ps as [|p ps IH]; intros st Hk; cbn; [done|].
  unfold store_all in IH. rewrite IH.
  - cbn. apply lookup_insert_ne, Hk. by left.
  - intros q Hq. apply Hk. by right.
Qed.

Lemma store_all_lookup ps st p :
  (∀ q q', q ∈ ps → q' ∈ ps → name q = name q' → q = q') →
  NoDup ps → p ∈ ps → (store_all ps st).1 !! name p = Some (value p).
Proof.
  revert st. induction ps as [|q ps IH]; intros st Hinj Hnd Hp.
  - by apply elem_of_nil in Hp.
  - apply NoDup_cons in Hnd as [Hq Hnd]. cbn.
    apply elem_of_cons in Hp as [->|Hp].
    + fold (store_all ps (<[name q := value q]> st.1, st.2 ++ [name q])).
      rewrite store_all_lookup_other.
      * cbn. apply lookup_insert_eq.
      * intros p Hp Heq. apply Hq.
        rewrite <- (Hinj p q); [done|by right|by left|done].
    + apply IH; [|done|done].
      intros a b Ha Hb. apply Hinj; by right.
Qed.

End Stored.

Section NetworkFacts.
Context {net opt : Type}.
Variable SPARK_Netv2 : nat → nat → net.
Variable Adam : net → opt.
Variable epoch : arr4 Spark.npfloat → arr4 Spark.npfloat → net * opt → net * opt.
Variable iterations : nat.

Lemma for_each_pairs (body : nat → nat → gmap string net * list string
                              → option (gmap string net * list string))
    (ins : nat * nat → gmap string net * list string → gmap string net * list string)
    E C st :
  (∀ e c st, (e < E)%nat → (c < C)%nat → body e c st = Some (ins (e, c) st)) →
  for_each (λ e st, for_each (λ c st, body e c st) (seq 0 C) st) (seq 0 E) st
  = Some (foldl (λ st p, ins p st) st (pairs E C)).
Proof.
  intros Hbody. unfold pairs.
  assert (Hin : ∀ e, e ∈ seq 0 E → (e < E)%nat).
  { intros e He. apply list_elem_of_In, in_seq in He. lia. }
  revert st Hin. generalize (seq 0 E). intros es.
  induction es as [|e es IH]; intros st Hin; cbn; [done|].
  rewrite foldl_app.
  assert (Hrow : ∀ cs st, (∀ c, c ∈ cs → (c < C)%nat) →
            for_each (λ c st, body e c st) cs st
            = Some (foldl (λ st p, ins p st) st (map (pair e) cs))).
  { intros cs. induction cs as [|c cs IHc]; intros st' Hcs; cbn; [done|].
    rewrite Hbody; [|apply Hin; by left|apply Hcs; by left]. cbn.
    apply IHc. intros c' Hc'. apply Hcs. by right. }
  rewrite Hrow.
  - cbn. apply IH. intros e' He'. apply Hin. by right.
  - intros c Hc. apply list_elem_of_In, in_seq in Hc. lia.
Qed.

(** The network the loops store for the pair [(e, c)]. *)
Definition network (created C : nat) (kspaceGrappaSplit : arr4 Spark.npfloat)
    (acsDifference : list (list (arr4 Spark.npfloat))) (p : nat * nat) : net :=
  trained SPARK_Netv2 Adam epoch iterations C (created + p.1 * C + p.2)
    [default [] (kspaceGrappaSplit !! p.1)]
    (default [] (acsDifference !! p.1 ≫= (.!! p.2))).

Lemma train_part_run part created E C kspaceGrappaSplit acsDifference :
  (E ≤ length kspaceGrappaSplit)%nat →
  (E ≤ length acsDifference)%nat →
  Forall (λ row, C ≤ length row)%nat acsDifference →
  train_part SPARK_Netv2 Adam epoch iterations part created E C
    kspaceGrappaSplit acsDifference
  = Some (store_all (λ p, model_name p.1 p.2 part)
            (network created C kspaceGrappaSplit acsDifference)
            (pairs E C) (∅, [])).
Proof.
  intros Hks Hlen Hrows. unfold train_part, store_all.
  apply (for_each_pairs
           (train_one SPARK_Netv2 Adam epoch iterations part created C
              kspaceGrappaSplit acsDifference)
           (λ p st, (<[model_name p.1 p.2 part :=
                        network created C kspaceGrappaSplit acsDifference p]> st.1,
                     st.2 ++ [model_name p.1 p.2 part]))).
  intros e c st He Hc. unfold train_one, network. cbn [fst snd].
  destruct (lookup_lt_is_Some_2 kspaceGrappaSplit e ltac:(lia)) as [ks Hk].
  destruct (lookup_lt_is_Some_2 acsDifference e ltac:(lia)) as [row Hr].
  assert (Hrow : (C ≤ length row)%nat).
  { rewrite Forall_forall in Hrows. apply Hrows. by eapply list_elem_of_lookup_2. }
  destruct (lookup_lt_is_Some_2 row c ltac:(lia)) as [t Ht].
  rewrite Hk, Hr. cbn. rewrite Ht. cbn.
  destruct iterations; done.
Qed.

Lemma trainingSparkNetwork_run kspaceGrappaSplit acsDifferenceReal acsDifferenceImag
    (E C : nat) :
  E = length acsDifferenceReal →
  C = length (default [] (head acsDifferenceReal)) →
  (E ≤ length kspaceGrappaSplit)%nat →
  Forall (λ row, length row = C) acsDifferenceReal →
  (E ≤ length acsDifferenceImag)%nat →
  Forall (λ row, C ≤ length row)%nat acsDifferenceImag →
  let r := store_all (λ p, model_name p.1 p.2 "r")
             (network 0 C kspaceGrappaSplit acsDifferenceReal) (pairs E C) (∅, []) in
  let i := store_all (λ p, model_name p.1 p.2 "i")
             (network (E * C) C kspaceGrappaSplit acsDifferenceImag) (pairs E C) (∅, []) in
  trainingSparkNetwork SPARK_Netv2 Adam epoch iterations kspaceGrappaSplit
    acsDifferenceReal acsDifferenceImag
  = Some (r.1, r.2, i.1, i.2).
Proof.
  intros HE HC Hks Hreal Himag Hrows r i. unfold trainingSparkNetwork.
  rewrite <- HE, <- HC.
  rewrite (train_part_run "r" 0 E C); [|done|lia|].
  2:{ eapply Forall_impl; [exact Hreal|]. cbn. lia. }
  cbn. rewrite (train_part_run "i" (E * C) E C); done.
Qed.

Lemma stored_network part created E C kspaceGrappaSplit acsDifference e c ks t :
  is_part part → (e < E)%nat → (c < C)%nat →
  kspaceGrappaSplit !! e = Some ks →
  acsDifference !! e ≫= (.!! c) = Some t →
  (store_all (λ p, model_name p.1 p.2 part)
     (network created C kspaceGrappaSplit acsDifference) (pairs E C) (∅, [])).1
    !! model_name e c part
  = Some (trained SPARK_Netv2 Adam epoch iterations C (created + e * C + c) [ks] t).
Proof.
  intros Hp He Hc Hks Ht.
  rewrite (store_all_lookup (λ p, model_name p.1 p.2 part) _ (pairs E C) _ (e, c)).
  - unfold network. cbn [fst snd]. by rewrite Hks, Ht.
  - intros [e1 c1] [e2 c2] _ _ Heq. cbn in Heq.
    by apply model_name_inj in Heq as (-> & -> & _).
  - apply NoDup_pairs.
  - by apply elem_of_pairs.
Qed.

Lemma stored_key part part' created E C kspaceGrappaSplit acsDifference e c :
  is_part part → is_part part' →
  is_Some ((store_all (λ p, model_name p.1 p.2 part)
              (network created C kspaceGrappaSplit acsDifference) (pairs E C) (∅, [])).1
             !! model_name e c part')
  ↔ part' = part ∧ (e < E)%nat ∧ (c < C)%nat.
Proof.
  intros Hp Hp'. split.
  - intros Hs.
    destruct (decide (part' = part ∧ (e < E)%nat ∧ (c < C)%nat)) as [|Hn]; [done|].
    rewrite store_all_lookup_other in Hs.
    + cbn in Hs. rewrite lookup_empty in Hs. by destruct Hs.
    + intros [e1 c1] Hin Heq. cbn in Heq.
      apply model_name_inj in Heq as (-> & -> & ->); [|done..].
      apply elem_of_pairs in Hin. tauto.
  - intros (-> & He & Hc).
    rewrite (store_all_lookup (λ p, model_name p.1 p.2 part) _ (pairs E C) _ (e, c)).
    + done.
    + intros [e1 c1] [e2 c2] _ _ Heq. cbn in Heq.
      by apply model_name_inj in Heq as (-> & -> & _).
    + apply NoDup_pairs.
    + by apply elem_of_pairs.
Qed.

Lemma length_pairs E C : length (pairs E C) = (E * C)%nat.
Proof.
  unfold pairs. generalize 0%nat at 2. induction E as [|E IH]; intros k; cbn; [done|].
  by rewrite length_app, length_map, length_seq, IH.
Qed.

Lemma NoDup_names part E C :
  is_part part → NoDup (map (λ p, model_name p.1 p.2 part) (pairs E C)).
Proof.
  intros Hp. apply (NoDup_fmap_2_strong (λ p : nat * nat, model_name p.1 p.2 part)).
  - intros [e1 c1] [e2 c2] _ _ Heq. cbn in Heq.
    by apply model_name_inj in Heq as (-> & -> & _).
  - apply NoDup_pairs.
Qed.

(** *** Facts: the correction loop *)

Variable forward : net → Spark.model.

Lemma broadcast_axis_same {A} n (a : list A) : length a = n → broadcast_axis n a = Some a.
Proof. intros H. unfold broadcast_axis. by rewrite decide_True. Qed.

Lemma broadcast2_same {A} m n (a : arr2 A) : has_shape2 m n a → broadcast2 m n a = Some a.
Proof.
  intros [Hm Hn]. unfold broadcast2.
  assert (Hrows : mapM (broadcast_axis n) a = Some a).
  { clear Hm. induction Hn as [|r a Hr Hn IH]; cbn; [done|].
    rewrite broadcast_axis_same by done. cbn. by rewrite IH. }
  rewrite Hrows. cbn. by apply broadcast_axis_same.
Qed.

Lemma channels_loop {A} (body : nat → list A → option (list A)) (cur : nat → A)
    (z : A) (j : nat) :
  ∀ k pre, length pre = k →
    (∀ c st, (k ≤ c < k + j)%nat → body c st = Some (<[c := cur c]> st)) →
    for_each body (seq k j) (pre ++ replicate j z) = Some (pre ++ map cur (seq k j)).
Proof.
  induction j as [|j IH]; intros k pre Hk Hbody; cbn; [done|].
  rewrite Hbody by lia. cbn.
  rewrite insert_app_r_alt by lia. rewrite Hk, Nat.sub_diag. cbn.
  replace (pre ++ cur k :: replicate j z)
    with ((pre ++ [cur k]) ++ replicate j z) by (by rewrite <- app_assoc).
  replace (pre ++ cur k :: map cur (seq (S k) j))
    with ((pre ++ [cur k]) ++ map cur (seq (S k) j)) by (by rewrite <- app_assoc).
  apply IH.
  - rewrite length_app. cbn. lia.
  - intros c st Hc. apply Hbody. lia.
Qed.

End NetworkFacts.

(** *** Theorems *)

Section Theorems.
Context {net opt : Type}.
Variable SPARK_Netv2 : nat → nat → net.
Variable Adam : net → opt.
Variable epoch : arr4 Spark.npfloat → arr4 Spark.npfloat → net * opt → net * opt.
Variable iterations : nat.
Variable forward : net → Spark.model.

(** X20: [trainingSparkNetwork] keeps every network it trains.  For data of [E]
    contrasts and [C] channels it returns, and the two lists of names are the
    names of the pairs [(e, c)] in the order of the loops; under the name of
    [(e, c)] the dictionary of the real part holds the network created as
    number [e * C + c] and trained on [kspaceGrappaSplit[e]] against
    [acsDifferenceReal[e, c]], the dictionary of the imaginary part the
    network created as number [E * C + e * C + c] and trained against
    [acsDifferenceImag[e, c]]: no later network replaces an earlier one. *)
Theorem trainingSparkNetwork_keeps_every_network
    (kspaceGrappaSplit : arr4 Spark.npfloat)
    (acsDifferenceReal acsDifferenceImag : list (list (arr4 Spark.npfloat)))
    (E C : nat) :
  E = length acsDifferenceReal →
  C = length (default [] (head acsDifferenceReal)) →
  (E ≤ length kspaceGrappaSplit)%nat →
  Forall (λ row, length row = C) acsDifferenceReal →
  (E ≤ length acsDifferenceImag)%nat →
  Forall (λ row, C ≤ length row)%nat acsDifferenceImag →
  ∃ real_models real_model_names imag_models imag_model_names,
    trainingSparkNetwork SPARK_Netv2 Adam epoch iterations kspaceGrappaSplit
      acsDifferenceReal acsDifferenceImag
    = Some (real_models, real_model_names, imag_models, imag_model_names)
    ∧ real_model_names = map (λ p, model_name p.1 p.2 "r") (pairs E C)
    ∧ imag_model_names = map (λ p, model_name p.1 p.2 "i") (pairs E C)
    ∧ ∀ e c ks tr ti,
        (e < E)%nat → (c < C)%nat →
        kspaceGrappaSplit !! e = Some ks →
        acsDifferenceReal !! e ≫= (.!! c) = Some tr →
        acsDifferenceImag !! e ≫= (.!! c) = Some ti →
        real_models !! model_name e c "r"
        = Some (trained SPARK_Netv2 Adam epoch iterations C (e * C + c) [ks] tr)
        ∧ imag_models !! model_name e c "i"
          = Some (trained SPARK_Netv2 Adam epoch iterations C (E * C + e * C + c)
                    [ks] ti).
Proof.
  intros HE HC Hks Hreal Himag Hrows.
  pose proof (trainingSparkNetwork_run SPARK_Netv2 Adam epoch iterations
                kspaceGrappaSplit acsDifferenceReal acsDifferenceImag E C
                HE HC Hks Hreal Himag Hrows) as Hrun.
  cbv zeta in Hrun. eexists _, _, _, _. split; [exact Hrun|].
  split; [by rewrite store_all_names|].
  split; [by rewrite store_all_names|].
  intros e c ks tr ti He Hc Hk Htr Hti. split.
  - rewrite (stored_network SPARK_Netv2 Adam epoch iterations "r" 0 E C _ _ e c ks tr);
      [done|by left|done..].
  - rewrite (stored_network SPARK_Netv2 Adam epoch iterations "i" (E * C) E C _ _ e c ks ti);
      [done|by right|done..].
Qed.

(** X21: The keys of the dictionaries [trainingSparkNetwork] returns.  The name of
    [(e, c)] with the suffix ['r'] is a key of the dictionary of the real part
    exactly when [e < E] and [c < C], and never one of the dictionary of the
    imaginary part, and the other way round for ['i']: a lookup outside these
    raises KeyError.  The [E * C] names of a list are distinct. *)
Theorem trainingSparkNetwork_keys
    (kspaceGrappaSplit : arr4 Spark.npfloat)
    (acsDifferenceReal acsDifferenceImag : list (list (arr4 Spark.npfloat)))
    (E C : nat) :
  E = length acsDifferenceReal →
  C = length (default [] (head acsDifferenceReal)) →
  (E ≤ length kspaceGrappaSplit)%nat →
  Forall (λ row, length row = C) acsDifferenceReal →
  (E ≤ length acsDifferenceImag)%nat →
  Forall (λ row, C ≤ length row)%nat acsDifferenceImag →
  ∃ real_models real_model_names imag_models imag_model_names,
    trainingSparkNetwork SPARK_Netv2 Adam epoch iterations kspaceGrappaSplit
      acsDifferenceReal acsDifferenceImag
    = Some (real_models, real_model_names, imag_models, imag_model_names)
    ∧ (∀ e c part, is_part part →
         (is_Some (real_models !! model_name e c part)
          ↔ part = "r" ∧ (e < E)%nat ∧ (c < C)%nat)
         ∧ (is_Some (imag_models !! model_name e c part)
            ↔ part = "i" ∧ (e < E)%nat ∧ (c < C)%nat))
    ∧ NoDup real_model_names ∧ length real_model_names = (E * C)%nat
    ∧ NoDup imag_model_names ∧ length imag_model_names = (E * C)%nat.
Proof.
  intros HE HC Hks Hreal Himag Hrows.
  pose proof (trainingSparkNetwork_run SPARK_Netv2 Adam epoch iterations
                kspaceGrappaSplit acsDifferenceReal acsDifferenceImag E C
                HE HC Hks Hreal Himag Hrows) as Hrun.
  cbv zeta in Hrun. eexists _, _, _, _. split; [exact Hrun|].
  split.
  { intros e c part Hp. split; apply stored_key; first [done | by left | by right]. }
  rewrite !store_all_names. cbn [snd app]. rewrite !length_map, length_pairs.
  repeat split; try done; apply NoDup_names; [by left|by right].
Qed.

(** X22: Training and correction fit together.  With the dictionaries that
    [trainingSparkNetwork] returns for data of at least one contrast, the loop
    of cell 28 over the [C] channels of that data finds every network it looks
    up, and channel [c] of [kspaceCorrected] is what [applySparkCorrection]
    returns with the two networks trained against the targets of contrast 0
    and channel [c], whenever these calls return an [Mn] x [N] array. *)
Theorem correction_uses_trained_networks
    (kspaceGrappaSplit : arr4 Spark.npfloat)
    (acsDifferenceReal acsDifferenceImag : list (list (arr4 Spark.npfloat)))
    (promoted : Ieee.format) (kspaceSense : arr4 Ieee.cplx)
    (chan_scale_factors_real chan_scale_factors_imag : arr2 Ieee.float)
    (E C Mn N : nat) (ks : arr3 Spark.npfloat) (current : nat → arr2 Ieee.cplx) :
  E = length acsDifferenceReal →
  C = length (default [] (head acsDifferenceReal)) →
  (0 < E)%nat →
  (E ≤ length kspaceGrappaSplit)%nat →
  Forall (λ row, length row = C) acsDifferenceReal →
  (E ≤ length acsDifferenceImag)%nat →
  Forall (λ row, C ≤ length row)%nat acsDifferenceImag →
  kspaceGrappaSplit !! 0%nat = Some ks →
  (∀ c, (c < C)%nat →
     ∃ kspaceToCorrect tr ti sr si,
       kspaceSense !! 0%nat ≫= (.!! c) = Some kspaceToCorrect
       ∧ acsDifferenceReal !! 0%nat ≫= (.!! c) = Some tr
       ∧ acsDifferenceImag !! 0%nat ≫= (.!! c) = Some ti
       ∧ chan_scale_factors_real !! 0%nat ≫= (.!! c) = Some sr
       ∧ chan_scale_factors_imag !! 0%nat ≫= (.!! c) = Some si
       ∧ Spark.applySparkCorrection promoted kspaceToCorrect ks
           (forward (trained SPARK_Netv2 Adam epoch iterations C c [ks] tr))
           (forward (trained SPARK_Netv2 Adam epoch iterations C (E * C + c) [ks] ti))
           sr si
         = Some (current c)
       ∧ has_shape2 Mn N (current c)) →
  ∃ real_models real_model_names imag_models imag_model_names,
    trainingSparkNetwork SPARK_Netv2 Adam epoch iterations kspaceGrappaSplit
      acsDifferenceReal acsDifferenceImag
    = Some (real_models, real_model_names, imag_models, imag_model_names)
    ∧ kspaceCorrected forward promoted C Mn N real_models imag_models kspaceSense
        kspaceGrappaSplit chan_scale_factors_real chan_scale_factors_imag
      = Some (map current (seq 0 C)).
Proof.
  intros HE HC HE0 Hks Hreal Himag Hrows Hk0 Hcur.
  pose proof (trainingSparkNetwork_run SPARK_Netv2 Adam epoch iterations
                kspaceGrappaSplit acsDifferenceReal acsDifferenceImag E C
                HE HC Hks Hreal Himag Hrows) as Hrun.
  cbv zeta in Hrun. eexists _, _, _, _. split; [exact Hrun|].
  unfold kspaceCorrected.
  apply (channels_loop _ current _ C 0%nat []); [done|].
  intros c st Hc.
  destruct (Hcur c ltac:(lia)) as (kc & tr & ti & sr & si & H1 & H2 & H3 & H4 & H5 & H6 & H7).
  unfold correct_channel.
  rewrite (stored_network SPARK_Netv2 Adam epoch iterations "r" 0 E C _ _ 0 c ks tr);
    [|by left|lia|lia|done|done].
  rewrite (stored_network SPARK_Netv2 Adam epoch iterations "i" (E * C) E C _ _ 0 c ks ti);
    [|by right|lia|lia|done|done].
  cbn [mbind option_bind]. rewrite H1. cbn [mbind option_bind].
  rewrite Hk0. cbn [mbind option_bind]. rewrite H4. cbn [mbind option_bind].
  rewrite H5. cbn [mbind option_bind].
  replace (0 + 0 * C + c)%nat with c by lia.
  replace (E * C + 0 * C + c)%nat with (E * C + c)%nat by lia.
  rewrite H6. cbn [mbind option_bind].
  rewrite broadcast2_same by done. done.
Qed.

End Theorems.

(** *** A run with one contrast and one channel

    The networks are numbers: a new network is the number of networks created
    before it, a pass of the training adds one, and the forward pass returns
    the number as a 1 x 1 x 1 x 1 float32 array. *)
Definition SPARK_Netv2_ex (C created : nat) : nat := created.
Definition Adam_ex (model : nat) : unit := tt.
Definition epoch_ex (kspsplit target : arr4 Spark.npfloat) (s : nat * unit)
    : nat * unit := (S s.1, tt).
Definition forward_ex (model : nat) : Spark.model :=
  λ _, ([[[[Ieee.of_Z Ieee.binary32 (Z.of_nat model)]]]], []).

Definition split_ex : arr4 Spark.npfloat :=
  [[ [[Spark.Fin 1%Qc]]; [[Spark.Fin 2%Qc]] ]].
Definition target_ex : list (list (arr4 Spark.npfloat)) :=
  [[ [[[[Spark.Fin 1%Qc]]]] ]].
Definition sense_ex : arr4 Ieee.cplx := [[ [[(Spark.f64 1, Spark.f64 1)]] ]].
Definition factors_ex : arr2 Ieee.float := [[Spark.f64 1]].
Definition current_ex (c : nat) : arr2 Ieee.cplx := [[(Spark.f64 3, Spark.f64 4)]].

Lemma trainingSparkNetwork_keeps_every_network_witness :
  ∃ real_models real_model_names imag_models imag_model_names,
    trainingSparkNetwork SPARK_Netv2_ex Adam_ex epoch_ex 2 split_ex target_ex target_ex
    = Some (real_models, real_model_names, imag_models, imag_model_names)
    ∧ real_model_names = map (λ p, model_name p.1 p.2 "r") (pairs 1 1)
    ∧ imag_model_names = map (λ p, model_name p.1 p.2 "i") (pairs 1 1)
    ∧ ∀ e c ks tr ti,
        (e < 1)%nat → (c < 1)%nat →
        split_ex !! e = Some ks →
        target_ex !! e ≫= (.!! c) = Some tr →
        target_ex !! e ≫= (.!! c) = Some ti →
        real_models !! model_name e c "r"
        = Some (trained SPARK_Netv2_ex Adam_ex epoch_ex 2 1 (e * 1 + c) [ks] tr)
        ∧ imag_models !! model_name e c "i"
          = Some (trained SPARK_Netv2_ex Adam_ex epoch_ex 2 1 (1 * 1 + e * 1 + c)
                    [ks] ti).
Proof.
  apply (trainingSparkNetwork_keeps_every_network SPARK_Netv2_ex Adam_ex epoch_ex 2
           split_ex target_ex target_ex 1 1).
  - reflexivity.
  - reflexivity.
  - cbn. lia.
  - repeat constructor.
  - cbn. lia.
  - repeat constructor.
Defined.

Lemma trainingSparkNetwork_keys_witness :
  ∃ real_models real_model_names imag_models imag_model_names,
    trainingSparkNetwork SPARK_Netv2_ex Adam_ex epoch_ex 2 split_ex target_ex target_ex
    = Some (real_models, real_model_names, imag_models, imag_model_names)
    ∧ (∀ e c part, is_part part →
         (is_Some (real_models !! model_name e c part)
          ↔ part = "r" ∧ (e < 1)%nat ∧ (c < 1)%nat)
         ∧ (is_Some (imag_models !! model_name e c part)
            ↔ part = "i" ∧ (e < 1)%nat ∧ (c < 1)%nat))
    ∧ NoDup real_model_names ∧ length real_model_names = (1 * 1)%nat
    ∧ NoDup imag_model_names ∧ length imag_model_names = (1 * 1)%nat.
Proof.
  apply (trainingSparkNetwork_keys SPARK_Netv2_ex Adam_ex epoch_ex 2
           split_ex target_ex target_ex 1 1).
  - reflexivity.
  - reflexivity.
  - cbn. lia.
  - repeat constructor.
  - cbn. lia.
  - repeat constructor.
Defined.

Lemma correction_uses_trained_networks_witness :
  ∃ real_models real_model_names imag_models imag_model_names,
    trainingSparkNetwork SPARK_Netv2_ex Adam_ex epoch_ex 2 split_ex target_ex target_ex
    = Some (real_models, real_model_names, imag_models, imag_model_names)
    ∧ kspaceCorrected forward_ex Ieee.binary64 1 1 1 real_models imag_models
        sense_ex split_ex factors_ex factors_ex
      = Some (map current_ex (seq 0 1)).
Proof.
  apply (correction_uses_trained_networks SPARK_Netv2_ex Adam_ex epoch_ex 2 forward_ex
           split_ex target_ex target_ex Ieee.binary64 sense_ex factors_ex factors_ex
           1 1 1 1
           [[[Spark.Fin 1%Qc]]; [[Spark.Fin 2%Qc]]] current_ex).
  - reflexivity.
  - reflexivity.
  - lia.
  - cbn. lia.
  - repeat constructor.
  - cbn. lia.
  - repeat constructor.
  - reflexivity.
  - intros c Hc. assert (c = 0%nat) as -> by lia.
    eexists _, _, _, _, _.
    split; [reflexivity|]. split; [reflexivity|]. split; [reflexivity|].
    split; [reflexivity|]. split; [reflexivity|].
    split; [vm_compute; reflexivity|].
    vm_compute. repeat (split || constructor).
Defined.

(** The names of a run with two contrasts and two channels. *)
Example model_names_example :
  map (λ p, model_name p.1 p.2 "r") (pairs 2 2)
  = ["modelE0C0r"; "modelE0C1r"; "modelE1C0r"; "modelE1C1r"].
Proof. reflexivity. Qed.

End Training.

(** ** Runs of the general lemmas on small inputs *)
Module Runs.
Import NumPy Cplx Sense Acs.

(** A k-space on the support of the mask of [mask_w]: its second column is
    zero. *)
Definition kspace_on_mask : arr3 C := [[ [cone; czero]; [ci; czero] ]].



Lemma acs_replacement_window_witness :
  kspaceCorrectedReplaced corrected44 ([replicate 4 (replicate 4 1)] :: []) [1; 2] [1; 2] 2 2
  = Some (replace_window (in_slice 4 1 2) (in_slice 4 1 2) corrected44
            [replicate 4 (replicate 4 1)]).
Proof.
  apply (acs_replacement_window 1 4 4 corrected44 [replicate 4 (replicate 4 1)] []
           [1; 2] [1; 2] 2 2 1 2 1 2).
  - repeat (split || constructor).
  - repeat (split || constructor).
  - reflexivity.
  - reflexivity.
  - reflexivity.
  - reflexivity.
Defined.

End Runs.
